(** * DemirAI: the SQL safety validator, value coercion, JSON extraction,
    the preview summarizer, the query runner and the question endpoint of
    [main.py], embedded in Rocq.

    Python [str] values are modelled as lists of characters whose code points
    lie in U+0000..U+00FF (Rocq's [ascii], read as Latin-1).  On that range
    [str.lower], [str.strip] and the [re] classes [\s], [\d], [\w] are the
    tables written out in [Module Chars]; on it [str.lower] is length
    preserving and [re.IGNORECASE] relates exactly the two cases of a letter.

    Python's [re] is a backtracking matcher.  [Module Re] gives the patterns
    of [main.py] their list-of-successes semantics: [run] returns every way a
    pattern can match at a position, in the order in which the backtracking
    matcher would try them; [re.match], [re.search] and [re.sub] take the
    first.

    CPython converts between an integer and its decimal digits only up to
    4300 digits and raises [ValueError] beyond; [int_raises] and
    [of_int_raises] say when, and the validator fails with [ValueError]
    there. *)

From Stdlib Require Import Ascii String ZArith Lia Bool DecimalN.
From stdpp Require Import base list gmap strings.

Coercion list_ascii_of_string : string >-> list.

(** A Python [str]. *)
Abbreviation str := (list ascii).

(* ===================================================================== *)
(** ** Characters *)
(* ===================================================================== *)

Module Chars.

Definition code (c : ascii) : N := N_of_ascii c.

Definition between (lo hi : N) (c : ascii) : bool :=
  ((lo <=? code c) && (code c <=? hi))%N.

Definition is_code (n : N) (c : ascii) : bool := (code c =? n)%N.

(** [str.isspace] on one character, which is also [\s] and what
    [str.strip] removes: TAB..CR, FS..US, SPACE, NEL, NBSP. *)
Definition is_space (c : ascii) : bool :=
  between 9 13 c || between 28 32 c || is_code 133 c || is_code 160 c.

(** [\d]: the decimal digits (Unicode category Nd). *)
Definition is_digit (c : ascii) : bool := between 48 57 c.

(** Letters (the Unicode letter categories). *)
Definition is_alpha (c : ascii) : bool :=
  between 65 90 c || between 97 122 c || is_code 170 c || is_code 181 c || is_code 186 c
  || between 192 214 c || between 216 246 c || between 248 255 c.

(** Characters with a numeric value: digits, superscripts, fractions. *)
Definition is_numeric (c : ascii) : bool :=
  is_digit c || is_code 178 c || is_code 179 c || is_code 185 c || between 188 190 c.

(** [\w]: alphanumeric or underscore. *)
Definition is_word (c : ascii) : bool :=
  is_alpha c || is_numeric c || is_code 95 c.

Definition is_upper (c : ascii) : bool :=
  between 65 90 c || between 192 214 c || between 216 222 c.

(** [str.lower] on one character. *)
Definition lower_char (c : ascii) : ascii :=
  if is_upper c then ascii_of_N (code c + 32) else c.

Definition eqb (a b : ascii) : bool := Ascii.eqb a b.

(** Equality of a text character [x] with a pattern character [c], under
    [re.IGNORECASE] when [ic] is set. *)
Definition same (ic : bool) (c x : ascii) : bool :=
  if ic then eqb (lower_char x) (lower_char c) else eqb x c.

Definition nl : ascii := ascii_of_N 10.
Definition tab : ascii := ascii_of_N 9.

End Chars.

(* ===================================================================== *)
(** ** String methods *)
(* ===================================================================== *)

Module Str.
Import Chars.

Definition lower (s : str) : str := map lower_char s.

Fixpoint lstrip (s : str) : str :=
  match s with
  | c :: s' => if is_space c then lstrip s' else s
  | [] => []
  end.

Definition rstrip (s : str) : str := reverse (lstrip (reverse s)).

Definition strip (s : str) : str := rstrip (lstrip s).

Fixpoint startswith (p s : str) : bool :=
  match p, s with
  | [], _ => true
  | a :: p', b :: s' => eqb b a && startswith p' s'
  | _ :: _, [] => false
  end.

Definition endswith (p s : str) : bool := startswith (reverse p) (reverse s).

(** [p in s]. *)
Fixpoint contains (p s : str) : bool :=
  startswith p s ||
  match s with
  | [] => false
  | _ :: s' => contains p s'
  end.

(** [s.split(sep)] for a one-character separator. *)
Fixpoint split (sep : ascii) (s : str) : list str :=
  match s with
  | [] => [[]]
  | c :: s' =>
      if eqb c sep then [] :: split sep s'
      else match split sep s' with
           | cur :: parts => (c :: cur) :: parts
           | [] => [[c]]
           end
  end.

Definition nonempty (s : str) : bool :=
  match s with [] => false | _ :: _ => true end.

(** [int(ds)] for a string of decimal digits: its value, [int], and
    whether the call raises, [int_raises]. *)
Fixpoint uint_of_digits (ds : str) : Decimal.uint :=
  match ds with
  | [] => Decimal.Nil
  | c :: ds' =>
      let d := uint_of_digits ds' in
      match code c with
      | 48 => Decimal.D0 d | 49 => Decimal.D1 d | 50 => Decimal.D2 d
      | 51 => Decimal.D3 d | 52 => Decimal.D4 d | 53 => Decimal.D5 d
      | 54 => Decimal.D6 d | 55 => Decimal.D7 d | 56 => Decimal.D8 d
      | _ => Decimal.D9 d
      end%N
  end.

Definition int (ds : str) : Z := Z.of_N (N.of_uint (uint_of_digits ds)).

(** CPython's limit on the digits of an integer that is converted from or
    to a decimal string, [sys.int_info.default_max_str_digits]. *)
Definition int_max_str_digits : Z := 4300.

(** [int(ds)] raises [ValueError]: [ds] has more digits than the limit,
    leading zeros counted. *)
Definition int_raises (ds : str) : bool :=
  (int_max_str_digits <? Z.of_nat (length ds))%Z.

Fixpoint digits_of_uint (d : Decimal.uint) : str :=
  match d with
  | Decimal.Nil => []
  | Decimal.D0 d => ascii_of_N 48 :: digits_of_uint d
  | Decimal.D1 d => ascii_of_N 49 :: digits_of_uint d
  | Decimal.D2 d => ascii_of_N 50 :: digits_of_uint d
  | Decimal.D3 d => ascii_of_N 51 :: digits_of_uint d
  | Decimal.D4 d => ascii_of_N 52 :: digits_of_uint d
  | Decimal.D5 d => ascii_of_N 53 :: digits_of_uint d
  | Decimal.D6 d => ascii_of_N 54 :: digits_of_uint d
  | Decimal.D7 d => ascii_of_N 55 :: digits_of_uint d
  | Decimal.D8 d => ascii_of_N 56 :: digits_of_uint d
  | Decimal.D9 d => ascii_of_N 57 :: digits_of_uint d
  end.

(** [str(n)] for an [int], as an f-string formats it. *)
Definition of_int (n : Z) : str :=
  match n with
  | Z0 => "0"
  | Zpos p => digits_of_uint (N.to_uint (Npos p))
  | Zneg p => "-" ++ digits_of_uint (N.to_uint (Npos p))
  end.

(** [str(n)] raises [ValueError], and so does an f-string that formats
    [n]: [n] has more digits than the limit, its sign not counted. *)
Definition of_int_raises (n : Z) : bool :=
  int_raises (digits_of_uint (N.to_uint (Z.abs_N n))).

End Str.

(* ===================================================================== *)
(** ** Regular expressions *)
(* ===================================================================== *)

Module Re.
Import Chars.

(** The pattern syntax [main.py] uses.  Repetition is only ever applied to
    a one-character class ([\s+], [\d+], [.*]). *)
Inductive regex : Type :=
| Eps
| Lit (c : ascii)
| WordB                                (* \b *)
| Start                                (* ^  *)
| Cat (r1 r2 : regex)
| Alt (r1 r2 : regex)
| Plus (p : ascii -> bool)             (* greedy p+ *)
| Star (p : ascii -> bool)             (* greedy p* *)
| Group (r : regex).                   (* ( ... ), group 1 *)

(** A literal word. *)
Definition word (w : str) : regex := foldr (fun c r => Cat (Lit c) r) Eps w.

(** An alternation of literal words. *)
Fixpoint words (ws : list str) : regex :=
  match ws with
  | [] => Eps
  | [w] => word w
  | w :: ws' => Alt (word w) (words ws')
  end.

(** The character before the position reached after matching [m] from a
    position whose previous character is [prev]. *)
Definition last_of (prev : option ascii) (m : str) : option ascii :=
  match last m with
  | Some c => Some c
  | None => prev
  end.

Definition wordy (o : option ascii) : bool :=
  match o with
  | Some c => is_word c
  | None => false
  end.

(** [\b] holds between [prev] and the head of [rest]. *)
Definition boundary (prev : option ascii) (rest : str) : bool :=
  xorb (wordy prev) (wordy (head rest)).

(** The prefixes of the longest run of [p]-characters, longest first. *)
Fixpoint greedy (p : ascii -> bool) (rest : str) : list str :=
  match rest with
  | c :: rest' => if p c then map (cons c) (greedy p rest') ++ [[]] else [[]]
  | [] => [[]]
  end.

(** A match: the text matched and the text of group 1, if it took part. *)
Definition hit : Type := str * option str.

Definition seq_hit (h1 h2 : hit) : hit :=
  (h1.1 ++ h2.1, match h2.2 with Some g => Some g | None => h1.2 end).

(** All matches of [r] at the position with [rest] ahead and [prev]
    behind, in backtracking order. *)
Fixpoint run (ic : bool) (r : regex) (prev : option ascii) (rest : str)
  : list hit :=
  match r with
  | Eps => [([], None)]
  | Lit c =>
      match rest with
      | x :: _ => if same ic c x then [([x], None)] else []
      | [] => []
      end
  | WordB => if boundary prev rest then [([], None)] else []
  | Start => match prev with None => [([], None)] | Some _ => [] end
  | Cat r1 r2 =>
      flat_map
        (fun h1 =>
           map (seq_hit h1)
             (run ic r2 (last_of prev h1.1) (drop (length h1.1) rest)))
        (run ic r1 prev rest)
  | Alt r1 r2 => run ic r1 prev rest ++ run ic r2 prev rest
  | Plus p =>
      match rest with
      | x :: rest' =>
          if p x then map (fun m => (x :: m, None)) (greedy p rest') else []
      | [] => []
      end
  | Star p => map (fun m => (m, None)) (greedy p rest)
  | Group r => map (fun h => (h.1, Some h.1)) (run ic r prev rest)
  end.

(** [re.match(r, s)]. *)
Definition re_match (ic : bool) (r : regex) (s : str) : option hit :=
  head (run ic r None s).

(** [re.search]: the first match at the leftmost position that has one. *)
Fixpoint search_from (ic : bool) (r : regex) (prev : option ascii)
  (rest : str) : option hit :=
  match run ic r prev rest with
  | h :: _ => Some h
  | [] =>
      match rest with
      | [] => None
      | c :: rest' => search_from ic r (Some c) rest'
      end
  end.

Definition re_search (ic : bool) (r : regex) (s : str) : option hit :=
  search_from ic r None s.

(** [re.sub]: every non-overlapping match, left to right, is replaced by
    [repl]; [skip] counts the characters of the current match still to be
    passed over.  An empty match is replaced too and the character after it
    kept, as Python 3.7 and later do; the clause pattern has none. *)
Fixpoint sub_from (ic : bool) (r : regex) (repl : str) (skip : nat)
  (prev : option ascii) (rest : str) : str :=
  match skip with
  | S k =>
      match rest with
      | [] => []
      | c :: rest' => sub_from ic r repl k (Some c) rest'
      end
  | O =>
      match run ic r prev rest with
      | (_ :: m, _) :: _ =>
          repl ++
          match rest with
          | [] => []
          | c :: rest' => sub_from ic r repl (length m) (Some c) rest'
          end
      | ([], _) :: _ =>
          repl ++
          match rest with
          | [] => []
          | c :: rest' => c :: sub_from ic r repl 0 (Some c) rest'
          end
      | [] =>
          match rest with
          | [] => []
          | c :: rest' => c :: sub_from ic r repl 0 (Some c) rest'
          end
      end
  end.

Definition re_sub (ic : bool) (r : regex) (repl : str) (s : str) : str :=
  sub_from ic r repl 0 None s.

End Re.

(* ===================================================================== *)
(** ** The SQL safety validator *)
(* ===================================================================== *)

Module Validator.
Import Chars Str Re.

(** The failures of [validate_sql]: an [HTTPException(400, ...)] with its
    own message each, and the [ValueError] of a conversion between an
    integer and its digits. *)
Inductive error : Type :=
| EmptyOutput          (* "SQL üretilemedi." *)
| NotAReadQuery        (* "Sadece SELECT sorgularına izin veriliyor." *)
| ForbiddenKeyword     (* "Yasak SQL anahtar kelimesi tespit edildi." *)
| MultipleStatements   (* "Tek bir SQL statement olmalı." *)
| SchemaNotAllowed     (* "Sadece mart şemasına erişim var ..." *)
| LimitRequired        (* "LIMIT zorunlu (maks MAX_ROWS)." *)
| ValueError.          (* raised by [int] or by formatting [MAX_ROWS] *)

Inductive result (A : Type) : Type :=
| Ok (a : A)
| Err (e : error).
Arguments Ok {A} a.
Arguments Err {A} e.

Definition banned_words : list str :=
  [ "insert" : str; "update" : str; "delete" : str; "drop" : str;
    "alter" : str; "create" : str; "truncate" : str; "grant" : str;
    "revoke" : str; "vacuum" : str; "copy" : str ].

(** [r"\b(insert|update|...|copy)\b"], compiled with [re.IGNORECASE]. *)
Definition BANNED : regex := Cat WordB (Cat (Group (words banned_words)) WordB).

(** [r"^(select|with)\b"]. *)
Definition READ_QUERY : regex :=
  Cat Start (Cat (Group (words ["select" : str; "with" : str])) WordB).

(** [r"\blimit\b"]. *)
Definition LIMIT_WORD : regex := Cat WordB (Cat (word "limit") WordB).

(** [r"\blimit\s+(\d+)\b"]. *)
Definition LIMIT_INT : regex :=
  Cat WordB (Cat (word "limit")
    (Cat (Plus is_space) (Cat (Group (Plus is_digit)) WordB))).

(** [r"(?i)\blimit\s+\d+\b"]. *)
Definition LIMIT_CLAUSE : regex :=
  Cat WordB (Cat (word "limit")
    (Cat (Plus is_space) (Cat (Plus is_digit) WordB))).

Definition _single_statement (sql : str) : bool :=
  let parts := map strip (filter (fun p => nonempty (strip p)) (split ";" (strip sql))) in
  Nat.eqb (length parts) 1.

Definition has_from (lowered : str) : bool :=
  contains " from " lowered
  || contains (nl :: "from ") lowered
  || contains (tab :: "from ") lowered.

Definition group1 (h : hit) : str := default [] h.2.

(** The specification's wording of the first test, [^(SELECT|WITH)]: the
    pattern of [READ_QUERY] without its closing word boundary. *)
Definition spec_READ_PREFIX : regex :=
  Cat Start (Group (words ["select" : str; "with" : str])).

(** The specification's wording of the schema test: the token [from]
    preceded by the start of the text or by white space. *)
Definition spec_from_token (lowered : str) : bool :=
  (fix scan (prev : option ascii) (rest : str) : bool :=
     (match prev with None => true | Some c => is_space c end
      && startswith "from" rest)
     || match rest with
        | [] => false
        | c :: rest' => scan (Some c) rest'
        end) None lowered.

Definition validate_sql (MAX_ROWS : Z) (sql : str) : result str :=
  if negb (nonempty sql) then Err EmptyOutput else
  let s := strip sql in
  if negb (bool_decide (is_Some (re_match true READ_QUERY s))) then Err NotAReadQuery else
  if bool_decide (is_Some (re_search true BANNED s)) then Err ForbiddenKeyword else
  if negb (_single_statement s) then Err MultipleStatements else
  let lowered := lower s in
  if has_from lowered && negb (contains "mart." lowered) then Err SchemaNotAllowed else
  if bool_decide (re_search false LIMIT_WORD lowered = None)
  then (if of_int_raises MAX_ROWS then Err ValueError else Err LimitRequired)
  else
  match re_search false LIMIT_INT lowered with
  | Some m =>
      if int_raises (group1 m) then Err ValueError else
      let lim := int (group1 m) in
      if (lim >? MAX_ROWS)%Z
      then
        if of_int_raises MAX_ROWS then Err ValueError
        else Ok (re_sub true LIMIT_CLAUSE ("LIMIT " ++ of_int MAX_ROWS) s)
      else Ok s
  | None => Ok s
  end.

(** A query whose LIMIT has one digit more than [int] converts. *)
Definition long_limit : str :=
  ("select 1 limit " : str) ++ replicate 4301 "9"%char.

End Validator.

(* ===================================================================== *)
(** ** Value coercion *)
(* ===================================================================== *)

Module Jsonable.

#[local] Set Warnings "-register-all".

Section Values.
(** [decimal.Decimal], [float], [datetime.date] (with its subclass
    [datetime.datetime]) and every object of another type are kept
    abstract, and so are the two library conversions. *)
Context {Decimal Float Date Opaque : Type}.
Variable float : Decimal -> Float.
Variable isoformat : Date -> str.

Inductive value : Type :=
| VNone
| VBool (b : bool)
| VInt (n : Z)
| VStr (s : str)
| VFloat (f : Float)
| VDecimal (d : Decimal)
| VDate (d : Date)
| VDict (items : list (str * value))   (* in insertion order *)
| VList (xs : list value)
| VTuple (xs : list value)
| VOpaque (o : Opaque).

Fixpoint to_jsonable (x : value) : value :=
  match x with
  | VDecimal d => VFloat (float d)
  | VDate d => VStr (isoformat d)
  | VDict items => VDict (map (fun '(k, v) => (k, to_jsonable v)) items)
  | VList xs => VList (map to_jsonable xs)
  | VTuple xs => VList (map to_jsonable xs)
  | _ => x
  end.

(** A value in which no [Decimal], date or tuple is left. *)
Fixpoint json_safe (x : value) : bool :=
  match x with
  | VDecimal _ | VDate _ | VTuple _ => false
  | VDict items => forallb (fun '(_, v) => json_safe v) items
  | VList xs => forallb json_safe xs
  | _ => true
  end.

End Values.

Arguments value : clear implicits.

End Jsonable.

(* ===================================================================== *)
(** ** The language-model bridge: JSON extraction *)
(* ===================================================================== *)

Module Bridge.
Import Chars Str Re.

Definition open_brace : ascii := "{".
Definition close_brace : ascii := "}".

(** The match [h], one character further left. *)
Definition cons_hit (x : ascii) (h : hit) : hit := (x :: h.1, h.2).

(** [r"\{.*\}"] with [re.DOTALL]: [.] is every character. *)
Definition JSON_SPAN : regex :=
  Cat (Lit "{") (Cat (Star (fun _ => true)) (Lit "}")).

(** [text] is [None] or a string; [(text or "")] is then a string. *)
Definition _extract_json (text : option str) : str :=
  let text := strip (default [] text) in
  if startswith "{" text && endswith "}" text then text
  else match re_search false JSON_SPAN text with
       | Some m => m.1
       | None => text
       end.

Inductive bridge_error : Type :=
| ModelEndpointError (status : Z) (body : str)
    (* 502 "Ollama hata: <status> <body>" *)
| ModelOutputUnparseable (excerpt : str).
    (* 502 "Ollama JSON parse edilemedi: <excerpt>" *)

(** What the endpoint answered: the HTTP status, the body text, and the
    [response] field of the decoded body ([None] when the body has no such
    field, for which [data.get("response", "")] supplies the empty
    string). *)
Record reply : Type := {
  status_code : Z;
  text : str;
  response : option str
}.

Section Parse.
(** [json.loads], which fails on some strings. *)
Context {Json : Type}.
Variable json_loads : str -> option Json.

(** [ollama_json] from the point where the endpoint has answered. *)
Definition ollama_json (r : reply) : Json + bridge_error :=
  if negb (status_code r =? 200)%Z
  then inr (ModelEndpointError (status_code r) (text r))
  else
    let raw := _extract_json (Some (default [] (response r))) in
    match json_loads raw with
    | Some j => inl j
    | None => inr (ModelOutputUnparseable (take 300 raw))
    end.
End Parse.

End Bridge.

(* ===================================================================== *)
(** ** The preview summarizer *)
(* ===================================================================== *)

Module Summary.
Import Jsonable.

Section Rows.
Context {Decimal Float Date Opaque : Type}.

Abbreviation value := (Jsonable.value Decimal Float Date Opaque).

(** A row as [dict_row] builds it: column name to value. *)
Abbreviation row := (gmap str value).

(** [r.get(c) is None]: the column is missing or holds [None]. *)
Definition get_is_None (r : row) (c : str) : bool :=
  match r !! c with
  | None => true
  | Some VNone => true
  | Some _ => false
  end.

(** [if r.get(c) is None: nulls[c] += 1]; every [c] is a key of
    [nulls], so the lookup of [+=] cannot fail. *)
Definition count_null (r : row) (nulls : gmap str nat) (c : str)
  : gmap str nat :=
  if get_is_None r c then <[c := S (nulls !!! c)]> nulls else nulls.

Record stats : Type := {
  preview_row_count : nat;
  nulls : gmap str nat
}.

(** The row has the column, and its value is [None]. *)
Definition holds_None (r : row) (c : str) : bool :=
  match r !! c with
  | Some VNone => true
  | _ => false
  end.

(** The number of rows of [rows] in which [r.get(c) is None]. *)
Definition null_rows (c : str) (rows : list row) : nat :=
  length (filter (fun r => get_is_None r c = true) rows).

Definition summarize_rows (rows : list row) : stats :=
  match rows with
  | [] => {| preview_row_count := 0; nulls := ∅ |}
  | first :: _ =>
      let cols := elements (dom first) in
      let nulls0 : gmap str nat := gset_to_gmap 0 (dom first) in
      let nulls :=
        foldl (fun nulls r => foldl (count_null r) nulls cols) nulls0 rows in
      {| preview_row_count := length rows; nulls := nulls |}
  end.

End Rows.

(** Five preview rows, with no price in two of them. *)
Definition priced (id : Z) (price : Jsonable.value unit unit unit unit)
  : gmap str (Jsonable.value unit unit unit unit) :=
  <[("price" : str) := price]> (<[("id" : str) := Jsonable.VInt id]> ∅).

Definition five_rows : list (gmap str (Jsonable.value unit unit unit unit)) :=
  [ priced 1 (Jsonable.VInt 100); priced 2 Jsonable.VNone;
    priced 3 (Jsonable.VFloat tt); priced 4 Jsonable.VNone;
    priced 5 (Jsonable.VInt 70) ].

End Summary.

(* ===================================================================== *)
(** ** Running the query *)
(* ===================================================================== *)

Module Query.
Import Jsonable Summary.

Section Run.
Context {Decimal Float Date Opaque : Type}.
Variable float : Decimal -> Float.
Variable isoformat : Date -> str.

(** [to_jsonable] on what [fetchmany] returns, a list of [dict_row] rows:
    the list branch coerces every row, and the dict branch every value of
    a row under its key. *)
Definition rows_to_jsonable
  (rows : list (gmap str (Jsonable.value Decimal Float Date Opaque)))
  : list (gmap str (Jsonable.value Decimal Float Date Opaque)) :=
  map (fmap (to_jsonable float isoformat)) rows.

(** The cursor after [execute]: the rows of the result, in order, and the
    column names of [cur.description], which is [None] for a statement
    without a result. *)
Record cursor : Type := {
  result_rows : list (gmap str (Jsonable.value Decimal Float Date Opaque));
  description : option (list str)
}.

(** [cur.fetchmany(size)] on a fresh result: its first [size] rows. *)
Definition fetchmany (size : nat) (cur : cursor)
  : list (gmap str (Jsonable.value Decimal Float Date Opaque)) :=
  take size (result_rows cur).

(** A [psycopg.Error], as the lines of its message, [str(e).splitlines()]. *)
Definition db_error : Type := list str.

(** [run_query]; [execute] stands for connecting and [cur.execute(sql)],
    which give the cursor or fail with a [psycopg.Error]. *)
Definition run_query (execute : str -> db_error + cursor) (sql : str)
  : db_error
    + (list (gmap str (Jsonable.value Decimal Float Date Opaque)) * list str) :=
  match execute sql with
  | inl e => inl e
  | inr cur =>
      let rows := fetchmany 50 cur in
      let cols :=
        match description cur with
        | Some names => names
        | None => []
        end in
      inr (rows_to_jsonable rows, cols)
  end.

(** The dict that [summarize_rows] returns, as a value. *)
Definition stats_value (s : stats) : Jsonable.value Decimal Float Date Opaque :=
  VDict
    [ ("preview_row_count" : str, VInt (Z.of_nat (preview_row_count s)));
      ("nulls" : str,
       VDict (map (fun '(c, n) => (c, VInt (Z.of_nat n)))
                (map_to_list (nulls s)))) ].

End Run.

End Query.

(* ===================================================================== *)
(** ** The question endpoint *)
(* ===================================================================== *)

Module Api.
Import Chars Str Validator Jsonable Bridge Summary Query.

#[local] Set Warnings "-register-all".

(** The ways [ask] fails, by status and message. *)
Inductive http_error : Type :=
| NoSqlProduced                      (* 400, the model returned no SQL *)
| SqlRejected (e : Validator.error)  (* 400, with the validator's message *)
| QueryFailed (line : str)           (* 400, with the last line of the
                                        database error *)
| ModelFailed (e : bridge_error)     (* 502, from the bridge *)
| SerializationFailed                (* 500, the payload has no JSON text *)
| InternalError.                     (* 500, any other exception *)

Section Endpoint.
Context {Decimal Float Date Opaque : Type}.

(** What [json.loads] returns. *)
Inductive json : Type :=
| JNull
| JBool (b : bool)
| JInt (n : Z)
| JFloat (f : Float)
| JStr (s : str)
| JList (xs : list json)
| JDict (items : list (str * json)).   (* distinct keys, in insertion order *)

Variable float : Decimal -> Float.
Variable isoformat : Date -> str.
(** [bool(f)] of a float, and [str(x)] of a value that is not a string. *)
Variable nonzero : Float -> bool.
Variable repr : json -> str.

(** [bool(x)], which [not x] negates. *)
Definition truthy (x : json) : bool :=
  match x with
  | JNull => false
  | JBool b => b
  | JInt n => negb (n =? 0)%Z
  | JFloat f => nonzero f
  | JStr s => nonempty s
  | JList xs => match xs with [] => false | _ :: _ => true end
  | JDict items => match items with [] => false | _ :: _ => true end
  end.

(** [d.get(key)], [None] when the key is missing. *)
Fixpoint get (key : str) (items : list (str * json)) : option json :=
  match items with
  | [] => None
  | (k, v) :: items' =>
      if bool_decide (k = key) then Some v else get key items'
  end.

(** [str(x)]. *)
Definition py_str (x : json) : str :=
  match x with
  | JStr s => s
  | _ => repr x
  end.

(** [if not isinstance(x, list): x = [str(x)]]. *)
Definition as_list (x : json) : list json :=
  match x with
  | JList xs => xs
  | _ => [JStr (py_str x)]
  end.

(** The insight payload: the question, the SQL, the columns, the preview
    rows and the statistics; its [notes] are constant. *)
Inductive payload : Type :=
| Payload (question sql : str) (columns : list str)
    (preview_rows : list (gmap str (Jsonable.value Decimal Float Date Opaque)))
    (stats : Jsonable.value Decimal Float Date Opaque).

Record AskResponse : Type := {
  sql : str;
  tldr : str;
  findings : list str;
  recommendations : list str;
  row_count : nat;
  columns : list str
}.

Variable MAX_ROWS : Z.
Variable json_loads : str -> option json.
(** The endpoint's answer to the SQL prompt made from a question, and to
    the insight prompt, a payload text.  [None]: the request raised, or
    the answer had status 200 and a body that is not a JSON object whose
    [response] is a string, falsy or missing. *)
Variable sql_model : str -> option reply.
Variable insight_model : str -> option reply.
Variable execute : str -> db_error + cursor (Decimal := Decimal)
  (Float := Float) (Date := Date) (Opaque := Opaque).
(** [json.dumps], which raises on some payloads. *)
Variable json_dumps : payload -> option str.

Definition ask (question : str) : http_error + AskResponse :=
  let question := strip question in
  match sql_model question with
  | None => inl InternalError
  | Some answer =>
  match ollama_json json_loads answer with
  | inr e => inl (ModelFailed e)
  | inl (JDict sql_obj) =>
      let sql := default JNull (get "sql" sql_obj) in
      if negb (truthy sql) then inl NoSqlProduced else
      match
        match sql with
        | JStr s => validate_sql MAX_ROWS s
        | _ => Err EmptyOutput
        end
      with
      | Err ValueError => inl InternalError
      | Err e => inl (SqlRejected e)
      | Ok sql =>
      match run_query float isoformat execute sql with
      | inl e =>
          match last e with
          | Some line => inl (QueryFailed line)
          | None => inl InternalError
          end
      | inr (rows, cols) =>
      let stats := summarize_rows rows in
      let stats_jsonable := to_jsonable float isoformat (stats_value stats) in
      match json_dumps (Payload question sql cols rows stats_jsonable) with
      | None => inl SerializationFailed
      | Some insight_payload_json =>
      match insight_model insight_payload_json with
      | None => inl InternalError
      | Some answer' =>
      match ollama_json json_loads answer' with
      | inr e => inl (ModelFailed e)
      | inl (JDict insight_obj) =>
          let tldr := default (JStr []) (get "tldr" insight_obj) in
          let findings := default (JList []) (get "findings" insight_obj) in
          let recs := default (JList []) (get "recommendations" insight_obj) in
          let findings := as_list findings in
          let recs := as_list recs in
          inr {| sql := sql;
                 tldr := py_str tldr;
                 findings := take 8 (map py_str findings);
                 recommendations := take 5 (map py_str recs);
                 row_count := preview_row_count stats;
                 columns := cols |}
      | inl _ => inl InternalError
      end
      end
      end
      end
      end
  | inl _ => inl InternalError
  end
  end.

End Endpoint.

Arguments json : clear implicits.

(** An instance for examples: the model answers every prompt with the same
    object, the database has one column and no row. *)
Definition demo_reply : reply :=
  {| status_code := 200; text := []; response := Some ("{}" : str) |}.

Definition demo_loads (_ : str) : option (json unit) :=
  Some (JDict [ ("sql" : str, JStr "select 1 limit 7");
                ("findings" : str, JStr "one") ]).

Definition demo_cursor : cursor (Decimal := unit) (Float := unit)
  (Date := unit) (Opaque := unit) :=
  {| result_rows := []; description := Some [("n" : str)] |}.

Definition demo_ask
  (execute : str -> db_error + cursor (Decimal := unit) (Float := unit)
                                 (Date := unit) (Opaque := unit))
  (insight_model : str -> option reply) (question : str)
  : http_error + AskResponse :=
  ask (fun _ : unit => tt) (fun _ : unit => []) (fun _ : unit => true)
    (fun _ => ("x" : str)) 2000 demo_loads (fun _ => Some demo_reply)
    insight_model execute (fun _ => Some ("{}" : str)) question.

End Api.

(* ===================================================================== *)
(** ** Direct readings of the validator's patterns *)
(* ===================================================================== *)

(** What each pattern of the validator decides at one position, written
    without the matcher; the properties part proves that [Re.run] computes
    exactly these. *)

Module Scan.
Import Chars Str Re.

(** [run] finds a match at this position. *)
Definition hits (ic : bool) (r : regex) (prev : option ascii) (rest : str)
  : bool :=
  match run ic r prev rest with
  | [] => false
  | _ :: _ => true
  end.

(** [Q] holds at this position or at a later one. *)
Fixpoint anywhere (Q : option ascii -> str -> bool) (prev : option ascii)
  (rest : str) : bool :=
  Q prev rest ||
  match rest with
  | [] => false
  | c :: rest' => anywhere Q (Some c) rest'
  end.

(** [Q] holds at one of the positions of [a], with [z] after [a]. *)
Fixpoint inside (Q : option ascii -> str -> bool) (prev : option ascii)
  (a z : str) : bool :=
  match a with
  | [] => false
  | c :: a' => Q prev (a ++ z) || inside Q (Some c) a' z
  end.

(** The text a literal word matches at the head of [rest]. *)
Fixpoint lit_prefix (ic : bool) (w rest : str) : option str :=
  match w with
  | [] => Some []
  | c :: w' =>
      match rest with
      | x :: rest' =>
          if same ic c x then cons x <$> lit_prefix ic w' rest' else None
      | [] => None
      end
  end.

(** The word [w] is at the head of [rest] and a word boundary follows
    it. *)
Fixpoint word_end (ic : bool) (w : str) (prev : option ascii) (rest : str)
  : bool :=
  match w with
  | [] => boundary prev rest
  | c :: w' =>
      match rest with
      | x :: rest' => same ic c x && word_end ic w' (Some x) rest'
      | [] => false
      end
  end.

(** One of the words [kws] is at the head of [rest] and a word boundary
    follows it. *)
Definition kw_after (ic : bool) (kws : list str) (prev : option ascii)
  (rest : str) : bool :=
  existsb (fun w => word_end ic w prev rest) kws.

(** [\b(w1|...|wn)\b] at this position. *)
Definition kw_here (ic : bool) (kws : list str) (prev : option ascii)
  (rest : str) : bool :=
  boundary prev rest && kw_after ic kws prev rest.

Fixpoint take_while (p : ascii -> bool) (s : str) : str :=
  match s with
  | c :: s' => if p c then c :: take_while p s' else []
  | [] => []
  end.

Fixpoint drop_while (p : ascii -> bool) (s : str) : str :=
  match s with
  | c :: s' => if p c then drop_while p s' else s
  | [] => []
  end.

(** [\blimit\s+(\d+)\b] at this position: the text of the clause and
    its digits. *)
Definition clause_here (ic : bool) (prev : option ascii) (rest : str)
  : option (str * str) :=
  if boundary prev rest then
    match lit_prefix ic "limit" rest with
    | Some l =>
        let after_l := drop (length l) rest in
        let w := take_while is_space after_l in
        let after_w := drop_while is_space after_l in
        let d := take_while is_digit after_w in
        let after_d := drop_while is_digit after_w in
        if nonempty w && nonempty d && negb (wordy (head after_d))
        then Some (l ++ w ++ d, d)
        else None
    | None => None
    end
  else None.

(** The first clause at or after this position. *)
Fixpoint first_clause (prev : option ascii) (rest : str)
  : option (str * str) :=
  match clause_here true prev rest with
  | Some md => Some md
  | None =>
      match rest with
      | [] => None
      | c :: rest' => first_clause (Some c) rest'
      end
  end.

(** [r] is [rest] with every clause replaced by [repl] and every other
    character kept, scanning from a position with [prev] behind. *)
Inductive rewritten (repl : str) : option ascii -> str -> str -> Prop :=
| rw_end prev : rewritten repl prev [] []
| rw_keep prev c rest r :
    clause_here true prev (c :: rest) = None ->
    rewritten repl (Some c) rest r ->
    rewritten repl prev (c :: rest) (c :: r)
| rw_clause prev m d rest r :
    clause_here true prev (m ++ rest) = Some (m, d) ->
    rewritten repl (last_of prev m) rest r ->
    rewritten repl prev (m ++ rest) (repl ++ r).

(** The number of [;]-separated segments with a character that is not
    white space; [seen] tells whether the current segment has one. *)
Fixpoint statements (seen : bool) (s : str) : nat :=
  match s with
  | [] => if seen then 1 else 0
  | c :: s' =>
      if eqb c ";" then (if seen then 1 else 0) + statements false s'
      else statements (seen || negb (is_space c)) s'
  end.

(** The prefix of [s] up to and including its last [c]. *)
Fixpoint upto_last (c : ascii) (s : str) : option str :=
  match s with
  | [] => None
  | x :: s' =>
      match upto_last c s' with
      | Some m => Some (x :: m)
      | None => if eqb x c then Some [x] else None
      end
  end.

(** [\{.*\}] at this position: an opening brace here, through the last
    closing brace after it. *)
Definition span_here (rest : str) : option str :=
  match rest with
  | x :: rest' =>
      if eqb x "{" then cons x <$> upto_last "}" rest' else None
  | [] => None
  end.

(** [\s+] or [(\d+)] or [\d+]: a repetition, grouped or not. *)
Definition repeated (grp : bool) (p : ascii -> bool) : regex :=
  if grp then Group (Plus p) else Plus p.

Definition grouped (grp : bool) (m : str) : option str :=
  if grp then Some m else None.

(** The pattern [\blimit\s+\d+\b], with or without its group. *)
Definition limit_pattern (grp : bool) : regex :=
  Cat WordB (Cat (word "limit")
    (Cat (repeated false is_space) (Cat (repeated grp is_digit) WordB))).

(** [m] is a LIMIT clause with the digits [d], standing between the
    character [prev] and the text [after]: the word [limit], white space,
    digits, with no word character on either side. *)
Inductive clause (ic : bool) (prev : option ascii) (after : str)
  : str -> str -> Prop :=
| clause_intro l w d :
    lit_prefix ic "limit" l = Some l ->
    w <> [] -> Forall (fun c => is_space c = true) w ->
    d <> [] -> Forall (fun c => is_digit c = true) d ->
    wordy prev = false -> wordy (head after) = false ->
    clause ic prev after (l ++ w ++ d) d.

(** What a clause and its replacement [LIMIT n] have in common: the word
    [limit] in some case, then white space, digits or a minus sign, and a
    digit at the end. *)
Definition tail_char (c : ascii) : bool :=
  is_space c || is_digit c || eqb c "-".

Inductive fragment : str -> Prop :=
| fragment_intro l0 l1 l2 l3 l4 t x :
    lower_char l0 = "l"%char -> lower_char l1 = "i"%char ->
    lower_char l2 = "m"%char -> lower_char l3 = "i"%char ->
    lower_char l4 = "t"%char ->
    Forall (fun c => tail_char c = true) t ->
    is_digit x = true ->
    fragment (l0 :: l1 :: l2 :: l3 :: l4 :: t ++ [x]).

(** Text that starts with the letter L in either case. *)
Definition limit_start (z : str) : Prop :=
  exists c z', z = c :: z' /\ lower_char c = "l"%char.

(** A test at a position that the clauses of a text and their replacements
    cannot influence: it does not look past a character that is not a word
    character into a following [limit], it holds nowhere inside a fragment,
    and of the character behind it it uses only whether that is a word
    character. *)
Record clause_blind (Q : option ascii -> str -> bool) : Prop := {
  blind_behind : forall q q' (s : str), wordy q = wordy q' -> Q q s = Q q' s;
  blind_ahead : forall prev (g z z' : str),
    g <> [] -> wordy (last g) = false -> limit_start z -> limit_start z' ->
    Q prev (g ++ z) = Q prev (g ++ z');
  blind_inside : forall prev (f z : str), fragment f -> inside Q prev f z = false
}.

(** The lowered text ahead starts with [p]. *)
Definition lowered_starts (p : str) (prev : option ascii) (s : str) : bool :=
  startswith p (lower s).

(** A clause starts at this position. *)
Definition clause_test (prev : option ascii) (s : str) : bool :=
  match clause_here true prev s with
  | Some _ => true
  | None => false
  end.

(** The tests a trimmed text passes, in the terms of this module. *)
Definition accepted (s : str) : bool :=
  kw_after true ["select" : str; "with" : str] None s
  && negb (anywhere (kw_here true Validator.banned_words) None s)
  && Nat.eqb (statements false s) 1
  && negb (Validator.has_from (lower s) && negb (contains "mart." (lower s)))
  && anywhere (kw_here false ["limit" : str]) None (lower s).

(** What the last step of the validator returns on a trimmed text, when
    it does not raise: when the first clause exceeds the cap, every clause
    is replaced. *)
Definition capped (MAX_ROWS : Z) (s : str) : str :=
  match first_clause None s with
  | Some (_, d) =>
      if (int d >? MAX_ROWS)%Z
      then re_sub true Validator.LIMIT_CLAUSE ("LIMIT " ++ of_int MAX_ROWS) s
      else s
  | None => s
  end.

(** The last step raises: the integer of the first clause is too long for
    [int], or it exceeds the cap and the cap is too long to format. *)
Definition cap_raises (MAX_ROWS : Z) (s : str) : bool :=
  match first_clause None s with
  | Some (_, d) =>
      int_raises d || ((int d >? MAX_ROWS)%Z && of_int_raises MAX_ROWS)
  | None => false
  end.

(** The integers of all the clauses of a text, from left to right. *)
Fixpoint clause_ints (prev : option ascii) (s : str) : list Z :=
  match clause_here true prev s with
  | Some (_, d) => [int d]
  | None => []
  end ++
  match s with
  | [] => []
  | c :: s' => clause_ints (Some c) s'
  end.

(** The specification's wording of the rewriting, first occurrence only:
    [re.sub] with [count=1]. *)
Fixpoint spec_sub_first (repl : str) (prev : option ascii) (s : str) : str :=
  match clause_here true prev s with
  | Some (m, _) => repl ++ drop (length m) s
  | None =>
      match s with
      | [] => []
      | c :: s' => c :: spec_sub_first repl (Some c) s'
      end
  end.

(** Text of white space only. *)
Definition blank (s : str) : Prop := Forall (fun c => is_space c = true) s.

(** Words made of word characters only. *)
Definition wordlike (w : str) : Prop := Forall (fun c => is_word c = true) w.

(** Text without a word character. *)
Definition wordless (b : str) : Prop := Forall (fun c => is_word c = false) b.

(** Words that start with a letter. *)
Definition lettered (w : str) : Prop :=
  match w with
  | c :: _ => is_alpha c = true
  | [] => False
  end.

End Scan.

(* ===================================================================== *)
(** * Properties *)
(* ===================================================================== *)

(** ** Characters *)

Section CharFacts.
Import Chars.

Local Ltac all_chars c :=
  destruct c as [[] [] [] [] [] [] [] []]; vm_compute; try reflexivity;
  try discriminate; try (intros; discriminate); try (intros; reflexivity).

Lemma space_not_word c : is_space c = true -> is_word c = false.
Proof. all_chars c. Qed.

Lemma digit_word c : is_digit c = true -> is_word c = true.
Proof. all_chars c. Qed.

Lemma digit_not_space c : is_digit c = true -> is_space c = false.
Proof. all_chars c. Qed.

Lemma lower_lower c : lower_char (lower_char c) = lower_char c.
Proof. all_chars c. Qed.

Lemma word_lower c : is_word (lower_char c) = is_word c.
Proof. all_chars c. Qed.

Lemma space_lower c : is_space (lower_char c) = is_space c.
Proof. all_chars c. Qed.

Lemma digit_lower c : is_digit (lower_char c) = is_digit c.
Proof. all_chars c. Qed.

Lemma alpha_lower c : is_alpha (lower_char c) = is_alpha c.
Proof. all_chars c. Qed.

Lemma lower_digit c : is_digit c = true -> lower_char c = c.
Proof. all_chars c. Qed.

Lemma alpha_word c : is_alpha c = true -> is_word c = true.
Proof. all_chars c. Qed.

Lemma space_not_alpha c : is_space c = true -> is_alpha c = false.
Proof. all_chars c. Qed.

Lemma digit_not_alpha c : is_digit c = true -> is_alpha c = false.
Proof. all_chars c. Qed.

Lemma eqb_eq a b : eqb a b = true <-> a = b.
Proof. apply Ascii.eqb_eq. Qed.

Lemma eqb_refl a : eqb a a = true.
Proof. apply Ascii.eqb_refl. Qed.

Lemma same_lower ic c x :
  same ic c x = true -> lower_char x = lower_char c.
Proof.
  unfold same. destruct ic; intros H%eqb_eq; congruence.
Qed.

Lemma same_word ic c x : same ic c x = true -> is_word x = is_word c.
Proof.
  intros H%same_lower. rewrite <- (word_lower x), <- (word_lower c).
  congruence.
Qed.

Lemma same_alpha ic c x : same ic c x = true -> is_alpha x = is_alpha c.
Proof.
  intros H%same_lower. rewrite <- (alpha_lower x), <- (alpha_lower c).
  congruence.
Qed.

(** Under [lower], the case-insensitive comparison is the exact one. *)
Lemma same_lowered c x :
  lower_char c = c -> same false c (lower_char x) = same true c x.
Proof. intros Hc. unfold same. rewrite Hc. reflexivity. Qed.

Lemma not_elem_by_eqb (c : ascii) (p : str) :
  forallb (fun a => negb (eqb c a)) p = true -> c ∉ p.
Proof.
  induction p as [ | a p IH ]; cbn [forallb]; [ intros _; apply not_elem_of_nil | ].
  intros [Ha Hp]%andb_true_iff. apply not_elem_of_cons. split; [ | by apply IH ].
  intros ->. by rewrite eqb_refl in Ha.
Qed.

End CharFacts.

(** ** Value coercion *)

Section CoercionFacts.
Import Jsonable.
Context {Decimal Float Date Opaque : Type}.
Variable float : Decimal -> Float.
Variable isoformat : Date -> str.

Abbreviation val := (Jsonable.value Decimal Float Date Opaque).
Abbreviation coerce := (@to_jsonable Decimal Float Date Opaque float isoformat).

Lemma coerce_twice : forall x : val, coerce (coerce x) = coerce x.
Proof.
  fix IH 1.
  intros [ | b | n | s | f | d | d | items | xs | xs | o ]; simpl; try reflexivity.
  - f_equal. induction items as [ | [k v] items IHitems ]; simpl.
    + reflexivity.
    + rewrite IH, IHitems. reflexivity.
  - f_equal. induction xs as [ | v xs IHxs ]; simpl.
    + reflexivity.
    + rewrite IH, IHxs. reflexivity.
  - f_equal. induction xs as [ | v xs IHxs ]; simpl.
    + reflexivity.
    + rewrite IH, IHxs. reflexivity.
Qed.

Lemma coerce_json_safe : forall x : val, json_safe (coerce x) = true.
Proof.
  fix IH 1.
  intros [ | b | n | s | f | d | d | items | xs | xs | o ]; simpl; try reflexivity.
  - induction items as [ | [k v] items IHitems ]; simpl.
    + reflexivity.
    + rewrite IH, IHitems. reflexivity.
  - induction xs as [ | v xs IHxs ]; simpl.
    + reflexivity.
    + rewrite IH, IHxs. reflexivity.
  - induction xs as [ | v xs IHxs ]; simpl.
    + reflexivity.
    + rewrite IH, IHxs. reflexivity.
Qed.

(** C7. [to_jsonable] sends a [Decimal] to its [float] and a date or
    datetime to its ISO-8601 string; in a dict it coerces every value and
    keeps the keys and their order, in a list or tuple it coerces every
    element and keeps their number and order (a tuple comes back as a
    list); it returns every other value as it is; and coercing a coerced
    value changes nothing. *)
Theorem to_jsonable_coercion_idempotent :
  (forall d : Decimal,
      to_jsonable float isoformat (VDecimal d) = (VFloat (float d) : val)) /\
  (forall d : Date,
      to_jsonable float isoformat (VDate d) = (VStr (isoformat d) : val)) /\
  (forall items : list (str * val),
      exists items',
        to_jsonable float isoformat (VDict items) = VDict items' /\
        map fst items' = map fst items /\
        map snd items' = map (to_jsonable float isoformat) (map snd items)) /\
  (forall xs : list val,
      to_jsonable float isoformat (VList xs)
        = VList (map (to_jsonable float isoformat) xs) /\
      to_jsonable float isoformat (VTuple xs)
        = VList (map (to_jsonable float isoformat) xs) /\
      length (map (to_jsonable float isoformat) xs) = length xs) /\
  (forall x : val,
      match x with
      | VDecimal _ | VDate _ | VDict _ | VList _ | VTuple _ => True
      | _ => to_jsonable float isoformat x = x
      end) /\
  (forall x : val,
      to_jsonable float isoformat (to_jsonable float isoformat x)
        = to_jsonable float isoformat x).
Proof.
  split; [ reflexivity | ].
  split; [ reflexivity | ].
  split.
  { intros items. eexists. split; [ reflexivity | ].
    split; induction items as [ | [k v] items IHitems ]; simpl;
      [ reflexivity | rewrite IHitems; reflexivity
      | reflexivity | rewrite IHitems; reflexivity ]. }
  split.
  { intros xs. rewrite length_map. repeat split. }
  split.
  { intros []; simpl; auto. }
  apply coerce_twice.
Qed.

End CoercionFacts.

(** ** The preview summarizer *)

Section SummaryFacts.
Import Jsonable Summary.
Context {Decimal Float Date Opaque : Type}.

Abbreviation vrow := (gmap str (Jsonable.value Decimal Float Date Opaque)).

Implicit Types (r first : vrow) (rows : list vrow) (nulls : gmap str nat).
Implicit Types (c : str) (cols : list str).

(** One pass of the inner loop over the columns. *)
Lemma count_null_cols r cols : forall nulls c,
  NoDup cols ->
  (forall k, k ∈ cols -> is_Some (nulls !! k)) ->
  foldl (count_null r) nulls cols !! c =
    if bool_decide (c ∈ cols) && get_is_None r c
    then S <$> nulls !! c else nulls !! c.
Proof.
  induction cols as [ | k cols IH ]; intros nulls c Hnd Hdef; simpl.
  - reflexivity.
  - apply NoDup_cons in Hnd as [Hk Hnd].
    assert (Hstep : forall j, count_null r nulls k !! j =
               if bool_decide (j = k) && get_is_None r k
               then S <$> nulls !! j else nulls !! j).
    { intros j. unfold count_null. destruct (get_is_None r k) eqn:Hg.
      - case_bool_decide as Hj; simpl.
        + subst j. rewrite lookup_insert_eq.
          destruct (Hdef k) as [n Hn]; [ left | ].
          rewrite Hn. simpl. f_equal. f_equal.
          by apply lookup_total_correct.
        + by rewrite lookup_insert_ne.
      - by rewrite andb_false_r. }
    rewrite IH; [ | done | ].
    + rewrite Hstep. destruct (decide (c = k)) as [ -> | Hne ].
      * rewrite (bool_decide_eq_false_2 (k ∈ cols)) by done.
        rewrite (bool_decide_eq_true_2 (k = k)) by done.
        rewrite (bool_decide_eq_true_2 (k ∈ k :: cols)) by left.
        reflexivity.
      * rewrite (bool_decide_eq_false_2 (c = k)) by done. simpl.
        destruct (decide (c ∈ cols)) as [ Hin | Hin ].
        -- rewrite (bool_decide_eq_true_2 (c ∈ cols)) by done.
           rewrite (bool_decide_eq_true_2 (c ∈ k :: cols)) by (by right).
           reflexivity.
        -- rewrite (bool_decide_eq_false_2 (c ∈ cols)) by done.
           rewrite (bool_decide_eq_false_2 (c ∈ k :: cols)); [ reflexivity | ].
           intros [ | ]%elem_of_cons; done.
    + intros j Hj. rewrite Hstep.
      destruct (Hdef j) as [n Hn]; [ by right | ]. rewrite Hn.
      destruct (_ && _); simpl; eauto.
Qed.

(** The outer loop over the rows. *)
Lemma count_null_rows cols rows : forall nulls c,
  NoDup cols ->
  (forall k, k ∈ cols -> is_Some (nulls !! k)) ->
  foldl (fun nulls r => foldl (count_null r) nulls cols) nulls rows !! c =
    if bool_decide (c ∈ cols)
    then (fun n => n + null_rows c rows) <$> nulls !! c else nulls !! c.
Proof.
  induction rows as [ | r rows IH ]; intros nulls c Hnd Hdef; simpl.
  - destruct (bool_decide _); [ | done ].
    destruct (nulls !! c); simpl; [ f_equal; unfold null_rows; simpl; lia | done ].
  - rewrite IH; [ | done | ].
    + rewrite count_null_cols by done.
      case_bool_decide as Hc; simpl; [ | done ].
      unfold null_rows. rewrite filter_cons.
      destruct (get_is_None r c) eqn:Hg.
      * rewrite decide_True by done. destruct (nulls !! c); simpl; [ | done ].
        f_equal. lia.
      * rewrite decide_False by done. reflexivity.
    + intros k Hk. rewrite count_null_cols by done.
      destruct (Hdef k Hk) as [n ->]. destruct (_ && _); simpl; eauto.
Qed.

(** The null-count mapping of a non-empty preview, key by key. *)
Lemma summarize_rows_lookup first rows c :
  nulls (summarize_rows (first :: rows)) !! c =
    if bool_decide (c ∈ dom first)
    then Some (null_rows c (first :: rows)) else None.
Proof.
  unfold summarize_rows. cbn [nulls].
  rewrite count_null_rows.
  - rewrite lookup_gset_to_gmap.
    case_bool_decide as Hc.
    + apply elem_of_elements in Hc.
      rewrite bool_decide_eq_true_2 by done.
      rewrite option_guard_True by done. reflexivity.
    + rewrite bool_decide_eq_false_2 by (by rewrite <- elem_of_elements).
      rewrite option_guard_False; [ done | by rewrite <- elem_of_elements ].
  - apply NoDup_elements.
  - intros k Hk%elem_of_elements. rewrite lookup_gset_to_gmap.
    rewrite option_guard_True by done. eauto.
Qed.

Lemma null_rows_cons c r rows :
  null_rows c (r :: rows)
    = (if get_is_None r c then 1 else 0) + null_rows c rows.
Proof.
  unfold null_rows. rewrite filter_cons.
  destruct (get_is_None r c).
  - by rewrite decide_True.
  - by rewrite decide_False.
Qed.

Lemma null_rows_app c rows1 rows2 :
  null_rows c (rows1 ++ rows2) = null_rows c rows1 + null_rows c rows2.
Proof. unfold null_rows. by rewrite filter_app, length_app. Qed.

Lemma null_rows_le c rows : null_rows c rows <= length rows.
Proof. unfold null_rows. apply length_filter. Qed.

Lemma get_is_None_fill r c k :
  r !! c = None -> get_is_None (<[c := VNone]> r) k = get_is_None r k.
Proof.
  intros Hc. unfold get_is_None. destruct (decide (c = k)) as [ -> | Hne ].
  - by rewrite lookup_insert_eq, Hc.
  - by rewrite lookup_insert_ne.
Qed.

Lemma get_is_None_present r c :
  c ∈ dom r -> get_is_None r c = holds_None r c.
Proof.
  intros [v Hv]%elem_of_dom. unfold get_is_None, holds_None. by rewrite Hv.
Qed.

Lemma null_rows_uniform c rows :
  Forall (fun r => c ∈ dom r) rows ->
  null_rows c rows = length (filter (fun r => holds_None r c = true) rows).
Proof.
  unfold null_rows. induction 1 as [ | r rows Hr Hrows IH ]; [ reflexivity | ].
  rewrite !filter_cons, <- (get_is_None_present r c Hr).
  destruct (decide (get_is_None r c = true)); simpl; by rewrite IH.
Qed.

(** C8. On no rows the summarizer answers row count 0 and an empty
    null-count mapping.  On a non-empty preview the row count is the number
    of rows and, for each column of the first row, the null count is the
    number of rows whose value for that column is [None] (for rows that all
    have the column; [get] reads a missing column as [None] too). *)
Theorem summarize_rows_counts :
  summarize_rows ([] : list vrow)
    = {| preview_row_count := 0; nulls := ∅ |} /\
  (forall first rows,
      preview_row_count (summarize_rows (first :: rows))
        = length (first :: rows)) /\
  (forall first rows c,
      c ∈ dom first ->
      nulls (summarize_rows (first :: rows)) !! c
        = Some (null_rows c (first :: rows))) /\
  (forall first rows c,
      Forall (fun r => c ∈ dom r) (first :: rows) ->
      nulls (summarize_rows (first :: rows)) !! c
        = Some (length (filter (fun r => holds_None r c = true) (first :: rows)))).
Proof.
  split; [ reflexivity | ]. split; [ reflexivity | ].
  assert (H : forall first rows c,
             c ∈ dom first ->
             nulls (summarize_rows (first :: rows)) !! c
               = Some (null_rows c (first :: rows))).
  { intros first rows c Hc. rewrite summarize_rows_lookup.
    by rewrite bool_decide_eq_true_2. }
  split; [ exact H | ].
  intros first rows c Hall. rewrite <- null_rows_uniform by done.
  apply H. by apply Forall_cons in Hall as [? _].
Qed.

(** The null count of a column of the first row, with and without one of
    the later rows. *)
Lemma summarize_rows_without first before r after c :
  c ∈ dom first ->
  exists n,
    nulls (summarize_rows (first :: before ++ after)) !! c = Some n /\
    nulls (summarize_rows (first :: before ++ r :: after)) !! c
      = Some (if get_is_None r c then S n else n).
Proof.
  intros Hc. exists (null_rows c (first :: before ++ after)).
  rewrite !summarize_rows_lookup, !bool_decide_eq_true_2 by done.
  split; [ done | ]. f_equal.
  rewrite !null_rows_cons, !null_rows_app, null_rows_cons.
  destruct (get_is_None r c); lia.
Qed.

(** C10. On a non-empty preview the keys of the null-count mapping are the
    columns of the first row, and every null count is at most the reported
    row count.  A later row that lacks a column of the first row gives the
    same summary as that row with the column set to [None], and either
    way the summary counts one more null in that column than the summary
    of the preview without the row; a row that has a value other than
    [None] there adds nothing to that count. *)
Theorem summarize_rows_invariant first rows :
  dom (nulls (summarize_rows (first :: rows))) = dom first /\
  (forall c n,
      nulls (summarize_rows (first :: rows)) !! c = Some n ->
      0 <= n <= preview_row_count (summarize_rows (first :: rows))) /\
  (forall before r after c,
      rows = before ++ r :: after ->
      c ∈ dom first ->
      r !! c = None ->
      summarize_rows (first :: before ++ <[c := VNone]> r :: after)
        = summarize_rows (first :: rows) /\
      exists n,
        nulls (summarize_rows (first :: before ++ after)) !! c = Some n /\
        nulls (summarize_rows (first :: rows)) !! c = Some (S n) /\
        nulls (summarize_rows (first :: before ++ <[c := VNone]> r :: after))
          !! c = Some (S n)) /\
  (forall before r after c v,
      rows = before ++ r :: after ->
      c ∈ dom first ->
      r !! c = Some v -> v <> VNone ->
      nulls (summarize_rows (first :: rows)) !! c
        = nulls (summarize_rows (first :: before ++ after)) !! c).
Proof.
  split; [ | split; [ | split ] ].
  - apply set_eq. intros c. rewrite elem_of_dom, summarize_rows_lookup.
    case_bool_decide as Hc; split; intros H; try done.
  - intros c n. rewrite summarize_rows_lookup.
    case_bool_decide; [ | done ]. intros [= <-]. split; [ lia | ].
    apply null_rows_le.
  - intros before r after c -> Hc Hr.
    assert (Hcount : forall k,
               null_rows k (first :: before ++ <[c := VNone]> r :: after)
               = null_rows k (first :: before ++ r :: after)).
    { intros k.
      rewrite !null_rows_cons, !null_rows_app, !null_rows_cons.
      by rewrite (get_is_None_fill r c k Hr). }
    assert (Hsame : summarize_rows (first :: before ++ <[c := VNone]> r :: after)
                    = summarize_rows (first :: before ++ r :: after)).
    { assert (Hn : nulls (summarize_rows (first :: before ++ <[c := VNone]> r :: after))
                   = nulls (summarize_rows (first :: before ++ r :: after))).
      { apply map_eq. intros k. rewrite !summarize_rows_lookup.
        by rewrite Hcount. }
      unfold summarize_rows in *. cbn [nulls] in Hn. rewrite Hn.
      f_equal. simpl. rewrite !length_app. reflexivity. }
    split; [ exact Hsame | ].
    destruct (summarize_rows_without first before r after c Hc) as (n & H0 & H1).
    assert (Hg : get_is_None r c = true) by (unfold get_is_None; by rewrite Hr).
    rewrite Hg in H1. exists n. by rewrite Hsame.
  - intros before r after c v -> Hc Hr Hv.
    destruct (summarize_rows_without first before r after c Hc) as (n & H0 & H1).
    assert (Hg : get_is_None r c = false)
      by (unfold get_is_None; rewrite Hr; by destruct v).
    rewrite Hg in H1. by rewrite H0, H1.
Qed.

End SummaryFacts.

Lemma summarize_rows_counts_witness :
  ("price" : str) ∈ dom (Summary.priced 1 (Jsonable.VInt 100)) /\
  Summary.nulls (Summary.summarize_rows Summary.five_rows) !! ("price" : str) = Some 2.
Proof.
  assert (H : ("price" : str) ∈ dom (Summary.priced 1 (Jsonable.VInt 100))).
  { apply elem_of_dom. eexists. apply lookup_insert_eq. }
  split; [ exact H | ].
  exact (proj1 (proj2 (proj2 summarize_rows_counts))
           (Summary.priced 1 (Jsonable.VInt 100)) (tail Summary.five_rows) "price" H).
Defined.

Lemma summarize_rows_invariant_witness :
  Summary.summarize_rows
    [ Summary.priced 1 (Jsonable.VInt 100);
      <[("price" : str) := Jsonable.VNone]> (<[("id" : str) := Jsonable.VInt 2]> ∅) ]
  = Summary.summarize_rows
      [ Summary.priced 1 (Jsonable.VInt 100); <[("id" : str) := Jsonable.VInt 2]> ∅ ] /\
  exists n,
    Summary.nulls (Summary.summarize_rows [ Summary.priced 1 (Jsonable.VInt 100) ])
      !! ("price" : str) = Some n /\
    Summary.nulls
      (Summary.summarize_rows
         [ Summary.priced 1 (Jsonable.VInt 100);
           <[("id" : str) := Jsonable.VInt 2]> ∅ ])
      !! ("price" : str) = Some (S n) /\
    Summary.nulls
      (Summary.summarize_rows
         [ Summary.priced 1 (Jsonable.VInt 100);
           <[("price" : str) := Jsonable.VNone]>
             (<[("id" : str) := Jsonable.VInt 2]> ∅) ])
      !! ("price" : str) = Some (S n).
Proof.
  refine (proj1 (proj2 (proj2 (summarize_rows_invariant
            (Summary.priced 1 (Jsonable.VInt 100))
            [ <[("id" : str) := Jsonable.VInt 2]> ∅ ])))
          [] (<[("id" : str) := Jsonable.VInt 2]> ∅) [] "price" eq_refl _ _).
  - apply elem_of_dom. eexists. apply lookup_insert_eq.
  - reflexivity.
Defined.

(** ** The matcher on the validator's patterns *)

Section ReFacts.
Import Chars Str Re Scan.

Implicit Types (prev : option ascii) (rest m w g z : str) (h : hit).

Lemma last_of_cons prev x m : last_of prev (x :: m) = last_of (Some x) m.
Proof.
  unfold last_of. destruct m as [ | y m ]; [ reflexivity | ].
  rewrite last_cons_cons. destruct (last (y :: m)) eqn:E; [ reflexivity | ].
  apply last_None in E. discriminate.
Qed.

Lemma last_of_app prev a b :
  last_of prev (a ++ b) = last_of (last_of prev a) b.
Proof.
  revert prev. induction a as [ | x a IH ]; intros prev; [ reflexivity | ].
  simpl. rewrite !last_of_cons. apply IH.
Qed.

Lemma last_of_snoc prev a x : last_of prev (a ++ [x]) = Some x.
Proof. rewrite last_of_app. reflexivity. Qed.

Lemma wordy_last_of_cons prev x m :
  wordy (last_of prev (x :: m)) = wordy (last_of (Some x) m).
Proof. by rewrite last_of_cons. Qed.

Lemma seq_hit_nil_l h : seq_hit ([], None) h = h.
Proof. destruct h as [m [g | ]]; reflexivity. Qed.

Lemma seq_hit_nil_r h : seq_hit h ([], None) = h.
Proof. destruct h as [m g]. unfold seq_hit. simpl. by rewrite app_nil_r. Qed.

Lemma flat_map_singleton {A B} (f : A -> list B) (a : A) :
  flat_map f [a] = f a.
Proof. simpl. apply app_nil_r. Qed.

Lemma flat_map_of_map {A B C} (f : B -> list C) (g : A -> B) (l : list A) :
  flat_map f (map g l) = flat_map (fun a => f (g a)) l.
Proof. induction l as [ | a l IH ]; simpl; [ done | by rewrite IH ]. Qed.

Lemma flat_map_nil {A B} (f : A -> list B) (l : list A) :
  (forall a, a ∈ l -> f a = []) -> flat_map f l = [].
Proof.
  induction l as [ | a l IH ]; intros H; simpl; [ done | ].
  rewrite (H a) by left. apply IH. intros b Hb. apply H. by right.
Qed.

(** *** Literal words *)

Lemma lit_prefix_split ic w rest m :
  lit_prefix ic w rest = Some m ->
  rest = m ++ drop (length m) rest /\ length m = length w.
Proof.
  revert rest m. induction w as [ | c w IH ]; intros rest m; simpl.
  - intros [= <-]. by rewrite drop_0.
  - destruct rest as [ | x rest ]; [ done | ].
    destruct (same ic c x); [ | done ].
    destruct (lit_prefix ic w rest) as [ m' | ] eqn:E; [ | done ].
    intros [= <-]. destruct (IH _ _ E) as [H1 H2]. simpl.
    split; [ by rewrite <- H1 | by rewrite H2 ].
Qed.

Lemma run_word ic w prev rest :
  run ic (word w) prev rest =
    match lit_prefix ic w rest with
    | Some m => [(m, None)]
    | None => []
    end.
Proof.
  revert prev rest. induction w as [ | c w IH ]; intros prev rest.
  - reflexivity.
  - change (word (c :: w)) with (Cat (Lit c) (word w)).
    cbn [run lit_prefix]. destruct rest as [ | x rest ]; [ reflexivity | ].
    destruct (same ic c x); [ | reflexivity ].
    rewrite flat_map_singleton. cbn [fst length]. rewrite IH.
    change (drop 1 (x :: rest)) with rest.
    destruct (lit_prefix ic w rest); reflexivity.
Qed.

Lemma run_words ic ws prev rest :
  ws <> [] ->
  run ic (words ws) prev rest =
    omap (fun w => (fun m => (m, None)) <$> lit_prefix ic w rest) ws.
Proof.
  induction ws as [ | w ws IH ]; intros Hne; [ done | ].
  destruct ws as [ | w' ws ].
  - cbn [words omap list_omap]. rewrite run_word.
    destruct (lit_prefix ic w rest); reflexivity.
  - change (words (w :: w' :: ws)) with (Alt (word w) (words (w' :: ws))).
    cbn [run]. rewrite run_word, IH by done.
    cbn [omap list_omap].
    destruct (lit_prefix ic w rest); reflexivity.
Qed.

(** *** Patterns between two word boundaries *)

Lemma run_wordb_cat ic r prev rest :
  run ic (Cat WordB r) prev rest =
    if boundary prev rest then run ic r prev rest else [].
Proof.
  cbn [run]. destruct (boundary prev rest); [ | reflexivity ].
  rewrite flat_map_singleton. cbn [fst length]. rewrite drop_0.
  unfold last_of. cbn [last].
  rewrite (map_ext _ id); [ apply map_id | apply seq_hit_nil_l ].
Qed.

Lemma run_start_cat ic r prev rest :
  run ic (Cat Start r) prev rest =
    match prev with None => run ic r None rest | Some _ => [] end.
Proof.
  cbn [run]. destruct prev; [ reflexivity | ].
  rewrite flat_map_singleton. cbn [fst length]. rewrite drop_0.
  unfold last_of. cbn [last].
  rewrite (map_ext _ id); [ apply map_id | apply seq_hit_nil_l ].
Qed.

Lemma run_cat_wordb ic r prev rest :
  run ic (Cat r WordB) prev rest =
    filter (fun h => boundary (last_of prev h.1) (drop (length h.1) rest) = true)
      (run ic r prev rest).
Proof.
  cbn [run]. induction (run ic r prev rest) as [ | h hs IH ]; [ reflexivity | ].
  cbn [flat_map]. rewrite IH, filter_cons.
  destruct (boundary (last_of prev h.1) (drop (length h.1) rest)).
  - rewrite decide_True by done. simpl. by rewrite seq_hit_nil_r.
  - rewrite decide_False by done. reflexivity.
Qed.

Lemma lit_prefix_word_end ic w prev rest :
  match lit_prefix ic w rest with
  | Some m => boundary (last_of prev m) (drop (length m) rest)
  | None => false
  end = word_end ic w prev rest.
Proof.
  revert prev rest. induction w as [ | c w IH ]; intros prev rest; simpl.
  - reflexivity.
  - destruct rest as [ | x rest ]; [ reflexivity | ].
    destruct (same ic c x); [ | reflexivity ]. cbn [andb].
    rewrite <- IH. destruct (lit_prefix ic w rest) as [ m | ]; [ | reflexivity ].
    simpl. by rewrite last_of_cons.
Qed.

Lemma filter_boundary_words ic kws prev rest (g : str -> option str) :
  match
    filter (fun h : hit => boundary (last_of prev h.1) (drop (length h.1) rest) = true)
      (map (fun h : hit => (h.1, g h.1))
         (omap (fun w => (fun m => (m, None)) <$> lit_prefix ic w rest) kws))
  with
  | [] => false
  | _ :: _ => true
  end = kw_after ic kws prev rest.
Proof.
  unfold kw_after.
  induction kws as [ | w kws IH ]; [ reflexivity | ].
  cbn [omap list_omap existsb]. rewrite <- lit_prefix_word_end.
  destruct (lit_prefix ic w rest) as [ m | ]; simpl; [ | exact IH ].
  rewrite filter_cons. simpl.
  destruct (boundary (last_of prev m) (drop (length m) rest)).
  - rewrite decide_True by done. reflexivity.
  - rewrite decide_False by done. exact IH.
Qed.

Lemma hits_keywords ic kws prev rest :
  kws <> [] ->
  hits ic (Cat WordB (Cat (Group (words kws)) WordB)) prev rest
    = kw_here ic kws prev rest.
Proof.
  intros Hne. unfold hits, kw_here. rewrite run_wordb_cat.
  destruct (boundary prev rest); [ | reflexivity ]. cbn [andb].
  rewrite run_cat_wordb. cbn [run]. rewrite run_words by done.
  apply (filter_boundary_words ic kws prev rest Some).
Qed.

Lemma hits_limit_word prev rest :
  hits false Validator.LIMIT_WORD prev rest
    = kw_here false ["limit" : str] prev rest.
Proof.
  unfold hits, kw_here, Validator.LIMIT_WORD. rewrite run_wordb_cat.
  destruct (boundary prev rest); [ | reflexivity ]. cbn [andb].
  rewrite run_cat_wordb, run_word. unfold kw_after. cbn [existsb].
  rewrite <- lit_prefix_word_end.
  destruct (lit_prefix false _ rest) as [ m | ]; simpl; [ | reflexivity ].
  rewrite filter_cons. simpl.
  destruct (boundary (last_of prev m) (drop (length m) rest)).
  - rewrite decide_True by done. reflexivity.
  - rewrite decide_False by done. reflexivity.
Qed.

Lemma hits_read_query rest :
  hits true Validator.READ_QUERY None rest
    = kw_after true ["select" : str; "with" : str] None rest.
Proof.
  unfold hits, Validator.READ_QUERY. rewrite run_start_cat.
  rewrite run_cat_wordb. cbn [run]. rewrite run_words by done.
  apply (filter_boundary_words true _ None rest Some).
Qed.

(** *** Searching *)

Lemma search_hits ic r prev rest :
  bool_decide (is_Some (search_from ic r prev rest))
    = anywhere (hits ic r) prev rest.
Proof.
  revert prev. induction rest as [ | c rest IH ]; intros prev;
    cbn [search_from anywhere]; unfold hits at 1;
    destruct (run ic r prev _) as [ | h hs ]; cbn [orb].
  - apply bool_decide_eq_false_2. by intros [? ?].
  - apply bool_decide_eq_true_2. eauto.
  - apply IH.
  - apply bool_decide_eq_true_2. eauto.
Qed.

Lemma anywhere_ext Q Q' prev rest :
  (forall p s, Q p s = Q' p s) ->
  anywhere Q prev rest = anywhere Q' prev rest.
Proof.
  intros H. revert prev. induction rest as [ | c rest IH ]; intros prev; simpl.
  - by rewrite H.
  - by rewrite H, IH.
Qed.

Lemma contains_anywhere p s prev :
  contains p s = anywhere (fun _ s' => startswith p s') prev s.
Proof.
  revert prev. induction s as [ | c s IH ]; intros prev; simpl.
  - reflexivity.
  - by rewrite <- IH.
Qed.

End ReFacts.

(** ** The validator: the read-query and schema tests *)

Section ValidatorChecks.
Import Chars Str Re Scan Validator.

Implicit Types (sql s : str) (MAX_ROWS : Z).

Lemma read_prefix_none s :
  re_match true spec_READ_PREFIX s = None ->
  re_match true READ_QUERY s = None.
Proof.
  unfold re_match, spec_READ_PREFIX, READ_QUERY.
  rewrite !run_start_cat, run_cat_wordb.
  destruct (run true (Group _) None s) as [ | h hs ]; [ done | discriminate ].
Qed.

Lemma read_query_hits s :
  bool_decide (is_Some (re_match true READ_QUERY s))
    = kw_after true ["select" : str; "with" : str] None s.
Proof.
  rewrite <- hits_read_query. unfold re_match, hits.
  destruct (run true READ_QUERY None s); reflexivity.
Qed.

(** C5 (amended for the empty string). A candidate that is not the empty
    string and, once trimmed, does not start with SELECT or WITH in either
    case is rejected with [NotAReadQuery]; the empty string is rejected
    with [EmptyOutput]. *)
Theorem validate_sql_not_a_read_query MAX_ROWS :
  (forall sql,
      nonempty sql = true ->
      re_match true spec_READ_PREFIX (strip sql) = None ->
      validate_sql MAX_ROWS sql = Err NotAReadQuery) /\
  validate_sql MAX_ROWS "" = Err EmptyOutput.
Proof.
  split; [ | reflexivity ].
  intros sql Hne Hno. unfold validate_sql. rewrite Hne. cbn [negb].
  rewrite (read_prefix_none _ Hno).
  rewrite bool_decide_eq_false_2 by (by intros [? ?]). reflexivity.
Qed.

(** C5 as stated fails on the empty string: it does not start with SELECT
    or WITH, and the validator answers [EmptyOutput]. *)
Lemma validate_sql_empty_is_not_NotAReadQuery :
  re_match true spec_READ_PREFIX (strip "") = None /\
  validate_sql 2000 "" <> Err NotAReadQuery.
Proof. split; [ reflexivity | discriminate ]. Qed.

Lemma validate_sql_not_a_read_query_witness :
  nonempty ("DROP TABLE x" : str) = true /\
  re_match true spec_READ_PREFIX (strip "DROP TABLE x") = None /\
  validate_sql 2000 "DROP TABLE x" = Err NotAReadQuery.
Proof.
  split; [ reflexivity | split; [ reflexivity | ] ].
  apply (proj1 (validate_sql_not_a_read_query 2000)); reflexivity.
Defined.

(** C4 (amended). The schema test fires exactly on a candidate that passed
    the earlier tests, whose lowered trimmed text contains [from] between
    a space, newline or tab before it and a space after it, and does not
    contain [mart.]; so a text with none of these three substrings is
    never rejected with [SchemaNotAllowed]. *)
Theorem validate_sql_schema_check MAX_ROWS :
  (forall sql,
      validate_sql MAX_ROWS sql = Err SchemaNotAllowed <->
      nonempty sql = true /\
      is_Some (re_match true READ_QUERY (strip sql)) /\
      re_search true BANNED (strip sql) = None /\
      _single_statement (strip sql) = true /\
      (contains " from " (lower (strip sql)) = true \/
       contains (nl :: "from ") (lower (strip sql)) = true \/
       contains (tab :: "from ") (lower (strip sql)) = true) /\
      contains "mart." (lower (strip sql)) = false) /\
  validate_sql MAX_ROWS "SELECT * FROM raw.some_table LIMIT 10"
    = Err SchemaNotAllowed.
Proof.
  split; [ | reflexivity ].
  intros sql. unfold validate_sql.
  destruct (nonempty sql); cbn [negb];
    [ | split; [ discriminate | intros [? _]; discriminate ] ].
  destruct (decide (is_Some (re_match true READ_QUERY (strip sql)))) as [ Hr | Hr ].
  2:{ rewrite bool_decide_eq_false_2 by done. cbn [negb].
      split; [ discriminate | intros (_ & ? & _); done ]. }
  rewrite bool_decide_eq_true_2 by done. cbn [negb].
  destruct (re_search true BANNED (strip sql)) as [ hb | ] eqn:Hb.
  { rewrite bool_decide_eq_true_2 by eauto.
    split; [ discriminate | intros (_ & _ & ? & _); done ]. }
  rewrite bool_decide_eq_false_2 by (by intros [? ?]).
  destruct (_single_statement (strip sql)); cbn [negb];
    [ | split; [ discriminate | intros (_ & _ & _ & ? & _); done ] ].
  unfold has_from.
  destruct (contains " from " _) eqn:H1, (contains (nl :: "from ") _) eqn:H2,
    (contains (tab :: "from ") _) eqn:H3, (contains "mart." _) eqn:H4;
    cbn [orb andb negb];
    try (split; [ intros _; repeat split; auto | reflexivity ]);
    try (split; [ | intros (_ & _ & _ & _ & _ & ?); done ]);
    try (split; [ | intros (_ & _ & _ & _ & [ ? | [ ? | ? ] ] & _); done ]);
    destruct (bool_decide (_ = None));
    try (destruct (of_int_raises MAX_ROWS); discriminate);
    destruct (re_search false LIMIT_INT _) as [ m | ]; try discriminate;
    destruct (int_raises _); try discriminate;
    destruct (_ >? _)%Z; try discriminate;
    destruct (of_int_raises MAX_ROWS); discriminate.
Qed.

(** C4 as stated fails: a FROM that a newline follows is a [from] token
    after white space, the text has no [mart.], and the validator accepts
    it; and a candidate that fails an earlier test is rejected with that
    test's error. *)
Lemma validate_sql_from_newline_accepted :
  let sql : str := "SELECT * FROM" ++ nl :: "raw.some_table LIMIT 10" in
  let sql' : str := "SELECT * FROM raw.t; DROP TABLE raw.t" in
  (spec_from_token (lower (strip sql)) = true /\
   contains "mart." (lower (strip sql)) = false /\
   validate_sql 2000 sql = Ok sql) /\
  (spec_from_token (lower (strip sql')) = true /\
   contains "mart." (lower (strip sql')) = false /\
   validate_sql 2000 sql' = Err ForbiddenKeyword).
Proof. vm_compute. repeat split. Qed.

Lemma validate_sql_schema_check_witness :
  validate_sql 2000 "select a from raw.t limit 1" = Err SchemaNotAllowed.
Proof.
  apply (proj1 (validate_sql_schema_check 2000)).
  vm_compute. repeat split; eauto.
Defined.

End ValidatorChecks.

(** ** Trimming *)

Section StripFacts.
Import Chars Str Re Scan.

Implicit Types (s a b : str).

Lemma lstrip_split s : exists a, s = a ++ lstrip s /\ blank a.
Proof.
  induction s as [ | c s (a & Hs & Ha) ]; simpl.
  - exists []. split; [ done | constructor ].
  - destruct (is_space c) eqn:Hc.
    + exists (c :: a). split; [ by rewrite <- app_comm_cons, <- Hs | ].
      by constructor.
    + exists []. split; [ done | constructor ].
Qed.

Lemma lstrip_head s c : head (lstrip s) = Some c -> is_space c = false.
Proof.
  induction s as [ | x s IH ]; simpl; [ done | ].
  destruct (is_space x) eqn:Hx; [ exact IH | ]. simpl. congruence.
Qed.

Lemma lstrip_fix s :
  (forall c, head s = Some c -> is_space c = false) -> lstrip s = s.
Proof.
  destruct s as [ | x s ]; simpl; [ done | ].
  intros H. by rewrite (H x).
Qed.

Lemma rstrip_split s : exists b, s = rstrip s ++ b /\ blank b.
Proof.
  unfold rstrip. destruct (lstrip_split (reverse s)) as (a & Hs & Ha).
  exists (reverse a). split; [ | by apply Forall_reverse ].
  rewrite <- reverse_app, <- Hs. by rewrite reverse_involutive.
Qed.

Lemma rstrip_last s c : last (rstrip s) = Some c -> is_space c = false.
Proof. unfold rstrip. rewrite last_reverse. apply lstrip_head. Qed.

Lemma rstrip_fix s :
  (forall c, last s = Some c -> is_space c = false) -> rstrip s = s.
Proof.
  intros H. unfold rstrip. rewrite lstrip_fix.
  - apply reverse_involutive.
  - intros c. rewrite head_reverse. apply H.
Qed.

Lemma strip_split s : exists a b, s = a ++ strip s ++ b /\ blank a /\ blank b.
Proof.
  unfold strip. destruct (lstrip_split s) as (a & Hs & Ha).
  destruct (rstrip_split (lstrip s)) as (b & Hl & Hb).
  exists a, b. split; [ | done ]. by rewrite <- Hl.
Qed.

Lemma strip_last s c : last (strip s) = Some c -> is_space c = false.
Proof. apply rstrip_last. Qed.

Lemma strip_head s c : head (strip s) = Some c -> is_space c = false.
Proof.
  unfold strip. destruct (rstrip_split (lstrip s)) as (b & Hl & Hb).
  intros Hh. apply (lstrip_head s). rewrite Hl.
  destruct (rstrip (lstrip s)); [ done | exact Hh ].
Qed.

Lemma strip_fix s :
  (forall c, head s = Some c -> is_space c = false) ->
  (forall c, last s = Some c -> is_space c = false) ->
  strip s = s.
Proof.
  intros Hh Hl. unfold strip. rewrite (lstrip_fix s Hh). by apply rstrip_fix.
Qed.

Lemma strip_strip s : strip (strip s) = strip s.
Proof. apply strip_fix; [ apply strip_head | apply strip_last ]. Qed.

Lemma lower_app a b : lower (a ++ b) = lower a ++ lower b.
Proof. apply map_app. Qed.

End StripFacts.

(** ** Keywords and positions *)

Section KeywordFacts.
Import Chars Str Re Scan.

Implicit Types (prev p : option ascii) (rest w g z a b s : str).
Implicit Types (Q : option ascii -> str -> bool).

Lemma anywhere_app Q prev a z :
  anywhere Q prev (a ++ z)
    = inside Q prev a z || anywhere Q (last_of prev a) z.
Proof.
  revert prev. induction a as [ | c a IH ]; intros prev.
  - reflexivity.
  - cbn [app anywhere inside]. rewrite IH, last_of_cons.
    by rewrite orb_assoc.
Qed.

Lemma inside_app Q prev a b z :
  inside Q prev (a ++ b) z
    = inside Q prev a (b ++ z) || inside Q (last_of prev a) b z.
Proof.
  revert prev. induction a as [ | c a IH ]; intros prev.
  - reflexivity.
  - cbn [app inside]. rewrite IH, last_of_cons, <- app_assoc.
    by rewrite orb_assoc.
Qed.

Lemma inside_false Q prev a z :
  (forall p x a', Q p (x :: a' ++ z) = false) -> inside Q prev a z = false.
Proof.
  intros H. revert prev. induction a as [ | c a IH ]; intros prev;
    [ reflexivity | ].
  cbn [inside]. cbn [app]. by rewrite H, IH.
Qed.

Lemma boundary_wordy p p' rest :
  wordy p = wordy p' -> boundary p rest = boundary p' rest.
Proof. unfold boundary. by intros ->. Qed.

Lemma boundary_app prev x g z : boundary prev ((x :: g) ++ z) = boundary prev (x :: g).
Proof. reflexivity. Qed.

Lemma word_end_wordy ic w p p' rest :
  wordy p = wordy p' -> word_end ic w p rest = word_end ic w p' rest.
Proof.
  destruct w as [ | c w ]; simpl; [ apply boundary_wordy | reflexivity ].
Qed.

Lemma kw_here_wordy ic kws p p' rest :
  wordy p = wordy p' -> kw_here ic kws p rest = kw_here ic kws p' rest.
Proof.
  intros H. unfold kw_here, kw_after. rewrite (boundary_wordy _ _ _ H).
  f_equal. induction kws as [ | w kws IH ]; [ reflexivity | ].
  simpl. by rewrite IH, (word_end_wordy _ _ _ _ _ H).
Qed.

Lemma anywhere_wordy Q p p' rest :
  (forall q q' s, wordy q = wordy q' -> Q q s = Q q' s) ->
  wordy p = wordy p' -> anywhere Q p rest = anywhere Q p' rest.
Proof.
  intros HQ H. destruct rest as [ | c rest ]; simpl; by rewrite (HQ _ _ _ H).
Qed.

(** A keyword cannot run over characters that are not word characters:
    what follows a text that ends in one does not matter. *)
Lemma word_end_barrier ic w : forall prev g z z',
  wordlike w -> g <> [] -> wordy (last g) = false ->
  word_end ic w prev (g ++ z) = word_end ic w prev (g ++ z').
Proof.
  induction w as [ | c w IH ]; intros prev g z z' Hw Hg Hl.
  - destruct g; [ done | reflexivity ].
  - destruct g as [ | x g ]; [ done | ]. cbn [app word_end].
    apply Forall_cons in Hw as [Hc Hw].
    destruct (same ic c x) eqn:Hs; [ | reflexivity ]. cbn [andb].
    apply same_word in Hs. rewrite Hc in Hs.
    destruct g as [ | y g ].
    + simpl in Hl. congruence.
    + apply IH; [ done | done | ]. by rewrite last_cons_cons in Hl.
Qed.

Lemma kw_here_barrier ic kws prev g z z' :
  Forall wordlike kws -> g <> [] -> wordy (last g) = false ->
  kw_here ic kws prev (g ++ z) = kw_here ic kws prev (g ++ z').
Proof.
  intros Hk Hg Hl. unfold kw_here, kw_after. f_equal.
  - destruct g; [ done | reflexivity ].
  - induction Hk as [ | w kws Hw Hk IH ]; [ reflexivity | ].
    simpl. by rewrite IH, (word_end_barrier ic w prev g z z').
Qed.

Lemma kw_after_barrier ic kws prev g z z' :
  Forall wordlike kws -> g <> [] -> wordy (last g) = false ->
  kw_after ic kws prev (g ++ z) = kw_after ic kws prev (g ++ z').
Proof.
  intros Hk Hg Hl. unfold kw_after.
  induction Hk as [ | w kws Hw Hk IH ]; [ reflexivity | ].
  simpl. by rewrite IH, (word_end_barrier ic w prev g z z').
Qed.

Lemma wordless_head b : wordless b -> wordy (head b) = false.
Proof. intros H. destruct H as [ | c b' Hc Hb ]; [ reflexivity | exact Hc ]. Qed.

Lemma blank_wordless b : blank b -> wordless b.
Proof. intros H. eapply Forall_impl; [ exact H | ]. apply space_not_word. Qed.

(** Text that has no word character, after the end of [s], changes no
    keyword test inside [s]. *)
Lemma word_end_trailing ic w : forall prev s b,
  wordlike w -> wordless b ->
  word_end ic w prev (s ++ b) = word_end ic w prev s.
Proof.
  induction w as [ | c w IH ]; intros prev s b Hw Hb.
  - cbn [word_end]. destruct s as [ | x s ]; [ | reflexivity ].
    unfold boundary. cbn [app]. by rewrite (wordless_head b Hb).
  - apply Forall_cons in Hw as [Hc Hw]. cbn [word_end].
    destruct s as [ | x s ]; cbn [app].
    + destruct b as [ | y b ]; [ reflexivity | ].
      apply Forall_cons in Hb as [Hy Hb]. cbn [app].
      destruct (same ic c y) eqn:Hs; [ | reflexivity ].
      apply same_word in Hs. congruence.
    + destruct (same ic c x); [ | reflexivity ]. cbn [andb]. by apply IH.
Qed.

Lemma kw_here_trailing ic kws prev x s b :
  Forall wordlike kws -> wordless b ->
  kw_here ic kws prev ((x :: s) ++ b) = kw_here ic kws prev (x :: s).
Proof.
  intros Hk Hb. unfold kw_here, kw_after. f_equal.
  induction Hk as [ | w kws Hw Hk IH ]; [ reflexivity | ].
  cbn [existsb]. by rewrite IH, (word_end_trailing ic w prev (x :: s) b).
Qed.

Lemma word_end_not_alpha ic w prev x rest :
  lettered w -> is_alpha x = false -> word_end ic w prev (x :: rest) = false.
Proof.
  destruct w as [ | c w ]; [ done | ]. simpl. intros Hc Hx.
  destruct (same ic c x) eqn:Hs; [ | reflexivity ].
  apply same_alpha in Hs. congruence.
Qed.

Lemma kw_after_not_alpha ic kws prev x rest :
  Forall lettered kws -> is_alpha x = false ->
  kw_after ic kws prev (x :: rest) = false.
Proof.
  intros Hk Hx. unfold kw_after.
  induction Hk as [ | w kws Hw Hk IH ]; [ reflexivity | ].
  cbn [existsb]. by rewrite IH, word_end_not_alpha.
Qed.

Lemma kw_here_not_alpha ic kws prev x rest :
  Forall lettered kws -> is_alpha x = false ->
  kw_here ic kws prev (x :: rest) = false.
Proof.
  intros Hk Hx. unfold kw_here. rewrite kw_after_not_alpha by done.
  apply andb_false_r.
Qed.

Lemma kw_here_end ic kws prev :
  Forall lettered kws -> kw_here ic kws prev [] = false.
Proof.
  intros Hk. unfold kw_here, kw_after.
  induction Hk as [ | w kws Hw Hk IH ]; [ apply andb_false_r | ].
  cbn [existsb]. destruct w; [ done | ]. exact IH.
Qed.

End KeywordFacts.

(** ** The validator: banned keywords *)

Section BannedFacts.
Import Chars Str Re Scan Validator.

Implicit Types (sql s a b z : str) (MAX_ROWS : Z) (prev : option ascii).

Lemma banned_wordlike : Forall wordlike banned_words.
Proof. repeat constructor. Qed.

Lemma banned_lettered : Forall lettered banned_words.
Proof. repeat constructor. Qed.

Lemma banned_search s :
  bool_decide (is_Some (re_search true BANNED s))
    = anywhere (kw_here true banned_words) None s.
Proof.
  unfold re_search. rewrite search_hits. apply anywhere_ext.
  intros p r. by apply hits_keywords.
Qed.

Lemma blank_last_wordy prev a :
  blank a -> wordy prev = false -> wordy (last_of prev a) = false.
Proof.
  intros Ha Hp. induction a as [ | x a _ ] using rev_ind; [ exact Hp | ].
  rewrite last_of_snoc. unfold blank in Ha.
  rewrite Forall_app, Forall_singleton in Ha. destruct Ha as [_ Hx].
  cbn [wordy]. by apply space_not_word.
Qed.

Lemma anywhere_banned_blank_l prev a z :
  blank a -> wordy prev = false ->
  anywhere (kw_here true banned_words) prev (a ++ z)
    = anywhere (kw_here true banned_words) None z.
Proof.
  intros Ha Hp. rewrite anywhere_app.
  assert (Hin : inside (kw_here true banned_words) prev a z = false).
  { clear Hp. revert prev. induction Ha as [ | x a Hx Ha IH ]; intros prev;
      [ reflexivity | ].
    cbn [inside app]. rewrite IH.
    rewrite kw_here_not_alpha;
      [ reflexivity | apply banned_lettered | by apply space_not_alpha ]. }
  rewrite Hin. cbn [orb]. apply anywhere_wordy.
  - intros q q' r. apply kw_here_wordy.
  - by rewrite blank_last_wordy.
Qed.

Lemma anywhere_banned_blank_r prev s b :
  blank b ->
  anywhere (kw_here true banned_words) prev (s ++ b)
    = anywhere (kw_here true banned_words) prev s.
Proof.
  intros Hb. revert prev. induction s as [ | x s IH ]; intros prev.
  - cbn [app anywhere]. rewrite (kw_here_end _ _ _ banned_lettered).
    revert prev. induction Hb as [ | y b Hy Hb IHb ]; intros prev.
    + cbn [anywhere]. by rewrite (kw_here_end _ _ _ banned_lettered).
    + cbn [anywhere]. rewrite IHb.
      rewrite kw_here_not_alpha;
        [ reflexivity | apply banned_lettered | by apply space_not_alpha ].
  - cbn [app anywhere]. rewrite IH. f_equal.
    apply (kw_here_trailing true banned_words prev x s b);
      [ apply banned_wordlike | by apply blank_wordless ].
Qed.

(** Trimming neither hides nor creates a banned keyword. *)
Lemma banned_strip sql :
  bool_decide (is_Some (re_search true BANNED (strip sql)))
    = bool_decide (is_Some (re_search true BANNED sql)).
Proof.
  rewrite !banned_search.
  destruct (strip_split sql) as (a & b & Hs & Ha & Hb).
  rewrite Hs at 2.
  rewrite anywhere_banned_blank_l by done.
  by rewrite anywhere_banned_blank_r.
Qed.

(** C3 (amended for the example). A candidate that contains a banned
    keyword as a whole word, in either case, is rejected: with
    [NotAReadQuery] when the trimmed text does not start with SELECT or
    WITH, and with [ForbiddenKeyword] otherwise, whatever the later tests
    would say.  So [SELECT 1; DROP TABLE x] is rejected with
    [ForbiddenKeyword]: the keyword test comes before the
    single-statement test, and the first failing test decides. *)
Theorem validate_sql_banned_keyword MAX_ROWS :
  (forall sql,
      is_Some (re_search true BANNED sql) ->
      validate_sql MAX_ROWS sql =
        if bool_decide (is_Some (re_match true READ_QUERY (strip sql)))
        then Err ForbiddenKeyword else Err NotAReadQuery) /\
  validate_sql MAX_ROWS "SELECT 1; DROP TABLE x" = Err ForbiddenKeyword /\
  _single_statement (strip "SELECT 1; DROP TABLE x") = false.
Proof.
  split; [ | split; reflexivity ].
  intros sql Hb. unfold validate_sql.
  destruct sql as [ | c sql ]; [ by destruct Hb | ]. cbn [nonempty negb].
  destruct (bool_decide (is_Some (re_match true READ_QUERY _)));
    [ | reflexivity ].
  cbn [negb]. rewrite banned_strip.
  by rewrite bool_decide_eq_true_2.
Qed.

(** C3 as stated fails on its example: the validator rejects
    [SELECT 1; DROP TABLE x] with [ForbiddenKeyword], not with
    [MultipleStatements]. *)
Lemma validate_sql_drop_not_multiple :
  validate_sql 2000 "SELECT 1; DROP TABLE x" <> Err MultipleStatements.
Proof. discriminate. Qed.

Lemma validate_sql_banned_keyword_witness :
  is_Some (re_search true BANNED "select a from mart.t where x = 'Drop' limit 5") /\
  validate_sql 2000 "select a from mart.t where x = 'Drop' limit 5"
    = Err ForbiddenKeyword.
Proof.
  split; [ vm_compute; eauto | ].
  apply (proj1 (validate_sql_banned_keyword 2000)
           "select a from mart.t where x = 'Drop' limit 5").
  vm_compute. eauto.
Defined.

End BannedFacts.

(** ** JSON extraction *)

Section BridgeFacts.
Import Chars Str Re Scan Bridge.

Implicit Types (t pre mid post rest s m : str) (prev : option ascii).
Implicit Types (text : option str).

Lemma upto_last_None c s : c ∉ s -> upto_last c s = None.
Proof.
  induction s as [ | x s IH ]; intros Hc; [ reflexivity | ].
  apply not_elem_of_cons in Hc as [Hx Hs]. simpl. rewrite IH by done.
  destruct (eqb x c) eqn:E; [ | reflexivity ].
  apply eqb_eq in E. congruence.
Qed.

Lemma upto_last_Some c mid post :
  c ∉ post -> upto_last c (mid ++ c :: post) = Some (mid ++ [c]).
Proof.
  intros Hc. induction mid as [ | x mid IH ]; simpl.
  - by rewrite upto_last_None, eqb_refl.
  - by rewrite IH.
Qed.

Lemma upto_last_inv c s m :
  upto_last c s = Some m ->
  exists mid post, s = mid ++ c :: post /\ m = mid ++ [c] /\ c ∉ post.
Proof.
  revert m. induction s as [ | x s IH ]; intros m; simpl; [ done | ].
  destruct (upto_last c s) as [ m' | ] eqn:E.
  - intros [= <-]. destruct (IH m' eq_refl) as (mid & post & -> & -> & Hp).
    by exists (x :: mid), post.
  - destruct (eqb x c) eqn:Ex; [ | done ]. intros [= <-].
    apply eqb_eq in Ex as ->. exists [], s. repeat split.
    intros Hin. clear IH. induction s as [ | y s IHs ]; [ by inversion Hin | ].
    simpl in E. destruct (upto_last c s); [ done | ].
    destruct (eqb y c) eqn:Ey; [ done | ].
    apply elem_of_cons in Hin as [ -> | Hin ]; [ | by apply IHs ].
    by rewrite eqb_refl in Ey.
Qed.

(** [.*\}] takes the longest text that a closing brace ends. *)
Lemma run_star_close prev rest :
  head (run false (Cat (Star (fun _ => true)) (Lit close_brace)) prev rest)
    = (fun m => (m, None)) <$> upto_last close_brace rest.
Proof.
  cbn [run]. rewrite flat_map_of_map. cbn [fst].
  revert prev. induction rest as [ | x rest IH ]; intros prev.
  - reflexivity.
  - cbn [greedy]. rewrite flat_map_app, flat_map_of_map, flat_map_singleton.
    cbn [length drop upto_last].
    assert (Hmap : forall G,
      flat_map (fun a : str =>
        map (seq_hit (x :: a, None))
          (match drop (length (x :: a)) (x :: rest) with
           | [] => []
           | y :: _ => if same false close_brace y then [([y], None)] else []
           end)) G
      = map (cons_hit x)
          (flat_map (fun a : str =>
             map (seq_hit (a, None))
               (match drop (length a) rest with
                | [] => []
                | y :: _ => if same false close_brace y then [([y], None)] else []
                end)) G)).
    { induction G as [ | a G IHG ]; [ reflexivity | ].
      cbn [flat_map]. rewrite map_app, IHG. f_equal.
      cbn [length drop]. destruct (drop (length a) rest) as [ | y r ];
        [ reflexivity | ].
      destruct (same false close_brace y); reflexivity. }
    rewrite Hmap. specialize (IH (Some x)).
    destruct (flat_map _ (greedy _ rest)) as [ | h hs ].
    + cbn [map app]. simpl in IH.
      destruct (upto_last close_brace rest); [ done | ].
      unfold same. destruct (eqb x close_brace); reflexivity.
    + simpl in IH. destruct (upto_last close_brace rest) as [ m | ]; [ | done ].
      injection IH as ->. reflexivity.
Qed.

Lemma run_json_span prev rest :
  head (run false JSON_SPAN prev rest)
    = (fun m => (m, None)) <$> span_here rest.
Proof.
  unfold JSON_SPAN. cbn [run].
  destruct rest as [ | x rest ]; [ reflexivity | ].
  unfold span_here, same. destruct (eqb x "{"); [ | reflexivity ].
  rewrite flat_map_singleton. cbn [fst length drop].
  pose proof (run_star_close (last_of prev [x]) rest) as H.
  unfold close_brace in H. cbn [run] in H.
  destruct (flat_map _ _) as [ | h hs ]; simpl in H.
  - destruct (upto_last "}" rest); [ done | reflexivity ].
  - destruct (upto_last "}" rest) as [ m | ]; [ | done ].
    injection H as ->. reflexivity.
Qed.

Lemma search_json_span prev rest :
  search_from false JSON_SPAN prev rest
    = match span_here rest with
      | Some m => Some (m, None)
      | None =>
          match rest with
          | [] => None
          | c :: rest' => search_from false JSON_SPAN (Some c) rest'
          end
      end.
Proof.
  pose proof (run_json_span prev rest) as H. revert H.
  destruct rest as [ | c rest ]; cbn [search_from];
    destruct (run false JSON_SPAN prev _) as [ | h hs ];
    destruct (span_here _); simpl; intros H; simplify_eq; done.
Qed.

(** The search finds the text from the first opening brace through the
    last closing brace. *)
Lemma search_json_span_found prev pre mid post :
  open_brace ∉ pre -> close_brace ∉ post ->
  search_from false JSON_SPAN prev
    (pre ++ open_brace :: mid ++ close_brace :: post)
    = Some (open_brace :: mid ++ [close_brace], None).
Proof.
  unfold open_brace, close_brace. intros Hpre Hpost. revert prev.
  induction pre as [ | x pre IH ]; intros prev; rewrite search_json_span.
  - cbn [app span_here]. rewrite eqb_refl.
    by rewrite (upto_last_Some "}" mid post Hpost).
  - apply not_elem_of_cons in Hpre as [Hx Hpre].
    cbn [app span_here].
    destruct (eqb x "{") eqn:E; [ apply eqb_eq in E; by subst | ].
    by apply IH.
Qed.

Lemma search_json_span_inv prev rest m g :
  search_from false JSON_SPAN prev rest = Some (m, g) ->
  exists pre mid post,
    rest = pre ++ open_brace :: mid ++ close_brace :: post.
Proof.
  revert prev. induction rest as [ | x rest IH ]; intros prev;
    rewrite search_json_span; [ done | ].
  cbn [span_here]. destruct (eqb x "{") eqn:E.
  - apply eqb_eq in E as ->.
    destruct (upto_last "}" rest) as [ m' | ] eqn:Hu; simpl.
    + intros _. apply upto_last_inv in Hu as (mid & post & -> & _ & _).
      by exists [], mid, post.
    + intros (pre & mid & post & ->)%IH.
      by exists ("{"%char :: pre), mid, post.
  - intros (pre & mid & post & ->)%IH. by exists (x :: pre), mid, post.
Qed.

Lemma startswith_head c t :
  startswith [c] t = true <-> head t = Some c.
Proof.
  destruct t as [ | x t ]; simpl; [ done | ].
  rewrite andb_true_r, eqb_eq. split; congruence.
Qed.

Lemma endswith_last c t :
  endswith [c] t = true <-> last t = Some c.
Proof.
  unfold endswith. rewrite <- head_reverse. apply startswith_head.
Qed.

(** C6. After trimming, a text that starts with an opening and ends with a
    closing brace is the candidate as it is; in any case, when the trimmed
    text has an opening brace with a closing brace somewhere after it, the
    candidate is the text from the first opening brace through the last
    closing brace (when it has none, the trimmed text itself); and when
    the candidate does not parse, the bridge fails with
    [ModelOutputUnparseable] carrying the first 300 characters of the
    candidate, or all of it if it is shorter. *)
Theorem extract_json_candidate :
  (forall text,
      let t := strip (default [] text) in
      startswith "{" t = true -> endswith "}" t = true ->
      _extract_json text = t) /\
  (forall text pre mid post,
      strip (default [] text)
        = pre ++ open_brace :: mid ++ close_brace :: post ->
      open_brace ∉ pre -> close_brace ∉ post ->
      _extract_json text = open_brace :: mid ++ [close_brace]) /\
  (forall text,
      (forall pre mid post,
          strip (default [] text)
            <> pre ++ open_brace :: mid ++ close_brace :: post) ->
      _extract_json text = strip (default [] text)) /\
  (forall (Json : Type) (json_loads : str -> option Json) (r : reply),
      status_code r = 200%Z ->
      json_loads (_extract_json (Some (default [] (response r)))) = None ->
      exists excerpt,
        ollama_json json_loads r = inr (ModelOutputUnparseable excerpt) /\
        excerpt = take 300 (_extract_json (Some (default [] (response r)))) /\
        length excerpt <= 300).
Proof.
  split; [ | split; [ | split ] ].
  - intros text t H1 H2. unfold _extract_json. fold t. by rewrite H1, H2.
  - intros text pre mid post Ht Hpre Hpost. unfold _extract_json.
    rewrite Ht.
    destruct (startswith "{" _ && endswith "}" _) eqn:Hse.
    + apply andb_true_iff in Hse as [Hs He].
      apply (startswith_head "{") in Hs. apply (endswith_last "}") in He.
      destruct pre as [ | x pre ].
      2:{ simpl in Hs. injection Hs as ->. exfalso. apply Hpre. left. }
      destruct post as [ | y post _ ] using rev_ind.
      2:{ replace ([] ++ open_brace :: mid ++ close_brace :: post ++ [y])
            with ((open_brace :: mid ++ close_brace :: post) ++ [y]) in He
            by (simpl; by rewrite <- app_assoc).
          rewrite last_snoc in He.
          injection He as ->. exfalso. apply Hpost.
          apply elem_of_app. right. left. }
      reflexivity.
    + unfold re_search. by rewrite search_json_span_found.
  - intros text Hno. unfold _extract_json.
    destruct (startswith "{" _ && endswith "}" _); [ reflexivity | ].
    unfold re_search.
    destruct (search_from false JSON_SPAN None _) as [ [m g] | ] eqn:E;
      [ | reflexivity ].
    apply search_json_span_inv in E as (pre & mid & post & E).
    by destruct (Hno pre mid post).
  - intros Json json_loads r Hst Hparse. unfold ollama_json.
    rewrite Hst, Hparse. cbn [Z.eqb Pos.eqb negb]. eexists.
    split; [ reflexivity | split; [ reflexivity | ] ].
    rewrite length_take. lia.
Qed.

Lemma extract_json_candidate_witness :
  strip (default [] (Some ("Here it is: {a: {b}} done } ok " : str)))
    = ("Here it is: " : str) ++ open_brace :: ("a: {b}} done " : str)
        ++ close_brace :: (" ok" : str) /\
  _extract_json (Some ("Here it is: {a: {b}} done } ok " : str))
    = open_brace :: ("a: {b}} done " : str) ++ [close_brace].
Proof.
  split; [ reflexivity | ].
  apply (proj1 (proj2 extract_json_candidate)
           (Some ("Here it is: {a: {b}} done } ok " : str))
           ("Here it is: " : str) ("a: {b}} done " : str) (" ok" : str)).
  - reflexivity.
  - by apply not_elem_by_eqb.
  - by apply not_elem_by_eqb.
Defined.

End BridgeFacts.

(** ** The LIMIT clause pattern *)

Section ClauseFacts.
Import Chars Str Re Scan Validator.

Implicit Types (prev q : option ascii) (rest s m w d l g z : str).
Implicit Types (p : ascii -> bool).

Lemma take_drop_while p s : take_while p s ++ drop_while p s = s.
Proof.
  induction s as [ | c s IH ]; simpl; [ done | ].
  destruct (p c); simpl; [ by rewrite IH | done ].
Qed.

Lemma drop_take_while p s : drop (length (take_while p s)) s = drop_while p s.
Proof.
  induction s as [ | c s IH ]; simpl; [ done | ].
  destruct (p c); simpl; [ exact IH | done ].
Qed.

Lemma take_while_Forall p s : Forall (fun c => p c = true) (take_while p s).
Proof.
  induction s as [ | c s IH ]; simpl; [ constructor | ].
  destruct (p c) eqn:E; [ by constructor | constructor ].
Qed.

Lemma drop_while_head p s c : head (drop_while p s) = Some c -> p c = false.
Proof.
  induction s as [ | x s IH ]; simpl; [ done | ].
  destruct (p x) eqn:E; [ exact IH | ]. simpl. congruence.
Qed.

Lemma take_while_short p s k :
  k < length (take_while p s) ->
  exists y s', drop k s = y :: s' /\ p y = true /\ length (take k s) = k
               /\ take k s = take k (take_while p s).
Proof.
  revert k. induction s as [ | c s IH ]; intros k; simpl; [ lia | ].
  destruct (p c) eqn:E; simpl; [ | lia ].
  destruct k as [ | k ]; intros Hk.
  - exists c, s. by rewrite drop_0.
  - destruct (IH k) as (y & s' & H1 & H2 & H3 & H4); [ lia | ].
    exists y, s'. simpl. by rewrite H1, H3, H4.
Qed.

Lemma take_while_stop p a z :
  Forall (fun c => p c = true) a ->
  (forall c, head z = Some c -> p c = false) ->
  take_while p (a ++ z) = a /\ drop_while p (a ++ z) = z.
Proof.
  intros Ha Hz. induction Ha as [ | x a Hx Ha IH ]; simpl.
  - destruct z as [ | c z ]; simpl; [ done | ]. by rewrite (Hz c).
  - rewrite Hx. destruct IH as [-> ->]. done.
Qed.

(** Of all the lengths a greedy repetition can take, only the longest can
    succeed when what follows fails after every shorter one. *)
Lemma flat_map_greedy {B} p rest : forall f : str -> list B,
  (forall k, k < length (take_while p rest) -> f (take k rest) = []) ->
  flat_map f (greedy p rest) = f (take_while p rest).
Proof.
  induction rest as [ | c rest IH ]; intros f Hf.
  - simpl. apply app_nil_r.
  - cbn [greedy take_while] in *. destruct (p c) eqn:E.
    + rewrite flat_map_app, flat_map_of_map, flat_map_singleton.
      rewrite (IH (fun m => f (c :: m))).
      * pose proof (Hf 0) as H0. cbn [take] in H0.
        rewrite H0 by (simpl; lia). apply app_nil_r.
      * intros k Hk. apply (Hf (S k)). simpl. lia.
    + simpl. apply app_nil_r.
Qed.

Lemma run_repeated ic grp p prev x rest :
  p x = true ->
  run ic (repeated grp p) prev (x :: rest)
    = map (fun m => (x :: m, grouped grp (x :: m))) (greedy p rest).
Proof.
  intros Hx. destruct grp; cbn [repeated run]; rewrite Hx.
  - rewrite map_map. reflexivity.
  - reflexivity.
Qed.

Lemma run_repeated_fail ic grp p prev rest :
  (forall x, head rest = Some x -> p x = false) ->
  run ic (repeated grp p) prev rest = [].
Proof.
  intros Hx. destruct rest as [ | x rest ].
  - by destruct grp.
  - destruct grp; cbn [repeated run]; by rewrite (Hx x).
Qed.

Lemma run_repeated_then ic grp p r prev x rest :
  p x = true ->
  (forall k, k < length (take_while p rest) ->
     run ic r (last_of prev (x :: take k rest)) (drop k rest) = []) ->
  run ic (Cat (repeated grp p) r) prev (x :: rest)
    = map (seq_hit (x :: take_while p rest, grouped grp (x :: take_while p rest)))
        (run ic r (last_of prev (x :: take_while p rest)) (drop_while p rest)).
Proof.
  intros Hx Hshort. cbn [run]. rewrite run_repeated by done.
  rewrite flat_map_of_map. cbn [fst length drop].
  rewrite (flat_map_greedy p rest).
  - by rewrite drop_take_while.
  - intros k Hk.
    destruct (take_while_short p rest k Hk) as (y & s' & _ & _ & Hlen & _).
    rewrite Hlen, Hshort by done. reflexivity.
Qed.

Lemma run_repeated_then_fail ic grp p r prev rest :
  (forall x, head rest = Some x -> p x = false) ->
  run ic (Cat (repeated grp p) r) prev rest = [].
Proof.
  intros Hx. cbn [run]. by rewrite run_repeated_fail.
Qed.

Lemma run_word_cat ic w r prev rest :
  run ic (Cat (word w) r) prev rest =
    match lit_prefix ic w rest with
    | Some l =>
        map (seq_hit (l, None)) (run ic r (last_of prev l) (drop (length l) rest))
    | None => []
    end.
Proof.
  cbn [run]. rewrite run_word.
  destruct (lit_prefix ic w rest); [ | reflexivity ].
  by rewrite flat_map_singleton.
Qed.

Lemma last_of_digits prev d :
  d <> [] -> Forall (fun c => is_digit c = true) d ->
  wordy (last_of prev d) = true.
Proof.
  intros Hne Hd. induction d as [ | x d _ ] using rev_ind; [ done | ].
  rewrite last_of_snoc. rewrite Forall_app, Forall_singleton in Hd.
  cbn [wordy]. apply digit_word. tauto.
Qed.

Lemma run_digits_end ic grp prev rest :
  run ic (Cat (repeated grp is_digit) WordB) prev rest =
    let d := take_while is_digit rest in
    if nonempty d && negb (wordy (head (drop_while is_digit rest)))
    then [(d, grouped grp d)] else [].
Proof.
  destruct rest as [ | y rest ].
  { by rewrite run_repeated_then_fail. }
  destruct (is_digit y) eqn:Hy.
  2:{ rewrite run_repeated_then_fail; [ | by intros ? [= <-] ].
      cbn [take_while]. by rewrite Hy. }
  rewrite run_repeated_then; [ | done | ].
  - cbn [take_while drop_while]. rewrite Hy. cbn [nonempty andb run].
    unfold boundary at 1. rewrite last_of_digits;
      [ | done | constructor; [ done | apply take_while_Forall ] ].
    cbn [xorb]. destruct (wordy (head (drop_while is_digit rest))); cbn [negb map].
    + reflexivity.
    + by rewrite seq_hit_nil_r.
  - intros k Hk.
    destruct (take_while_short is_digit rest k Hk) as (c & s' & Hd & Hc & _ & Ht).
    cbn [run]. unfold boundary. rewrite Hd. cbn [head wordy].
    rewrite (digit_word c Hc). rewrite last_of_digits; [ reflexivity | done | ].
    constructor; [ done | ]. rewrite Ht. apply Forall_take, take_while_Forall.
Qed.

Lemma run_limit_pattern ic grp prev rest :
  run ic (limit_pattern grp) prev rest =
    match clause_here ic prev rest with
    | Some (m, d) => [(m, grouped grp d)]
    | None => []
    end.
Proof.
  unfold limit_pattern, clause_here. rewrite run_wordb_cat.
  destruct (boundary prev rest); [ | reflexivity ].
  rewrite run_word_cat.
  destruct (lit_prefix ic "limit" rest) as [ l | ]; [ | reflexivity ].
  cbv zeta. destruct (drop (length l) rest) as [ | x r1 ].
  { by rewrite run_repeated_then_fail. }
  destruct (is_space x) eqn:Hx.
  2:{ rewrite run_repeated_then_fail; [ | by intros ? [= <-] ].
      cbn [take_while]. by rewrite Hx. }
  rewrite run_repeated_then; [ | done | ].
  - cbn [take_while drop_while]. rewrite Hx. rewrite run_digits_end.
    cbv zeta. cbn [nonempty andb].
    destruct (nonempty (take_while is_digit (drop_while is_space r1))
              && negb (wordy (head (drop_while is_digit (drop_while is_space r1)))));
      [ | reflexivity ].
    cbn [map]. unfold seq_hit, grouped. cbn [fst snd].
    destruct grp; reflexivity.
  - intros k Hk.
    destruct (take_while_short is_space r1 k Hk) as (c & s' & Hd & Hc & _ & _).
    rewrite Hd. apply run_repeated_then_fail.
    intros ? [= <-]. destruct (is_digit c) eqn:E; [ | done ].
    apply digit_not_space in E. congruence.
Qed.

Lemma limit_clause_pattern : LIMIT_CLAUSE = limit_pattern false.
Proof. reflexivity. Qed.

Lemma limit_int_pattern : LIMIT_INT = limit_pattern true.
Proof. reflexivity. Qed.

End ClauseFacts.

(** ** Clauses and their replacement *)

Section RewriteFacts.
Import Chars Str Re Scan Validator.

Implicit Types (prev q : option ascii) (rest s m w d l g z r after repl : str).

Lemma lit_prefix_self ic w rest l :
  lit_prefix ic w rest = Some l -> lit_prefix ic w l = Some l.
Proof.
  revert rest l. induction w as [ | c w IH ]; intros rest l; simpl.
  - by intros [= <-].
  - destruct rest as [ | x rest ]; [ done | ].
    destruct (same ic c x) eqn:Hs; [ | done ].
    destruct (lit_prefix ic w rest) as [ l' | ] eqn:E; [ | done ].
    intros [= <-]. rewrite Hs. by rewrite (IH _ _ E).
Qed.

Lemma lit_prefix_app ic w l z :
  lit_prefix ic w l = Some l -> lit_prefix ic w (l ++ z) = Some l.
Proof.
  revert l. induction w as [ | c w IH ]; intros l; simpl.
  - by intros [= <-].
  - destruct l as [ | x l ]; [ done | ]. simpl.
    destruct (same ic c x); [ | done ].
    destruct (lit_prefix ic w l) as [ l' | ] eqn:E; [ | done ].
    intros [= ->]. by rewrite (IH _ E).
Qed.

Lemma lit_prefix_head ic c w rest l :
  lit_prefix ic (c :: w) rest = Some l ->
  exists x l', l = x :: l' /\ same ic c x = true /\ head rest = Some x.
Proof.
  simpl. destruct rest as [ | x rest ]; [ done | ].
  destruct (same ic c x) eqn:Hs; [ | done ].
  destruct (lit_prefix ic w rest) as [ l' | ]; [ | done ].
  intros [= <-]. by exists x, l'.
Qed.

Lemma not_word_not_digit o : wordy o = false ->
  forall c, o = Some c -> is_digit c = false.
Proof.
  intros Ho c ->. simpl in Ho. destruct (is_digit c) eqn:E; [ | done ].
  apply digit_word in E. congruence.
Qed.

Lemma clause_here_clause ic prev rest m d :
  clause_here ic prev rest = Some (m, d) ->
  exists after, rest = m ++ after /\ clause ic prev after m d.
Proof.
  unfold clause_here. destruct (boundary prev rest) eqn:Hb; [ | done ].
  destruct (lit_prefix ic "limit" rest) as [ l | ] eqn:Hl; [ | done ].
  cbv zeta.
  set (r1 := drop (length l) rest).
  set (w := take_while is_space r1). set (r2 := drop_while is_space r1).
  set (dd := take_while is_digit r2). set (r3 := drop_while is_digit r2).
  destruct (nonempty w) eqn:Hw; [ | done ].
  destruct (nonempty dd) eqn:Hd; [ | done ].
  destruct (wordy (head r3)) eqn:H3; [ done | ].
  cbn [andb negb]. intros [= <- <-]. exists r3.
  destruct (lit_prefix_split _ _ _ _ Hl) as [Hrest _].
  split.
  - rewrite Hrest at 1. fold r1. rewrite <- (take_drop_while is_space r1).
    fold w r2. rewrite <- (take_drop_while is_digit r2). fold dd r3.
    by rewrite <- !app_assoc.
  - constructor.
    + by apply (lit_prefix_self _ _ rest).
    + by destruct w.
    + apply take_while_Forall.
    + by destruct dd.
    + apply take_while_Forall.
    + destruct (lit_prefix_head _ _ _ _ _ Hl) as (x & l' & _ & Hs & Hh).
      unfold boundary in Hb. rewrite Hh in Hb. cbn [wordy] in Hb.
      apply same_word in Hs. rewrite Hs in Hb.
      by destruct (wordy prev).
    + exact H3.
Qed.

Lemma clause_clause_here ic prev after m d :
  clause ic prev after m d -> clause_here ic prev (m ++ after) = Some (m, d).
Proof.
  intros [l w dd Hl Hw Hws Hd Hds Hp Ha]. unfold clause_here.
  destruct (lit_prefix_head _ _ _ _ _ Hl) as (x & l' & -> & Hs & _).
  assert (Hb : boundary prev (((x :: l') ++ w ++ dd) ++ after) = true).
  { unfold boundary. cbn [app head wordy]. rewrite Hp.
    apply same_word in Hs. by rewrite Hs. }
  rewrite Hb. rewrite <- !app_assoc.
  rewrite (lit_prefix_app _ _ _ _ Hl). cbv zeta.
  rewrite drop_app_length.
  destruct (take_while_stop is_space w (dd ++ after) Hws) as [-> ->].
  { destruct dd as [ | y dd' ]; [ done | ]. intros c [= <-].
    apply Forall_cons in Hds as [Hy _]. by apply digit_not_space. }
  destruct (take_while_stop is_digit dd after Hds) as [-> ->].
  { by apply not_word_not_digit. }
  rewrite Ha. destruct w; [ done | ]. destruct dd; [ done | ]. reflexivity.
Qed.

Lemma clause_here_nil ic prev : clause_here ic prev [] = None.
Proof. unfold clause_here. by destruct (boundary prev []). Qed.

Lemma first_clause_nil prev : first_clause prev [] = None.
Proof. cbn [first_clause]. by rewrite clause_here_nil. Qed.

Lemma clause_nonempty ic prev after m d :
  clause ic prev after m d -> exists x m', m = x :: m' /\ same ic "l" x = true.
Proof.
  intros [l w dd Hl _ _ _ _ _ _].
  destruct (lit_prefix_head _ _ _ _ _ Hl) as (x & l' & -> & Hs & _).
  by exists x, (l' ++ w ++ dd).
Qed.

Lemma clause_last ic prev after m d :
  clause ic prev after m d -> forall q, wordy (last_of q m) = true.
Proof.
  intros [l w dd _ _ _ Hd Hds _ _] q.
  rewrite !last_of_app. by apply last_of_digits.
Qed.

Lemma sub_from_skip ic re repl k : forall prev rest,
  k <= length rest ->
  sub_from ic re repl k prev rest
    = sub_from ic re repl 0 (last_of prev (take k rest)) (drop k rest).
Proof.
  induction k as [ | k IH ]; intros prev rest Hk.
  - by rewrite take_0, drop_0.
  - destruct rest as [ | c rest ]; [ simpl in Hk; lia | ].
    cbn [sub_from take drop]. rewrite IH by (simpl in Hk; lia).
    by rewrite last_of_cons.
Qed.

(** [re.sub] with the clause pattern: at a clause, the replacement and on
    after the clause; elsewhere, one character kept. *)
Lemma limit_sub_step repl prev rest :
  sub_from true LIMIT_CLAUSE repl 0 prev rest =
    match clause_here true prev rest with
    | Some (m, _) =>
        repl ++ sub_from true LIMIT_CLAUSE repl 0 (last_of prev m)
                  (drop (length m) rest)
    | None =>
        match rest with
        | [] => []
        | c :: rest' => c :: sub_from true LIMIT_CLAUSE repl 0 (Some c) rest'
        end
    end.
Proof.
  assert (Hrun := run_limit_pattern true false prev rest).
  rewrite <- limit_clause_pattern in Hrun.
  destruct (clause_here true prev rest) as [ [m d] | ] eqn:E.
  - apply clause_here_clause in E as (after & -> & Hc).
    destruct (clause_nonempty _ _ _ _ _ Hc) as (x & m' & -> & _).
    cbn [app sub_from]. cbn [app] in Hrun. rewrite Hrun. cbn [grouped].
    f_equal. rewrite sub_from_skip by (rewrite length_app; lia).
    rewrite take_app_length, drop_app_length.
    cbn [length drop]. rewrite drop_app_length. by rewrite last_of_cons.
  - destruct rest as [ | c rest ]; cbn [sub_from]; by rewrite Hrun.
Qed.

Lemma limit_sub_rewritten repl : forall prev rest,
  rewritten repl prev rest (sub_from true LIMIT_CLAUSE repl 0 prev rest).
Proof.
  intros prev rest. remember (length rest) as n eqn:Hn.
  revert prev rest Hn. induction n as [ n IH ] using lt_wf_ind.
  intros prev rest Hn. rewrite limit_sub_step.
  destruct (clause_here true prev rest) as [ [m d] | ] eqn:E.
  - pose proof E as E'.
    apply clause_here_clause in E as (after & -> & Hc).
    destruct (clause_nonempty _ _ _ _ _ Hc) as (x & m' & Hm & _).
    rewrite drop_app_length. eapply rw_clause; [ exact E' | ].
    eapply IH; [ | reflexivity ]. subst. rewrite length_app. simpl. lia.
  - destruct rest as [ | c rest ]; [ constructor | ].
    apply rw_keep; [ exact E | ].
    eapply IH; [ | reflexivity ]. subst. simpl. lia.
Qed.

(** Up to the first clause, the text and its rewriting are the same. *)
Lemma rewritten_first repl prev rest r :
  rewritten repl prev rest r ->
  (rest = r /\ first_clause prev rest = None) \/
  exists g m d after r',
    rest = g ++ m ++ after /\ r = g ++ repl ++ r' /\
    clause true (last_of prev g) after m d /\
    first_clause prev rest = Some (m, d) /\
    rewritten repl (last_of (last_of prev g) m) after r'.
Proof.
  induction 1 as [ prev | prev c rest r Hc Hr IH | prev m d rest r Hc Hr IH ].
  - left. split; [ done | apply first_clause_nil ].
  - cbn [first_clause]. rewrite Hc.
    destruct IH as [ [-> Hf] | (g & m & d & after & r' & -> & -> & Hcl & Hf & Hr') ].
    + left. done.
    + right. exists (c :: g), m, d, after, r'.
      rewrite last_of_cons. repeat split; try done.
  - right. exists [], m, d, rest, r.
    pose proof Hc as Hc'.
    apply clause_here_clause in Hc as (after & Happ & Hcl).
    apply app_inv_head in Happ as <-.
    repeat split; try done.
    destruct (clause_nonempty _ _ _ _ _ Hcl) as (x & m' & -> & _).
    cbn [app first_clause]. cbn [app] in Hc'. by rewrite Hc'.
Qed.

End RewriteFacts.

(** ** What a rewriting keeps *)

Section Preservation.
Import Chars Str Re Scan Validator.

Implicit Types (prev q : option ascii) (rest s m w d l g z r after repl f t : str).
Implicit Types (Q : option ascii -> str -> bool).

Local Ltac all_chars c :=
  destruct c as [[] [] [] [] [] [] [] []]; vm_compute; try reflexivity;
  try discriminate; try (intros; discriminate); try (intros; reflexivity).

Lemma tail_char_not_alpha c : tail_char c = true -> is_alpha c = false.
Proof. all_chars c. Qed.

Lemma tail_char_not_f c : tail_char c = true -> eqb (lower_char c) "f" = false.
Proof. all_chars c. Qed.

Lemma tail_char_not_m c : tail_char c = true -> eqb (lower_char c) "m" = false.
Proof. all_chars c. Qed.

Lemma tail_char_not_semicolon c : tail_char c = true -> eqb c ";" = false.
Proof. all_chars c. Qed.

Lemma space_tail_char c : is_space c = true -> tail_char c = true.
Proof. unfold tail_char. by intros ->. Qed.

Lemma digit_tail_char c : is_digit c = true -> tail_char c = true.
Proof. unfold tail_char. intros ->. by rewrite orb_true_r. Qed.

Lemma lower_is c x : lower_char c = x -> is_word x = true -> is_word c = true.
Proof. intros <-. by rewrite word_lower. Qed.

Lemma last_of_None g : last_of None g = last g.
Proof. unfold last_of. by destruct (last g). Qed.

Lemma last_of_Some_cons c g : last_of (Some c) g = last (c :: g).
Proof. by rewrite <- last_of_None, last_of_cons. Qed.

Lemma last_of_nonempty q q' m : m <> [] -> last_of q m = last_of q' m.
Proof.
  intros Hm. unfold last_of. destruct (last m) eqn:E; [ done | ].
  by apply last_None in E.
Qed.

(** *** Clauses and replacements are fragments *)

Lemma lit_prefix_cons_inv ic c w x l :
  lit_prefix ic (c :: w) (x :: l) = Some (x :: l) ->
  lower_char x = lower_char c /\ lit_prefix ic w l = Some l.
Proof.
  cbn [lit_prefix]. destruct (same ic c x) eqn:E; [ | done ].
  apply same_lower in E. destruct (lit_prefix ic w l); [ | done ].
  intros [= ->]. done.
Qed.

Lemma lit_prefix_limit l :
  lit_prefix true "limit" l = Some l ->
  exists c0 c1 c2 c3 c4,
    l = [c0; c1; c2; c3; c4] /\
    lower_char c0 = "l"%char /\ lower_char c1 = "i"%char /\
    lower_char c2 = "m"%char /\ lower_char c3 = "i"%char /\
    lower_char c4 = "t"%char.
Proof.
  change ("limit" : str) with ["l"; "i"; "m"; "i"; "t"]%char.
  intros H.
  destruct l as [ | c0 l ]; [ done | ].
  apply lit_prefix_cons_inv in H as [H0 H].
  destruct l as [ | c1 l ]; [ done | ].
  apply lit_prefix_cons_inv in H as [H1 H].
  destruct l as [ | c2 l ]; [ done | ].
  apply lit_prefix_cons_inv in H as [H2 H].
  destruct l as [ | c3 l ]; [ done | ].
  apply lit_prefix_cons_inv in H as [H3 H].
  destruct l as [ | c4 l ]; [ done | ].
  apply lit_prefix_cons_inv in H as [H4 H].
  destruct l as [ | ? l ]; [ | done ].
  by exists c0, c1, c2, c3, c4.
Qed.

Lemma clause_fragment prev after m d : clause true prev after m d -> fragment m.
Proof.
  intros [l w dd Hl Hw Hws Hd Hds _ _].
  destruct (lit_prefix_limit l Hl) as (c0 & c1 & c2 & c3 & c4 & -> & ? & ? & ? & ? & ?).
  induction dd as [ | x dd' _ ] using rev_ind; [ done | ].
  rewrite Forall_app, Forall_singleton in Hds. destruct Hds as [Hds Hx].
  cbn [app]. rewrite app_assoc. constructor; try done.
  apply Forall_app. split.
  - eapply Forall_impl; [ exact Hws | apply space_tail_char ].
  - eapply Forall_impl; [ exact Hds | apply digit_tail_char ].
Qed.

Lemma digits_of_uint_digits u :
  Forall (fun c => is_digit c = true) (digits_of_uint u).
Proof. induction u; simpl; constructor; done. Qed.

Lemma digits_of_uint_nonempty u : u <> Decimal.Nil -> digits_of_uint u <> [].
Proof. destruct u; done. Qed.

Lemma of_int_pos_digits p :
  digits_of_uint (N.to_uint (Npos p)) <> [] /\
  Forall (fun c => is_digit c = true) (digits_of_uint (N.to_uint (Npos p))).
Proof.
  split; [ | apply digits_of_uint_digits ].
  apply digits_of_uint_nonempty. apply DecimalPos.Unsigned.to_uint_nonnil.
Qed.

Lemma of_int_tail n :
  exists t x, of_int n = t ++ [x] /\
    Forall (fun c => tail_char c = true) t /\ is_digit x = true.
Proof.
  destruct n as [ | p | p ].
  - exists [], "0"%char. repeat split; constructor.
  - destruct (of_int_pos_digits p) as [Hne Hd]. cbn [of_int].
    induction (digits_of_uint _) as [ | x t _ ] using rev_ind; [ done | ].
    rewrite Forall_app, Forall_singleton in Hd. destruct Hd as [Ht Hx].
    exists t, x. repeat split; [ | done ].
    eapply Forall_impl; [ exact Ht | apply digit_tail_char ].
  - destruct (of_int_pos_digits p) as [Hne Hd]. cbn [of_int].
    induction (digits_of_uint _) as [ | x t _ ] using rev_ind; [ done | ].
    rewrite Forall_app, Forall_singleton in Hd. destruct Hd as [Ht Hx].
    exists ("-"%char :: t), x. repeat split; [ | done ].
    constructor; [ done | ].
    eapply Forall_impl; [ exact Ht | apply digit_tail_char ].
Qed.

(** The replacement text of [validate_sql]. *)
Lemma replacement_fragment n : fragment ("LIMIT " ++ of_int n).
Proof.
  destruct (of_int_tail n) as (t & x & -> & Ht & Hx).
  change (fragment ("L" :: "I" :: "M" :: "I" :: "T" :: (" "%char :: t) ++ [x])%char).
  constructor; try done. by constructor.
Qed.

Lemma fragment_limit_start f z : fragment f -> limit_start (f ++ z).
Proof. intros [c0 c1 c2 c3 c4 t x H0 _ _ _ _ _ _]. by eexists _, _. Qed.

Lemma fragment_last f q : fragment f -> wordy (last_of q f) = true.
Proof.
  intros [c0 c1 c2 c3 c4 t x _ _ _ _ _ _ Hx].
  change (c0 :: c1 :: c2 :: c3 :: c4 :: t ++ [x])
    with ([c0; c1; c2; c3; c4] ++ t ++ [x]).
  rewrite !last_of_app. cbn. by apply digit_word.
Qed.

Lemma fragment_nonempty f : fragment f -> f <> [].
Proof. by intros []. Qed.

(** *** Tests at a position *)

Lemma anywhere_rewritten Q repl prev rest r :
  clause_blind Q -> fragment repl ->
  rewritten repl prev rest r ->
  anywhere Q prev rest = anywhere Q prev r.
Proof.
  intros [Hbehind Hahead Hinside] Hrepl Hrw.
  induction Hrw as [ prev | prev c rest r Hc Hr IH | prev m d rest r Hc Hr IH ].
  - reflexivity.
  - cbn [anywhere]. rewrite IH. f_equal.
    destruct (rewritten_first _ _ _ _ Hr)
      as [ [-> _] | (g & m & d & after & r' & -> & -> & Hcl & _ & _) ];
      [ reflexivity | ].
    rewrite !app_comm_cons. apply Hahead.
    + done.
    + rewrite <- last_of_Some_cons. by destruct Hcl.
    + apply fragment_limit_start. by apply (clause_fragment _ _ _ _ Hcl).
    + by apply fragment_limit_start.
  - apply clause_here_clause in Hc as (after & Happ & Hcl).
    apply app_inv_head in Happ as <-.
    pose proof (clause_fragment _ _ _ _ Hcl) as Hm.
    rewrite !anywhere_app, !Hinside by done. cbn [orb].
    rewrite IH. apply anywhere_wordy; [ exact Hbehind | ].
    by rewrite !fragment_last.
Qed.

(** *** Banned keywords *)

Lemma inside_not_alpha ic kws a z : forall prev,
  Forall lettered kws ->
  Forall (fun c => is_alpha c = false) a ->
  inside (kw_here ic kws) prev a z = false.
Proof.
  intros prev Hk Ha. revert prev.
  induction Ha as [ | x a Hx Ha IH ]; intros prev; [ reflexivity | ].
  cbn [inside app]. by rewrite IH, kw_here_not_alpha.
Qed.

Lemma banned_not_at_l prev x s :
  lower_char x = "l"%char -> kw_after true banned_words prev (x :: s) = false.
Proof.
  intros Hx. unfold kw_after, banned_words.
  cbn [existsb word_end list_ascii_of_string]. unfold same. rewrite Hx.
  reflexivity.
Qed.

Lemma boundary_words q x s :
  wordy q = true -> is_word x = true -> boundary q (x :: s) = false.
Proof. unfold boundary. cbn [head wordy]. by intros -> ->. Qed.

Lemma kw_here_midword ic kws x y s :
  is_word x = true -> is_word y = true -> kw_here ic kws (Some x) (y :: s) = false.
Proof. intros Hx Hy. unfold kw_here. by rewrite boundary_words. Qed.

Lemma banned_blind : clause_blind (kw_here true banned_words).
Proof.
  split.
  - intros q q' s. apply kw_here_wordy.
  - intros prev g z z' Hg Hl _ _.
    apply kw_here_barrier; [ apply banned_wordlike | done | done ].
  - intros prev f z [c0 c1 c2 c3 c4 t x H0 H1 H2 H3 H4 Ht Hx].
    pose proof (lower_is _ _ H0 eq_refl) as W0.
    pose proof (lower_is _ _ H1 eq_refl) as W1.
    pose proof (lower_is _ _ H2 eq_refl) as W2.
    pose proof (lower_is _ _ H3 eq_refl) as W3.
    pose proof (lower_is _ _ H4 eq_refl) as W4.
    cbn [inside app].
    rewrite !kw_here_midword by done.
    unfold kw_here at 1. rewrite banned_not_at_l by done.
    rewrite andb_false_r. cbn [orb].
    apply inside_not_alpha; [ apply banned_lettered | ].
    apply Forall_app. split.
    + eapply Forall_impl; [ exact Ht | apply tail_char_not_alpha ].
    + apply Forall_singleton. by apply digit_not_alpha.
Qed.

Lemma banned_rewritten repl rest r :
  fragment repl -> rewritten repl None rest r ->
  bool_decide (is_Some (re_search true BANNED r))
    = bool_decide (is_Some (re_search true BANNED rest)).
Proof.
  intros Hrepl Hrw. rewrite !banned_search. symmetry.
  apply (anywhere_rewritten _ repl); [ apply banned_blind | done | done ].
Qed.

(** *** Substrings of the lowered text *)

Lemma contains_lower_anywhere p s prev :
  contains p (lower s)
    = anywhere (fun _ s' => startswith p (lower s')) prev s.
Proof.
  revert prev. induction s as [ | c s IH ]; intros prev; [ reflexivity | ].
  cbn [lower map contains anywhere]. by rewrite <- (IH (Some c)).
Qed.

Lemma startswith_barrier p : forall g c z z',
  c ∉ p -> startswith p (g ++ c :: z) = startswith p (g ++ c :: z').
Proof.
  induction p as [ | a p IH ]; intros g c z z' Hc; [ by destruct g | ].
  apply not_elem_of_cons in Hc as [Hca Hc].
  destruct g as [ | x g ]; cbn [app startswith].
  - destruct (eqb c a) eqn:E; [ | reflexivity ].
    apply eqb_eq in E. congruence.
  - by rewrite (IH g c z z').
Qed.

Lemma startswith_lower_ahead p prev g z z' :
  "l"%char ∉ p -> limit_start z -> limit_start z' ->
  startswith p (lower (g ++ z)) = startswith p (lower (g ++ z')).
Proof.
  intros Hp (c & z1 & -> & Hc) (c' & z1' & -> & Hc').
  rewrite !lower_app. cbn [lower map]. rewrite Hc, Hc'.
  by apply startswith_barrier.
Qed.

Lemma digit_lower_not_space x c :
  is_digit x = true -> is_space c = true -> eqb (lower_char x) c = false.
Proof.
  intros Hx Hc. rewrite (lower_digit x Hx).
  destruct (eqb x c) eqn:E; [ | reflexivity ].
  apply eqb_eq in E as ->. apply digit_not_space in Hx. congruence.
Qed.

Lemma lower_not_space c x :
  lower_char c = x -> is_word x = true ->
  forall b, is_space b = true -> eqb (lower_char c) b = false.
Proof.
  intros Hx Hw b Hb. subst x.
  destruct (eqb (lower_char c) b) eqn:E; [ | reflexivity ].
  apply eqb_eq in E. rewrite E in Hw. apply space_not_word in Hb. congruence.
Qed.

Lemma lowered_starts_cons a p q c s :
  lowered_starts (a :: p) q (c :: s)
    = eqb (lower_char c) a && startswith p (lower s).
Proof. reflexivity. Qed.

Lemma lowered_starts_ahead p prev g z z' :
  "l"%char ∉ p -> limit_start z -> limit_start z' ->
  lowered_starts p prev (g ++ z) = lowered_starts p prev (g ++ z').
Proof. apply startswith_lower_ahead. exact prev. Qed.

(** [from] after a white-space character [b] and before a space. *)
Lemma from_blind b :
  is_space b = true -> clause_blind (lowered_starts (b :: "from ")).
Proof.
  intros Hb. split.
  - reflexivity.
  - intros prev g z z' _ _ Hz Hz'. apply lowered_starts_ahead; [ | done | done ].
    intros [ Heq | Hin ]%elem_of_cons.
    + subst b. vm_compute in Hb. discriminate.
    + revert Hin. by apply not_elem_by_eqb.
  - intros prev f z [c0 c1 c2 c3 c4 t x H0 H1 H2 H3 H4 Ht Hx].
    cbn [inside app]. rewrite !lowered_starts_cons.
    rewrite (lower_not_space c0 _ H0 eq_refl b Hb).
    rewrite (lower_not_space c1 _ H1 eq_refl b Hb).
    rewrite (lower_not_space c2 _ H2 eq_refl b Hb).
    rewrite (lower_not_space c3 _ H3 eq_refl b Hb).
    rewrite (lower_not_space c4 _ H4 eq_refl b Hb).
    cbn [andb orb]. generalize (Some c4). clear -Hb Ht Hx.
    induction Ht as [ | c t Hc Ht IH ]; intros q.
    + cbn [inside app]. rewrite lowered_starts_cons.
      by rewrite (digit_lower_not_space x b Hx Hb).
    + cbn [inside app]. rewrite IH, orb_false_r.
      assert (Hnext : exists c' s', (t ++ [x]) ++ z = c' :: s' /\ tail_char c' = true).
      { destruct Ht as [ | c' t' Hc' _ ].
        - exists x, z. split; [ done | by apply digit_tail_char ].
        - by exists c', ((t' ++ [x]) ++ z). }
      destruct Hnext as (c' & s' & -> & Hc').
      rewrite lowered_starts_cons.
      change (startswith "from " (lower (c' :: s')))
        with (eqb (lower_char c') "f" && startswith "rom " (lower s')).
      rewrite (tail_char_not_f c' Hc'). cbn [andb]. apply andb_false_r.
Qed.

Lemma mart_blind : clause_blind (lowered_starts ("m"%char :: "art.")).
Proof.
  split.
  - reflexivity.
  - intros prev g z z' _ _ Hz Hz'. apply lowered_starts_ahead; [ | done | done ].
    by apply not_elem_by_eqb.
  - intros prev f z [c0 c1 c2 c3 c4 t x H0 H1 H2 H3 H4 Ht Hx].
    cbn [inside app]. rewrite !lowered_starts_cons.
    change (startswith "art." (lower (c3 :: c4 :: (t ++ [x]) ++ z)))
      with (eqb (lower_char c3) "a"
            && startswith "rt." (lower (c4 :: (t ++ [x]) ++ z))).
    rewrite H0, H1, H2, H3, H4.
    change (eqb "l" "m") with false. change (eqb "i" "m") with false.
    change (eqb "t" "m") with false. change (eqb "i" "a") with false.
    cbn [andb orb]. rewrite andb_false_r. cbn [orb].
    generalize (Some c4). clear -Ht Hx.
    assert (Hall : Forall (fun c => tail_char c = true) (t ++ [x])).
    { apply Forall_app. split; [ done | ].
      apply Forall_singleton. by apply digit_tail_char. }
    induction Hall as [ | c a Hc Ha IH ]; intros q; [ reflexivity | ].
    cbn [inside app]. rewrite lowered_starts_cons.
    by rewrite (tail_char_not_m c Hc), IH.
Qed.

Lemma contains_rewritten p repl rest r :
  clause_blind (lowered_starts p) -> fragment repl ->
  rewritten repl None rest r ->
  contains p (lower r) = contains p (lower rest).
Proof.
  intros Hblind Hrepl Hrw.
  rewrite !(contains_lower_anywhere p _ None). symmetry.
  exact (anywhere_rewritten _ repl None rest r Hblind Hrepl Hrw).
Qed.

Lemma schema_check_rewritten repl rest r :
  fragment repl -> rewritten repl None rest r ->
  has_from (lower r) = has_from (lower rest) /\
  contains "mart." (lower r) = contains "mart." (lower rest).
Proof.
  intros Hrepl Hrw. unfold has_from.
  pose proof (contains_rewritten (" "%char :: "from ") repl rest r
                (from_blind " " eq_refl) Hrepl Hrw) as H1.
  pose proof (contains_rewritten (nl :: "from ") repl rest r
                (from_blind nl eq_refl) Hrepl Hrw) as H2.
  pose proof (contains_rewritten (tab :: "from ") repl rest r
                (from_blind tab eq_refl) Hrepl Hrw) as H3.
  pose proof (contains_rewritten ("m"%char :: "art.") repl rest r
                mart_blind Hrepl Hrw) as H4.
  change (" "%char :: ("from " : str)) with (" from " : str) in H1.
  change ("m"%char :: ("art." : str)) with ("mart." : str) in H4.
  by rewrite H1, H2, H3, H4.
Qed.

(** *** The statement count *)

Lemma existsb_blank s :
  blank s -> existsb (fun c => negb (is_space c)) s = false.
Proof.
  induction 1 as [ | c s Hc Hs IH ]; [ reflexivity | ].
  cbn [existsb]. by rewrite Hc, IH.
Qed.

Lemma nonblank_exists s :
  nonempty (strip s) = existsb (fun c => negb (is_space c)) s.
Proof.
  destruct (strip_split s) as (a & b & Hs & Ha & Hb).
  rewrite Hs at 2. rewrite !existsb_app, (existsb_blank a Ha), (existsb_blank b Hb).
  rewrite orb_false_r. cbn [orb].
  pose proof (strip_head s) as Hh.
  destruct (strip s) as [ | x s' ]; [ reflexivity | ].
  cbn [nonempty existsb]. by rewrite (Hh x eq_refl).
Qed.

Lemma split_cons sep s : exists cur parts, split sep s = cur :: parts.
Proof.
  induction s as [ | c s (cur & parts & IH) ]; cbn [split]; [ by eexists _, _ | ].
  destruct (eqb c sep); [ by eexists _, _ | ]. rewrite IH. by eexists _, _.
Qed.

Lemma length_filter_nonblank (x : str) (parts : list str) :
  length (filter (fun p : str => nonempty (strip p)) (x :: parts))
    = (if nonempty (strip x) then 1 else 0)
      + length (filter (fun p : str => nonempty (strip p)) parts).
Proof.
  rewrite filter_cons. destruct (nonempty (strip x)); reflexivity.
Qed.

Lemma statements_split s : forall seen,
  statements seen s =
    match split ";" s with
    | cur :: parts =>
        (if seen || nonempty (strip cur) then 1 else 0)
        + length (filter (fun p : str => nonempty (strip p)) parts)
    | [] => 0
    end.
Proof.
  induction s as [ | c s IH ]; intros seen; cbn [statements split].
  - rewrite orb_false_r. cbn. lia.
  - destruct (eqb c ";") eqn:E.
    + rewrite IH. destruct (split_cons ";" s) as (cur & parts & Hsp).
      rewrite Hsp, length_filter_nonblank. rewrite orb_false_r. reflexivity.
    + rewrite IH. destruct (split_cons ";" s) as (cur & parts & Hsp).
      rewrite Hsp. rewrite !nonblank_exists. cbn [existsb].
      by rewrite orb_assoc.
Qed.

Lemma single_statement_statements s :
  _single_statement s = Nat.eqb (statements false (strip s)) 1.
Proof.
  unfold _single_statement. rewrite length_map, statements_split.
  destruct (split_cons ";" (strip s)) as (cur & parts & ->).
  by rewrite length_filter_nonblank.
Qed.

Lemma statements_app a z : forall seen,
  Forall (fun c => eqb c ";" = false) a ->
  statements seen (a ++ z)
    = statements (seen || existsb (fun c => negb (is_space c)) a) z.
Proof.
  intros seen Ha. revert seen.
  induction Ha as [ | c a Hc Ha IH ]; intros seen.
  - cbn. by rewrite orb_false_r.
  - cbn [app statements existsb]. rewrite Hc, IH. by rewrite orb_assoc.
Qed.

Lemma lower_letter_not_semicolon c x :
  lower_char c = x -> is_word x = true -> eqb c ";" = false.
Proof.
  intros Hx Hw. destruct (eqb c ";") eqn:E; [ | reflexivity ].
  apply eqb_eq in E. subst. done.
Qed.

Lemma statements_fragment f z seen :
  fragment f -> statements seen (f ++ z) = statements true z.
Proof.
  intros [c0 c1 c2 c3 c4 t x H0 H1 H2 H3 H4 Ht Hx].
  rewrite statements_app.
  - cbn [existsb].
    assert (is_space c0 = false) as ->.
    { pose proof (lower_is _ _ H0 eq_refl) as W.
      destruct (is_space c0) eqn:E; [ | done ].
      apply space_not_word in E. congruence. }
    cbn [negb orb]. by rewrite orb_true_r.
  - repeat (constructor;
      [ first [ by eapply lower_letter_not_semicolon; [ eassumption | ] | idtac ] | ]).
    apply Forall_app. split.
    + eapply Forall_impl; [ exact Ht | apply tail_char_not_semicolon ].
    + apply Forall_singleton. by apply tail_char_not_semicolon, digit_tail_char.
Qed.

Lemma statements_rewritten repl prev rest r :
  fragment repl -> rewritten repl prev rest r ->
  forall seen, statements seen r = statements seen rest.
Proof.
  intros Hrepl Hrw.
  induction Hrw as [ prev | prev c rest r Hc Hr IH | prev m d rest r Hc Hr IH ];
    intros seen.
  - reflexivity.
  - cbn [statements]. by rewrite !IH.
  - apply clause_here_clause in Hc as (after & Happ & Hcl).
    apply app_inv_head in Happ as <-.
    rewrite !statements_fragment; [ apply IH | by eapply clause_fragment | done ].
Qed.

(** *** The start and the end of the text *)

Lemma read_not_at_l prev x s :
  lower_char x = "l"%char ->
  kw_after true ["select" : str; "with" : str] prev (x :: s) = false.
Proof.
  intros Hx. unfold kw_after.
  cbn [existsb word_end list_ascii_of_string]. unfold same. rewrite Hx.
  reflexivity.
Qed.

Lemma read_words_wordlike : Forall wordlike ["select" : str; "with" : str].
Proof. repeat constructor. Qed.

Lemma read_query_rewritten repl rest r :
  fragment repl -> rewritten repl None rest r ->
  kw_after true ["select" : str; "with" : str] None r
    = kw_after true ["select" : str; "with" : str] None rest.
Proof.
  intros Hrepl Hrw.
  destruct (rewritten_first _ _ _ _ Hrw)
    as [ [-> _] | (g & m & d & after & r' & -> & -> & Hcl & _ & _) ];
    [ reflexivity | ].
  pose proof (clause_fragment _ _ _ _ Hcl) as Hm.
  destruct g as [ | x g ].
  - destruct (fragment_limit_start m after Hm) as (c & z & -> & Hc).
    destruct (fragment_limit_start repl r' Hrepl) as (c' & z' & -> & Hc').
    cbn [app]. by rewrite !read_not_at_l.
  - apply kw_after_barrier; [ apply read_words_wordlike | done | ].
    rewrite <- last_of_None. by destruct Hcl.
Qed.

Lemma read_query_head s :
  kw_after true ["select" : str; "with" : str] None s = true ->
  exists x s', s = x :: s' /\ is_space x = false.
Proof.
  unfold kw_after. cbn [existsb word_end list_ascii_of_string].
  destruct s as [ | x s' ]; [ done | ]. intros H. exists x, s'. split; [ done | ].
  destruct (is_space x) eqn:E; [ | done ]. exfalso.
  apply space_not_word in E.
  destruct (same true "s" x) eqn:E1.
  { apply same_word in E1. rewrite E in E1. done. }
  destruct (same true "w" x) eqn:E2.
  { apply same_word in E2. rewrite E in E2. done. }
  done.
Qed.

Lemma rewritten_head repl prev rest r :
  wordy prev = true -> rewritten repl prev rest r -> head r = head rest.
Proof.
  intros Hp Hrw. destruct Hrw as [ prev | prev c rest r _ _ | prev m d rest r Hc _ ];
    [ done | done | ].
  apply clause_here_clause in Hc as (after & _ & Hcl).
  destruct Hcl. congruence.
Qed.

Lemma rewritten_nil repl prev rest :
  fragment repl -> rewritten repl prev rest [] -> rest = [].
Proof.
  intros Hrepl Hrw. inversion Hrw as [ | | ? ? ? ? ? ? ? Heq ]; [ done | ].
  apply fragment_nonempty in Hrepl. by destruct repl.
Qed.

Lemma rewritten_last repl prev rest r :
  fragment repl -> rewritten repl prev rest r ->
  (forall c, last_of prev rest = Some c -> is_space c = false) ->
  forall c, last_of prev r = Some c -> is_space c = false.
Proof.
  intros Hrepl Hrw.
  induction Hrw as [ prev | prev c rest r Hc Hr IH | prev m d rest r Hc Hr IH ].
  - done.
  - rewrite !last_of_cons. exact IH.
  - apply clause_here_clause in Hc as (after & Happ & Hcl).
    apply app_inv_head in Happ as <-.
    pose proof (clause_fragment _ _ _ _ Hcl) as Hm.
    rewrite !last_of_app. intros Hrest c.
    destruct r as [ | y r ].
    + cbn. intros Hl. pose proof (fragment_last repl prev Hrepl) as Hw.
      rewrite Hl in Hw. cbn in Hw.
      destruct (is_space c) eqn:E; [ | done ].
      apply space_not_word in E. congruence.
    + rewrite (last_of_nonempty _ (last_of prev m)) by done. by apply IH.
Qed.

(** *** The first clause of the rewriting *)

Lemma lit_prefix_barrier ic w : forall g z z',
  wordlike w -> g <> [] -> wordy (last g) = false ->
  lit_prefix ic w (g ++ z) = lit_prefix ic w (g ++ z') /\
  forall l, lit_prefix ic w (g ++ z) = Some l ->
            exists g1, g = l ++ g1 /\ g1 <> [].
Proof.
  induction w as [ | c w IH ]; intros g z z' Hw Hg Hl.
  - split; [ reflexivity | ]. intros l [= <-]. by exists g.
  - apply Forall_cons in Hw as [Hc Hw].
    destruct g as [ | x g ]; [ done | ]. cbn [app lit_prefix].
    destruct (same ic c x) eqn:Hs; [ | done ].
    apply same_word in Hs. rewrite Hc in Hs.
    destruct g as [ | y g ]; [ cbn in Hl; congruence | ].
    rewrite last_cons_cons in Hl.
    destruct (IH (y :: g) z z' Hw) as [IH1 IH2]; [ done | done | ].
    rewrite IH1. split; [ reflexivity | ].
    rewrite <- IH1. intros l Hsome.
    destruct (lit_prefix ic w ((y :: g) ++ z)) as [ l' | ] eqn:E; [ | done ].
    injection Hsome as <-.
    destruct (IH2 l' eq_refl) as (g1 & Hg1 & Hne).
    exists g1. split; [ | done ]. cbn [app]. by rewrite <- Hg1.
Qed.

Lemma take_while_split p g :
  Forall (fun c => p c = true) g \/
  exists a x b, g = a ++ x :: b /\ Forall (fun c => p c = true) a /\ p x = false.
Proof.
  induction g as [ | c g IH ]; [ left; constructor | ].
  destruct (p c) eqn:E.
  - destruct IH as [ IH | (a & x & b & -> & Ha & Hx) ].
    + left. by constructor.
    + right. exists (c :: a), x, b. repeat split; [ | done ]. by constructor.
  - right. exists [], c, g. repeat split; [ constructor | done ].
Qed.

Lemma limit_start_head z :
  limit_start z ->
  forall c, head z = Some c -> is_space c = false /\ is_digit c = false.
Proof.
  intros (x & z' & -> & Hx) c [= <-].
  pose proof (lower_is _ _ Hx eq_refl) as Hw.
  pose proof (alpha_lower x) as Ha. rewrite Hx in Ha.
  split.
  - destruct (is_space x) eqn:E; [ | done ]. apply space_not_word in E. congruence.
  - destruct (is_digit x) eqn:E; [ | done ]. apply digit_not_alpha in E.
    rewrite E in Ha. done.
Qed.

(** A clause that starts before a character that is not a word character
    ends before the [limit] that follows that character. *)
Lemma clause_here_ahead prev g z z' :
  g <> [] -> wordy (last g) = false -> limit_start z -> limit_start z' ->
  clause_here true prev (g ++ z) = clause_here true prev (g ++ z').
Proof.
  intros Hg Hl Hz Hz'. unfold clause_here.
  assert (Hb : boundary prev (g ++ z) = boundary prev (g ++ z'))
    by (by destruct g).
  rewrite <- Hb. destruct (boundary prev (g ++ z)); [ | reflexivity ].
  destruct (lit_prefix_barrier true "limit" g z z') as [Hlit Hsplit];
    [ repeat constructor | done | done | ].
  rewrite <- Hlit.
  destruct (lit_prefix true "limit" (g ++ z)) as [ l | ]; [ | reflexivity ].
  destruct (Hsplit l eq_refl) as (g1 & -> & Hg1). cbv zeta.
  rewrite <- !app_assoc, !drop_app_length.
  assert (Hl1 : wordy (last g1) = false).
  { rewrite last_app in Hl. destruct (last g1) eqn:E; [ done | ].
    by apply last_None in E. }
  clear Hl Hb Hlit Hsplit Hg.
  destruct (take_while_split is_space g1) as [ Hall | (a & x & b & -> & Ha & Hx) ].
  - destruct (take_while_stop is_space g1 z Hall) as [-> ->].
    { intros c Hc. by apply (limit_start_head z Hz). }
    destruct (take_while_stop is_space g1 z' Hall) as [-> ->].
    { intros c Hc. by apply (limit_start_head z' Hz'). }
    destruct Hz as (c & z1 & -> & Hc). destruct Hz' as (c' & z1' & -> & Hc').
    cbn [take_while].
    destruct (limit_start_head (c :: z1)) with (c := c) as [_ ->];
      [ by eexists _, _ | done | ].
    destruct (limit_start_head (c' :: z1')) with (c := c') as [_ ->];
      [ by eexists _, _ | done | ].
    cbn [nonempty andb]. by rewrite !andb_false_r.
  - rewrite <- !app_assoc.
    destruct (take_while_stop is_space a ((x :: b) ++ z) Ha) as [-> ->];
      [ by intros ? [= <-] | ].
    destruct (take_while_stop is_space a ((x :: b) ++ z') Ha) as [-> ->];
      [ by intros ? [= <-] | ].
    assert (Hl2 : wordy (last (x :: b)) = false).
    { rewrite last_app in Hl1. by destruct (last (x :: b)) eqn:E. }
    destruct (take_while_split is_digit (x :: b))
      as [ Hall | (a' & y & b' & Hxb & Ha' & Hy) ].
    + rewrite <- last_of_None in Hl2.
      by rewrite (last_of_digits None (x :: b)) in Hl2.
    + rewrite Hxb, <- !app_assoc.
      destruct (take_while_stop is_digit a' ((y :: b') ++ z) Ha') as [-> ->];
        [ by intros ? [= <-] | ].
      destruct (take_while_stop is_digit a' ((y :: b') ++ z') Ha') as [-> ->];
        [ by intros ? [= <-] | ].
      reflexivity.
Qed.

Lemma first_clause_here prev s md :
  clause_here true prev s = Some md -> first_clause prev s = Some md.
Proof. intros H. destruct s; cbn [first_clause]; by rewrite H. Qed.

Lemma first_clause_skip prev c s :
  clause_here true prev (c :: s) = None ->
  first_clause prev (c :: s) = first_clause (Some c) s.
Proof. intros H. cbn [first_clause]. by rewrite H. Qed.

Lemma clause_here_wordy prev prev' s :
  wordy prev = wordy prev' -> clause_here true prev s = clause_here true prev' s.
Proof. intros H. unfold clause_here. by rewrite (boundary_wordy _ _ _ H). Qed.

Lemma first_clause_wordy prev prev' s :
  wordy prev = wordy prev' -> first_clause prev s = first_clause prev' s.
Proof.
  intros H. destruct s; cbn [first_clause]; by rewrite (clause_here_wordy _ _ _ H).
Qed.

(** Where the text keeps a character, its rewriting has no clause either. *)
Lemma clause_here_kept repl prev c rest r :
  fragment repl ->
  clause_here true prev (c :: rest) = None ->
  rewritten repl (Some c) rest r ->
  clause_here true prev (c :: r) = None.
Proof.
  intros Hrepl Hc Hr.
  destruct (rewritten_first _ _ _ _ Hr)
    as [ [-> _] | (g & m & d & after & r' & -> & -> & Hcl & _ & _) ];
    [ done | ].
  rewrite <- Hc, !app_comm_cons. apply clause_here_ahead.
  - done.
  - rewrite <- last_of_Some_cons. by destruct Hcl.
  - by apply fragment_limit_start.
  - apply fragment_limit_start. by eapply clause_fragment.
Qed.

(** The replacement for a cap that is not negative is itself a clause. *)
Lemma replacement_clause n prev after :
  (0 <= n)%Z -> wordy prev = false -> wordy (head after) = false ->
  clause true prev after ("LIMIT " ++ of_int n) (of_int n).
Proof.
  intros Hn Hp Ha.
  change ("LIMIT " ++ of_int n) with (("LIMIT" : str) ++ (" " : str) ++ of_int n).
  constructor; try done.
  - by repeat constructor.
  - destruct n as [ | p | p ]; [ done | | lia ].
    apply of_int_pos_digits.
  - destruct n as [ | p | p ]; [ by repeat constructor | | lia ].
    apply of_int_pos_digits.
Qed.

Lemma first_clause_rewritten n prev rest r :
  (0 <= n)%Z ->
  rewritten ("LIMIT " ++ of_int n) prev rest r ->
  first_clause prev r =
    match first_clause prev rest with
    | Some _ => Some ("LIMIT " ++ of_int n, of_int n)
    | None => None
    end.
Proof.
  intros Hn Hrw.
  induction Hrw as [ prev | prev c rest r Hc Hr IH | prev m d rest r Hc Hr IH ].
  - by rewrite first_clause_nil.
  - rewrite (first_clause_skip _ _ _ Hc).
    rewrite first_clause_skip; [ exact IH | ].
    eapply clause_here_kept; [ apply replacement_fragment | done | done ].
  - rewrite (first_clause_here _ _ _ Hc).
    apply first_clause_here.
    apply clause_here_clause in Hc as (after & Happ & Hcl).
    apply app_inv_head in Happ as <-.
    apply clause_clause_here, replacement_clause; [ done | by destruct Hcl | ].
    rewrite (rewritten_head _ _ _ _ (clause_last _ _ _ _ _ Hcl prev) Hr).
    by destruct Hcl.
Qed.

Lemma first_clause_None prev s :
  first_clause prev s = None <-> anywhere clause_test prev s = false.
Proof.
  revert prev. induction s as [ | c s IH ]; intros prev;
    cbn [first_clause anywhere]; unfold clause_test at 1.
  - destruct (clause_here true prev []); [ done | ]. by rewrite orb_false_r.
  - destruct (clause_here true prev (c :: s)); [ done | ]. cbn [orb]. apply IH.
Qed.

Lemma clause_here_at_l prev x s md :
  clause_here true prev (x :: s) = Some md -> lower_char x = "l"%char.
Proof.
  unfold clause_here. destruct (boundary prev (x :: s)); [ | done ].
  change ("limit" : str) with ("l"%char :: ("imit" : str)).
  cbn [lit_prefix]. destruct (same true "l" x) eqn:E; [ | done ].
  intros _. by apply same_lower in E.
Qed.

Lemma tail_char_not_l c : tail_char c = true -> lower_char c <> "l"%char.
Proof. all_chars c. Qed.

Lemma inside_clause_tail prev a z :
  Forall (fun c => lower_char c <> "l"%char) a ->
  inside clause_test prev a z = false.
Proof.
  intros Ha. revert prev. induction Ha as [ | c a Hc Ha IH ]; intros prev;
    [ reflexivity | ].
  cbn [inside app]. rewrite IH, orb_false_r. unfold clause_test.
  destruct (clause_here true prev (c :: a ++ z)) eqn:E; [ | done ].
  by apply clause_here_at_l in E.
Qed.

(** The replacement for a negative cap has a minus sign where a clause has
    its digits: no clause starts inside it. *)
Lemma inside_negative_replacement p prev z :
  inside clause_test prev ("LIMIT " ++ of_int (Zneg p)) z = false.
Proof.
  change ("LIMIT " ++ of_int (Zneg p))
    with ("L"%char :: ("IMIT -" ++ digits_of_uint (N.to_uint (Npos p)))).
  cbn [inside]. rewrite inside_clause_tail.
  - rewrite orb_false_r. unfold clause_test, clause_here.
    destruct (boundary prev _); reflexivity.
  - cbn [app list_ascii_of_string]. repeat (constructor; [ done | ]).
    eapply Forall_impl; [ apply digits_of_uint_digits | ].
    intros c Hc. by apply tail_char_not_l, digit_tail_char.
Qed.

Lemma first_clause_rewritten_negative p prev rest r :
  rewritten ("LIMIT " ++ of_int (Zneg p)) prev rest r ->
  first_clause prev r = None.
Proof.
  intros Hrw.
  induction Hrw as [ prev | prev c rest r Hc Hr IH | prev m d rest r Hc Hr IH ].
  - apply first_clause_nil.
  - rewrite first_clause_skip; [ exact IH | ].
    eapply clause_here_kept; [ apply replacement_fragment | done | done ].
  - apply first_clause_None. rewrite anywhere_app, inside_negative_replacement.
    apply first_clause_None.
    apply clause_here_clause in Hc as (after & _ & Hcl).
    rewrite <- IH. apply first_clause_wordy.
    rewrite (fragment_last _ _ (replacement_fragment _)).
    by rewrite (clause_last _ _ _ _ _ Hcl).
Qed.

(** *** Searching the lowered text *)

Lemma lit_prefix_lower w : forall rest,
  lower w = w ->
  lit_prefix false w (lower rest) = lower <$> lit_prefix true w rest.
Proof.
  induction w as [ | c w IH ]; intros rest Hw; [ reflexivity | ].
  injection Hw as Hc Hw. destruct rest as [ | x rest ]; [ reflexivity | ].
  cbn [lower map lit_prefix]. rewrite (same_lowered c x Hc).
  destruct (same true c x); [ | reflexivity ].
  fold (lower rest). rewrite (IH rest Hw).
  by destruct (lit_prefix true w rest).
Qed.

Lemma take_while_lower p s :
  (forall c, p (lower_char c) = p c) ->
  take_while p (lower s) = lower (take_while p s).
Proof.
  intros Hp. induction s as [ | c s IH ]; [ reflexivity | ].
  cbn [lower map take_while]. rewrite Hp. fold (lower s).
  destruct (p c); [ | reflexivity ]. rewrite IH. reflexivity.
Qed.

Lemma drop_while_lower p s :
  (forall c, p (lower_char c) = p c) ->
  drop_while p (lower s) = lower (drop_while p s).
Proof.
  intros Hp. induction s as [ | c s IH ]; [ reflexivity | ].
  cbn [lower map drop_while]. rewrite Hp. fold (lower s).
  destruct (p c); [ exact IH | reflexivity ].
Qed.

Lemma lower_digits d : Forall (fun c => is_digit c = true) d -> lower d = d.
Proof.
  induction 1 as [ | c d Hc Hd IH ]; [ reflexivity | ].
  cbn [lower map]. fold (lower d). by rewrite IH, (lower_digit c Hc).
Qed.

Lemma wordy_lower o : wordy (lower_char <$> o) = wordy o.
Proof. destruct o as [ c | ]; [ apply word_lower | reflexivity ]. Qed.

Lemma head_lower s : head (lower s) = lower_char <$> head s.
Proof. by destruct s. Qed.

Lemma boundary_lower prev rest :
  boundary (lower_char <$> prev) (lower rest) = boundary prev rest.
Proof. unfold boundary. by rewrite head_lower, !wordy_lower. Qed.

Lemma nonempty_lower s : nonempty (lower s) = nonempty s.
Proof. by destruct s. Qed.

Lemma length_lower s : length (lower s) = length s.
Proof. apply length_map. Qed.

Lemma drop_lower n s : drop n (lower s) = lower (drop n s).
Proof. apply skipn_map. Qed.

Lemma clause_here_lower prev rest :
  clause_here false (lower_char <$> prev) (lower rest) =
    match clause_here true prev rest with
    | Some (m, d) => Some (lower m, d)
    | None => None
    end.
Proof.
  unfold clause_here. rewrite boundary_lower.
  destruct (boundary prev rest); [ | reflexivity ].
  rewrite lit_prefix_lower by reflexivity.
  destruct (lit_prefix true "limit" rest) as [ l | ]; [ | reflexivity ].
  cbn [fmap option_fmap option_map]. cbv zeta.
  rewrite length_lower, drop_lower.
  rewrite !(drop_while_lower is_space) by apply space_lower.
  rewrite !(take_while_lower is_space) by apply space_lower.
  rewrite !(drop_while_lower is_digit) by apply digit_lower.
  rewrite !(take_while_lower is_digit) by apply digit_lower.
  rewrite !nonempty_lower, head_lower, wordy_lower.
  destruct (_ && _ && _); [ | reflexivity ].
  rewrite !lower_app.
  by rewrite (lower_digits (take_while is_digit _)) by apply take_while_Forall.
Qed.

Lemma search_limit_int prev rest :
  search_from false LIMIT_INT (lower_char <$> prev) (lower rest) =
    match first_clause prev rest with
    | Some (m, d) => Some (lower m, Some d)
    | None => None
    end.
Proof.
  assert (Hrun : forall q s,
    run false LIMIT_INT (lower_char <$> q) (lower s) =
      match clause_here true q s with
      | Some (m, d) => [(lower m, Some d)]
      | None => []
      end).
  { intros q s. rewrite limit_int_pattern, run_limit_pattern, clause_here_lower.
    by destruct (clause_here true q s) as [ [m d] | ]. }
  revert prev. induction rest as [ | c rest IH ]; intros prev.
  - pose proof (Hrun prev []) as H. cbn [lower map] in H.
    cbn [lower map search_from first_clause]. rewrite H.
    by destruct (clause_here true prev []) as [ [m d] | ].
  - pose proof (Hrun prev (c :: rest)) as H.
    change (lower (c :: rest)) with (lower_char c :: lower rest) in *.
    cbn [search_from first_clause]. rewrite H.
    destruct (clause_here true prev (c :: rest)) as [ [m d] | ]; [ reflexivity | ].
    apply (IH (Some c)).
Qed.

Lemma limit_word_search s :
  bool_decide (re_search false LIMIT_WORD s = None)
    = negb (anywhere (kw_here false ["limit" : str]) None s).
Proof.
  rewrite <- (anywhere_ext (hits false LIMIT_WORD)) by apply hits_limit_word.
  unfold re_search. rewrite <- search_hits.
  by destruct (search_from false LIMIT_WORD None s).
Qed.

Lemma wordy_last_of_lower prev g :
  wordy (last_of (lower_char <$> prev) (lower g)) = wordy (last_of prev g).
Proof.
  revert prev. induction g as [ | c g IH ]; intros prev; [ apply wordy_lower | ].
  cbn [lower map]. rewrite !last_of_cons. apply (IH (Some c)).
Qed.

(** After a rewriting the word [limit] is there, in [LIMIT n]. *)
Lemma limit_word_rewritten n s r md :
  first_clause None s = Some md ->
  rewritten ("LIMIT " ++ of_int n) None s r ->
  anywhere (kw_here false ["limit" : str]) None (lower r) = true.
Proof.
  intros Hf Hrw.
  destruct (rewritten_first _ _ _ _ Hrw)
    as [ [_ Hn] | (g & m & d & after & r' & -> & -> & Hcl & _ & _) ];
    [ congruence | ].
  rewrite lower_app, anywhere_app.
  apply orb_true_iff. right.
  change (lower (("LIMIT " ++ of_int n) ++ r'))
    with ("l"%char :: "i"%char :: "m"%char :: "i"%char :: "t"%char :: " "%char
            :: lower (of_int n ++ r')).
  cbn [anywhere]. apply orb_true_iff. left.
  unfold kw_here, kw_after, boundary. cbn [head].
  pose proof (wordy_last_of_lower None g) as Hw. cbn [fmap option_fmap option_map] in Hw.
  rewrite Hw. destruct Hcl as [? ? ? _ _ _ _ _ Hp _]. rewrite Hp.
  reflexivity.
Qed.

End Preservation.

(** ** The validator: what it returns *)

Section ValidatorResult.
Import Chars Str Re Scan Validator.

Implicit Types (sql s r m d : str) (MAX_ROWS : Z).

Lemma uint_of_digits_of_uint u : uint_of_digits (digits_of_uint u) = u.
Proof.
  induction u as [ | u IH | u IH | u IH | u IH | u IH | u IH | u IH | u IH | u IH | u IH ];
    cbn [digits_of_uint uint_of_digits]; rewrite ?IH; reflexivity.
Qed.

Lemma int_of_int n : (0 <= n)%Z -> int (of_int n) = n.
Proof.
  destruct n as [ | p | p ]; intros Hn; [ reflexivity | | lia ].
  unfold int, of_int. rewrite uint_of_digits_of_uint.
  by rewrite DecimalN.Unsigned.of_to.
Qed.

Lemma search_limit_int_top s :
  re_search false LIMIT_INT (lower s) =
    match first_clause None s with
    | Some (m, d) => Some (lower m, Some d)
    | None => None
    end.
Proof. exact (search_limit_int None s). Qed.

(** The validator succeeds exactly on the texts whose trimmed form passes
    all the tests and on which no conversion raises, and returns that
    form, capped. *)
Lemma validate_sql_Ok MAX_ROWS sql r :
  validate_sql MAX_ROWS sql = Ok r <->
  nonempty sql = true /\ accepted (strip sql) = true /\
  cap_raises MAX_ROWS (strip sql) = false /\
  r = capped MAX_ROWS (strip sql).
Proof.
  unfold validate_sql, accepted, capped, cap_raises.
  rewrite read_query_hits, banned_search, single_statement_statements,
    strip_strip, limit_word_search, search_limit_int_top.
  destruct (nonempty sql); cbn [negb];
    [ | split; [ discriminate | intros [? _]; discriminate ] ].
  destruct (kw_after true _ None (strip sql)); cbn [negb andb];
    [ | split; [ discriminate | intros (_ & ? & _); discriminate ] ].
  destruct (anywhere (kw_here true banned_words) None (strip sql)); cbn [negb andb];
    [ split; [ discriminate | intros (_ & ? & _); discriminate ] | ].
  destruct (Nat.eqb (statements false (strip sql)) 1); cbn [negb andb];
    [ | split; [ discriminate | intros (_ & ? & _); discriminate ] ].
  destruct (has_from (lower (strip sql)) && negb (contains "mart." (lower (strip sql))));
    cbn [negb andb];
    [ split; [ discriminate | intros (_ & ? & _); discriminate ] | ].
  destruct (anywhere (kw_here false _) None (lower (strip sql))); cbn [negb];
    [ | split; [ by destruct (of_int_raises MAX_ROWS)
               | intros (_ & ? & _); discriminate ] ].
  destruct (first_clause None (strip sql)) as [ [m d] | ];
    [ | split; [ intros [= <-]; done | intros (_ & _ & _ & ->); done ] ].
  change (group1 (lower m, Some d)) with d.
  destruct (int_raises d); cbn [orb];
    [ split; [ discriminate | intros (_ & _ & ? & _); discriminate ] | ].
  destruct (int d >? MAX_ROWS)%Z; cbn [andb];
    [ | split; [ intros [= <-]; done | intros (_ & _ & _ & ->); done ] ].
  destruct (of_int_raises MAX_ROWS);
    [ split; [ discriminate | intros (_ & _ & ? & _); discriminate ] | ].
  split; [ intros [= <-]; done | intros (_ & _ & _ & ->); done ].
Qed.

Lemma accepted_inv s :
  accepted s = true ->
  kw_after true ["select" : str; "with" : str] None s = true /\
  anywhere (kw_here true banned_words) None s = false /\
  Nat.eqb (statements false s) 1 = true /\
  has_from (lower s) && negb (contains "mart." (lower s)) = false /\
  anywhere (kw_here false ["limit" : str]) None (lower s) = true.
Proof.
  unfold accepted. rewrite !andb_true_iff, !negb_true_iff. tauto.
Qed.

Lemma accepted_intro s :
  kw_after true ["select" : str; "with" : str] None s = true ->
  anywhere (kw_here true banned_words) None s = false ->
  Nat.eqb (statements false s) 1 = true ->
  has_from (lower s) && negb (contains "mart." (lower s)) = false ->
  anywhere (kw_here false ["limit" : str]) None (lower s) = true ->
  accepted s = true.
Proof. unfold accepted. by intros -> -> -> -> ->. Qed.

Lemma accepted_nonempty s : accepted s = true -> nonempty s = true.
Proof.
  intros (Hr & _)%accepted_inv.
  by destruct (read_query_head s Hr) as (x & s' & -> & _).
Qed.

(** What a rewriting of an accepted text keeps. *)
Lemma accepted_rewritten n s r md :
  strip s = s -> accepted s = true ->
  first_clause None s = Some md ->
  rewritten ("LIMIT " ++ of_int n) None s r ->
  accepted r = true /\ strip r = r.
Proof.
  intros Hs (Hread & Hban & Hst & Hsch & Hlim)%accepted_inv Hf Hrw.
  pose proof (replacement_fragment n) as Hrepl.
  assert (Hread' : kw_after true ["select" : str; "with" : str] None r = true)
    by (by rewrite (read_query_rewritten _ _ _ Hrepl Hrw)).
  split.
  - apply accepted_intro.
    + exact Hread'.
    + by rewrite <- (anywhere_rewritten _ _ _ _ _ banned_blind Hrepl Hrw).
    + by rewrite (statements_rewritten _ _ _ _ Hrepl Hrw).
    + destruct (schema_check_rewritten _ _ _ Hrepl Hrw) as [-> ->]. exact Hsch.
    + by apply (limit_word_rewritten n s r md).
  - apply strip_fix.
    + destruct (read_query_head r Hread') as (x & r' & -> & Hx).
      by intros c [= <-].
    + intros c. rewrite <- last_of_None.
      apply (rewritten_last _ _ _ _ Hrepl Hrw).
      intros c'. rewrite last_of_None, <- Hs. apply strip_last.
Qed.

Lemma capped_rewritten MAX_ROWS s m d :
  first_clause None s = Some (m, d) -> (int d > MAX_ROWS)%Z ->
  rewritten ("LIMIT " ++ of_int MAX_ROWS) None s (capped MAX_ROWS s).
Proof.
  intros Hf Hd. unfold capped. rewrite Hf.
  rewrite (proj2 (Z.gtb_gt _ _)) by lia.
  apply limit_sub_rewritten.
Qed.

Lemma capped_same MAX_ROWS s :
  match first_clause None s with
  | Some (_, d) => (int d <= MAX_ROWS)%Z
  | None => True
  end -> capped MAX_ROWS s = s.
Proof.
  unfold capped. destruct (first_clause None s) as [ [m d] | ]; [ | done ].
  intros Hd. destruct (int d >? MAX_ROWS)%Z eqn:E; [ | done ].
  apply Z.gtb_gt in E. lia.
Qed.

(** Capping an accepted, trimmed text gives an accepted, trimmed text
    that capping leaves as it is. *)
Lemma capped_stable MAX_ROWS s :
  strip s = s -> accepted s = true ->
  accepted (capped MAX_ROWS s) = true /\
  strip (capped MAX_ROWS s) = capped MAX_ROWS s /\
  capped MAX_ROWS (capped MAX_ROWS s) = capped MAX_ROWS s.
Proof.
  intros Hs Hacc.
  destruct (first_clause None s) as [ [m d] | ] eqn:Hf.
  2:{ rewrite !(capped_same MAX_ROWS s) by (by rewrite Hf). done. }
  destruct (Z_le_gt_dec (int d) MAX_ROWS) as [ Hle | Hgt ].
  { rewrite !(capped_same MAX_ROWS s) by (by rewrite Hf). done. }
  pose proof (capped_rewritten MAX_ROWS s m d Hf Hgt) as Hrw.
  destruct (accepted_rewritten MAX_ROWS s _ _ Hs Hacc Hf Hrw) as [Hacc' Hs'].
  repeat split; [ done | done | ].
  apply capped_same.
  destruct (Z_le_gt_dec 0 MAX_ROWS) as [ Hpos | Hneg ].
  - rewrite (first_clause_rewritten MAX_ROWS None s _ Hpos Hrw), Hf.
    rewrite int_of_int by done. lia.
  - destruct MAX_ROWS as [ | p | p ]; [ lia | lia | ].
    by rewrite (first_clause_rewritten_negative p None s _ Hrw).
Qed.

Lemma of_int_raises_nonneg n :
  (0 <= n)%Z -> int_raises (of_int n) = of_int_raises n.
Proof. destruct n as [ | p | p ]; [ reflexivity | reflexivity | lia ]. Qed.

(** The conversions that do not raise on a text do not raise on its
    capped form: its first clause, if rewritten, carries the cap, which
    was formatted. *)
Lemma cap_raises_capped MAX_ROWS s :
  cap_raises MAX_ROWS s = false ->
  cap_raises MAX_ROWS (capped MAX_ROWS s) = false.
Proof.
  intros Hno.
  destruct (first_clause None s) as [ [m d] | ] eqn:Hf.
  2:{ by rewrite (capped_same MAX_ROWS s) by (by rewrite Hf). }
  destruct (Z_le_gt_dec (int d) MAX_ROWS) as [ Hle | Hgt ].
  { by rewrite (capped_same MAX_ROWS s) by (by rewrite Hf). }
  pose proof (capped_rewritten MAX_ROWS s m d Hf Hgt) as Hrw.
  unfold cap_raises in Hno. rewrite Hf in Hno.
  rewrite (proj2 (Z.gtb_gt _ _)) in Hno by lia.
  apply orb_false_iff in Hno as [_ Hfmt]. cbn [andb] in Hfmt.
  unfold cap_raises.
  destruct (Z_le_gt_dec 0 MAX_ROWS) as [ Hpos | Hneg ].
  - rewrite (first_clause_rewritten MAX_ROWS None s _ Hpos Hrw), Hf.
    rewrite of_int_raises_nonneg, Hfmt, int_of_int by done.
    cbn [orb]. by rewrite Z.gtb_ltb, Z.ltb_irrefl.
  - destruct MAX_ROWS as [ | p | p ]; [ lia | lia | ].
    by rewrite (first_clause_rewritten_negative p None s _ Hrw).
Qed.



Lemma anywhere_mono (Q Q' : option ascii -> str -> bool) :
  (forall p s, Q p s = true -> Q' p s = true) ->
  forall prev rest, anywhere Q prev rest = true -> anywhere Q' prev rest = true.
Proof.
  intros HQ prev rest. revert prev.
  induction rest as [ | c rest IH ]; intros prev; cbn [anywhere];
    rewrite !orb_true_iff; intros [ H | H ]; auto.
Qed.

Lemma lit_prefix_last_word ic w : forall prev rest l,
  wordlike w -> w <> [] -> lit_prefix ic w rest = Some l ->
  wordy (last_of prev l) = true.
Proof.
  induction w as [ | c w IH ]; intros prev rest l Hw Hne; [ done | ].
  apply Forall_cons in Hw as [Hc Hw]. cbn [lit_prefix].
  destruct rest as [ | x rest ]; [ done | ].
  destruct (same ic c x) eqn:Hs; [ | done ].
  destruct (lit_prefix ic w rest) as [ l' | ] eqn:E; [ | done ].
  intros [= <-]. rewrite last_of_cons.
  destruct w as [ | c' w ].
  - injection E as <-. cbn. by rewrite (same_word _ _ _ Hs).
  - by apply (IH (Some x) rest l').
Qed.

(** Where a clause stands, the word [limit] stands. *)
Lemma clause_here_kw_here ic prev rest md :
  clause_here ic prev rest = Some md ->
  kw_here ic ["limit" : str] prev rest = true.
Proof.
  unfold clause_here, kw_here, kw_after.
  destruct (boundary prev rest); [ | done ].
  destruct (lit_prefix ic "limit" rest) as [ l | ] eqn:Hl; [ | done ].
  cbv zeta. cbn [existsb andb]. rewrite orb_false_r.
  rewrite <- lit_prefix_word_end, Hl.
  destruct (take_while is_space (drop (length l) rest)) as [ | y w ] eqn:Hw;
    [ done | ].
  intros _. unfold boundary.
  rewrite (lit_prefix_last_word ic "limit" prev rest l); [ | | done | done ].
  2:{ by repeat constructor. }
  pose proof (take_while_Forall is_space (drop (length l) rest)) as Hsp.
  rewrite Hw in Hsp. apply Forall_cons in Hsp as [Hy _].
  pose proof (take_drop_while is_space (drop (length l) rest)) as Hd.
  rewrite Hw in Hd. rewrite <- Hd. cbn [app head wordy].
  by rewrite (space_not_word y Hy).
Qed.

(** The test of line 194 passes whenever the search of line 197 finds a
    clause. *)
Lemma limit_int_word (l : str) h :
  re_search false LIMIT_INT l = Some h ->
  anywhere (kw_here false ["limit" : str]) None l = true.
Proof.
  intros Hh.
  assert (Ha : anywhere (hits false LIMIT_INT) None l = true).
  { rewrite <- search_hits. apply bool_decide_eq_true_2.
    unfold re_search in Hh. rewrite Hh. eauto. }
  revert Ha. apply anywhere_mono. intros p s0. unfold hits.
  rewrite limit_int_pattern, run_limit_pattern.
  destruct (clause_here false p s0) as [ [m d] | ] eqn:E; [ | done ].
  intros _. by apply (clause_here_kw_here false p s0 (m, d)).
Qed.

(** C1 (amended). On a text that passes the tests before the LIMIT
    handling, when the search of line 197 finds in the lowered trimmed
    text a clause whose integer [int] converts and which exceeds the cap,
    the validator does not fail: it returns the trimmed text with every
    match of the clause pattern, in either case, replaced by
    [LIMIT MAX_ROWS] and every other character kept; this is what [re.sub]
    without a count does.  The cap is one that an f-string formats, as
    every integer that [int] returns is. *)
Theorem validate_sql_limit_rewritten MAX_ROWS sql h :
  nonempty sql = true ->
  is_Some (re_match true READ_QUERY (strip sql)) ->
  re_search true BANNED (strip sql) = None ->
  _single_statement (strip sql) = true ->
  (has_from (lower (strip sql)) = true ->
   contains "mart." (lower (strip sql)) = true) ->
  re_search false LIMIT_INT (lower (strip sql)) = Some h ->
  int_raises (group1 h) = false ->
  (int (group1 h) > MAX_ROWS)%Z ->
  of_int_raises MAX_ROWS = false ->
  validate_sql MAX_ROWS sql
    = Ok (re_sub true LIMIT_CLAUSE ("LIMIT " ++ of_int MAX_ROWS) (strip sql)) /\
  rewritten ("LIMIT " ++ of_int MAX_ROWS) None (strip sql)
    (re_sub true LIMIT_CLAUSE ("LIMIT " ++ of_int MAX_ROWS) (strip sql)).
Proof.
  intros Hne Hread Hban Hone Hsch Hh Hint Hgt Hfmt.
  split; [ | apply limit_sub_rewritten ].
  unfold validate_sql. rewrite Hne. cbn [negb].
  rewrite (bool_decide_eq_true_2 _ Hread). cbn [negb].
  rewrite Hban, bool_decide_eq_false_2 by (by intros [? ?]).
  rewrite Hone. cbn [negb].
  assert (Hs : has_from (lower (strip sql))
               && negb (contains "mart." (lower (strip sql))) = false).
  { destruct (has_from (lower (strip sql))); [ | done ]. by rewrite Hsch. }
  rewrite Hs, limit_word_search, (limit_int_word _ _ Hh). cbn [negb].
  rewrite Hh, Hint. rewrite (proj2 (Z.gtb_gt _ _)) by lia.
  by rewrite Hfmt.
Qed.

(** C1 as stated fails: the second clause is rewritten too, so the result is
    not the text with its first clause alone replaced; and the white space
    around the text is dropped. *)
Lemma validate_sql_rewrites_every_limit :
  let sql : str := "select 1 limit 99999 limit 7" in
  (validate_sql 2000 sql = Ok ("select 1 LIMIT 2000 LIMIT 2000" : str) /\
   spec_sub_first "LIMIT 2000" None sql = ("select 1 LIMIT 2000 limit 7" : str) /\
   validate_sql 2000 sql <> Ok (spec_sub_first "LIMIT 2000" None sql)) /\
  validate_sql 2000 " select 1 limit 99999 "
    = Ok ("select 1 LIMIT 2000" : str).
Proof.
  split; [ split; [ reflexivity | split; [ reflexivity | discriminate ] ] | ].
  reflexivity.
Qed.

Lemma validate_sql_limit_rewritten_witness :
  validate_sql 2000 " SELECT * FROM mart.fact_listings LIMIT 100000 "
    = Ok ("SELECT * FROM mart.fact_listings LIMIT 2000" : str) /\
  rewritten "LIMIT 2000" None
    ("SELECT * FROM mart.fact_listings LIMIT 100000" : str)
    ("SELECT * FROM mart.fact_listings LIMIT 2000" : str).
Proof.
  apply (validate_sql_limit_rewritten 2000
           " SELECT * FROM mart.fact_listings LIMIT 100000 "
           ("limit 100000" : str, Some ("100000" : str))).
  - reflexivity.
  - vm_compute. eauto.
  - reflexivity.
  - reflexivity.
  - intros _. reflexivity.
  - reflexivity.
  - reflexivity.
  - reflexivity.
  - reflexivity.
Defined.

(** On a text that passes the tests before the LIMIT handling, when the
    search of line 197 finds a clause whose integer has more digits than
    [int] converts, the validator raises [ValueError], whatever the cap. *)
Theorem validate_sql_integer_too_long MAX_ROWS sql h :
  nonempty sql = true ->
  is_Some (re_match true READ_QUERY (strip sql)) ->
  re_search true BANNED (strip sql) = None ->
  _single_statement (strip sql) = true ->
  (has_from (lower (strip sql)) = true ->
   contains "mart." (lower (strip sql)) = true) ->
  re_search false LIMIT_INT (lower (strip sql)) = Some h ->
  int_raises (group1 h) = true ->
  validate_sql MAX_ROWS sql = Err ValueError.
Proof.
  intros Hne Hread Hban Hone Hsch Hh Hint.
  unfold validate_sql. rewrite Hne. cbn [negb].
  rewrite (bool_decide_eq_true_2 _ Hread). cbn [negb].
  rewrite Hban, bool_decide_eq_false_2 by (by intros [? ?]).
  rewrite Hone. cbn [negb].
  assert (Hs : has_from (lower (strip sql))
               && negb (contains "mart." (lower (strip sql))) = false).
  { destruct (has_from (lower (strip sql))); [ | done ]. by rewrite Hsch. }
  rewrite Hs, limit_word_search, (limit_int_word _ _ Hh). cbn [negb].
  by rewrite Hh, Hint.
Qed.

Lemma validate_sql_integer_too_long_witness :
  validate_sql 2000 long_limit = Err ValueError.
Proof.
  apply (validate_sql_integer_too_long 2000 long_limit
           (("limit " : str) ++ replicate 4301 "9"%char,
            Some (replicate 4301 "9"%char))).
  - reflexivity.
  - vm_compute. eauto.
  - vm_compute. reflexivity.
  - vm_compute. reflexivity.
  - intros H. vm_compute in H. discriminate H.
  - vm_compute. reflexivity.
  - vm_compute. reflexivity.
Defined.

(** C2, at the input on which the code misses the cap: the first clause is
    within the cap, so nothing is rewritten, and the result keeps a later
    clause far above it. *)
Theorem validate_sql_later_limit_uncapped :
  let sql : str :=
    "SELECT * FROM (SELECT * FROM mart.fact_listings LIMIT 10) t LIMIT 100000" in
  validate_sql 2000 sql = Ok sql /\
  clause_ints None sql = [10%Z; 100000%Z].
Proof. split; reflexivity. Qed.

(** What does hold of every result: it passes every test of the validator
    again, it is trimmed, and its first clause, if it has one, is within
    the cap. *)
Lemma validate_sql_result MAX_ROWS sql r :
  validate_sql MAX_ROWS sql = Ok r ->
  accepted r = true /\ strip r = r /\
  match first_clause None r with
  | Some (_, d) => (int d <= MAX_ROWS)%Z
  | None => True
  end.
Proof.
  intros (Hne & Hacc & _ & ->)%validate_sql_Ok.
  destruct (capped_stable MAX_ROWS (strip sql) (strip_strip sql) Hacc)
    as (Hacc' & Hs' & Hcap).
  repeat split; [ done | done | ].
  unfold capped in Hcap at 1.
  destruct (first_clause None (capped MAX_ROWS (strip sql))) as [ [m d] | ] eqn:Hf;
    [ | done ].
  destruct (int d >? MAX_ROWS)%Z eqn:E;
    [ | rewrite Z.gtb_ltb in E; apply Z.ltb_ge in E; lia ].
  exfalso.
  pose proof (limit_sub_rewritten ("LIMIT " ++ of_int MAX_ROWS) None
                (capped MAX_ROWS (strip sql))) as Hrw.
  fold (re_sub true LIMIT_CLAUSE ("LIMIT " ++ of_int MAX_ROWS)
          (capped MAX_ROWS (strip sql))) in Hrw.
  rewrite Hcap in Hrw. apply Z.gtb_gt in E.
  destruct (Z_le_gt_dec 0 MAX_ROWS) as [ Hpos | Hneg ].
  - pose proof (first_clause_rewritten MAX_ROWS None _ _ Hpos Hrw) as Hfc.
    rewrite Hf in Hfc. injection Hfc as -> ->.
    rewrite int_of_int in E by done. lia.
  - destruct MAX_ROWS as [ | p | p ]; [ lia | lia | ].
    by rewrite (first_clause_rewritten_negative p None _ _ Hrw) in Hf.
Qed.

End ValidatorResult.

(** ** Further properties of the validator *)

Section ValidatorMore.
Import Chars Str Re Scan Validator.

Implicit Types (sql s r a b x : str) (MAX_ROWS : Z).

(** Every result of the validator is trimmed and passes again each of
    the tests that come before the LIMIT handling, and the test for the
    word LIMIT. *)
Theorem validate_sql_result_checks MAX_ROWS sql r :
  validate_sql MAX_ROWS sql = Ok r ->
  strip r = r /\
  is_Some (re_match true READ_QUERY r) /\
  re_search true BANNED r = None /\
  _single_statement r = true /\
  (has_from (lower r) = true -> contains "mart." (lower r) = true) /\
  is_Some (re_search false LIMIT_WORD (lower r)).
Proof.
  intros (Hacc & Hs & Hfirst)%validate_sql_result.
  apply accepted_inv in Hacc as (Hread & Hban & Hst & Hsch & Hlim).
  split; [ done | ]. split.
  { pose proof (read_query_hits r) as H. rewrite Hread in H.
    by apply bool_decide_eq_true_1 in H. }
  split.
  { pose proof (banned_search r) as H. rewrite Hban in H.
    apply bool_decide_eq_false_1 in H.
    destruct (re_search true BANNED r); [ by destruct H | done ]. }
  split.
  { by rewrite single_statement_statements, Hs. }
  split.
  { intros Hf. rewrite Hf in Hsch. by destruct (contains "mart." (lower r)). }
  pose proof (limit_word_search (lower r)) as H. rewrite Hlim in H.
  apply bool_decide_eq_false_1 in H.
  destruct (re_search false LIMIT_WORD (lower r)); [ eauto | done ].
Qed.

Lemma validate_sql_result_checks_witness :
  validate_sql 2000 " with t as (select 1) select * from mart.dim_time limit 9000;"
    = Ok ("with t as (select 1) select * from mart.dim_time LIMIT 2000;" : str) /\
  _single_statement "with t as (select 1) select * from mart.dim_time LIMIT 2000;"
    = true.
Proof.
  split; [ reflexivity | ].
  apply (validate_sql_result_checks 2000
           " with t as (select 1) select * from mart.dim_time limit 9000;").
  reflexivity.
Defined.

(** Unless the first [LIMIT <integer>] clause exceeds the cap, the result
    is the trimmed input, character for character; so a LIMIT that no
    integer follows is passed on as it is. *)
Theorem validate_sql_unchanged MAX_ROWS sql r :
  validate_sql MAX_ROWS sql = Ok r ->
  match re_search false LIMIT_INT (lower (strip sql)) with
  | Some h => (int (group1 h) <= MAX_ROWS)%Z
  | None => True
  end ->
  r = strip sql.
Proof.
  intros (_ & _ & _ & ->)%validate_sql_Ok. rewrite search_limit_int_top.
  intros H. apply capped_same.
  by destruct (first_clause None (strip sql)) as [ [m d] | ].
Qed.

Lemma validate_sql_unchanged_witness :
  validate_sql 2000 "  select a from mart.dim_time limit all  "
    = Ok ("select a from mart.dim_time limit all" : str) /\
  ("select a from mart.dim_time limit all" : str)
    = strip "  select a from mart.dim_time limit all  ".
Proof.
  split; [ reflexivity | ].
  apply (validate_sql_unchanged 2000
           "  select a from mart.dim_time limit all  "); [ reflexivity | ].
  vm_compute. exact I.
Defined.

Lemma lstrip_blank a x : blank a -> lstrip (a ++ x) = lstrip x.
Proof.
  induction 1 as [ | c a Hc Ha IH ]; [ reflexivity | ].
  cbn [app lstrip]. by rewrite Hc.
Qed.

Lemma rstrip_blank x b : blank b -> rstrip (x ++ b) = rstrip x.
Proof.
  intros Hb. unfold rstrip. rewrite reverse_app, lstrip_blank; [ done | ].
  by apply Forall_reverse.
Qed.

Lemma lstrip_all_blank b : blank b -> lstrip b = [].
Proof.
  induction 1 as [ | c b Hc Hb IH ]; [ reflexivity | ].
  cbn [lstrip]. by rewrite Hc.
Qed.

Lemma rstrip_all_blank b : blank b -> rstrip b = [].
Proof.
  intros Hb. unfold rstrip. rewrite lstrip_all_blank; [ done | ].
  by apply Forall_reverse.
Qed.

Lemma strip_blank_right x b : blank b -> strip (x ++ b) = strip x.
Proof.
  intros Hb. unfold strip.
  destruct (lstrip_split x) as (a & Hx & Ha).
  rewrite Hx at 1. rewrite <- app_assoc, lstrip_blank by done.
  destruct (lstrip x) as [ | c y ] eqn:E.
  - cbn [app]. rewrite (lstrip_all_blank b Hb). reflexivity.
  - pose proof (lstrip_head x c) as Hc. rewrite E in Hc.
    cbn [app lstrip]. rewrite (Hc eq_refl).
    by rewrite app_comm_cons, rstrip_blank.
Qed.

Lemma strip_blank_around a x b :
  blank a -> blank b -> strip (a ++ x ++ b) = strip x.
Proof.
  intros Ha Hb. rewrite app_assoc, strip_blank_right by done.
  unfold strip. by rewrite lstrip_blank.
Qed.

(** White space around a candidate changes nothing: the verdict and the
    result are those of the candidate alone. *)
Theorem validate_sql_surrounding_space MAX_ROWS a sql b :
  blank a -> blank b -> nonempty sql = true ->
  validate_sql MAX_ROWS (a ++ sql ++ b) = validate_sql MAX_ROWS sql.
Proof.
  intros Ha Hb Hne. unfold validate_sql.
  rewrite strip_blank_around, Hne by done.
  destruct a; [ | reflexivity ]. destruct sql; [ done | reflexivity ].
Qed.

Lemma validate_sql_surrounding_space_witness :
  blank [nl; tab] /\ blank [nl] /\
  validate_sql 2000 ([nl; tab] ++ ("SELECT a FROM mart.dim_time LIMIT 3" : str) ++ [nl])
    = Ok ("SELECT a FROM mart.dim_time LIMIT 3" : str).
Proof.
  assert (Ha : blank [nl; tab]) by (by repeat constructor).
  assert (Hb : blank [nl]) by (by repeat constructor).
  split; [ exact Ha | split; [ exact Hb | ] ].
  exact (validate_sql_surrounding_space 2000 [nl; tab]
           "SELECT a FROM mart.dim_time LIMIT 3" [nl] Ha Hb eq_refl).
Defined.

End ValidatorMore.

(** ** Statements and semicolons *)

Section StatementFacts.
Import Chars Str Re Scan Validator.

Implicit Types (s x y b z : str).

Local Ltac all_chars c :=
  destruct c as [[] [] [] [] [] [] [] []]; vm_compute; try reflexivity;
  try discriminate; try (intros; discriminate); try (intros; reflexivity).

Lemma space_not_semicolon c : is_space c = true -> eqb c ";" = false.
Proof. all_chars c. Qed.

Lemma blank_no_semicolon b : blank b -> Forall (fun c => eqb c ";" = false) b.
Proof. intros H. eapply Forall_impl; [ exact H | apply space_not_semicolon ]. Qed.

Lemma statements_blank seen b :
  blank b -> statements seen b = if seen then 1 else 0.
Proof.
  intros Hb. rewrite <- (app_nil_r b) at 1.
  rewrite statements_app by (by apply blank_no_semicolon).
  rewrite (existsb_blank b Hb), orb_false_r. reflexivity.
Qed.

Lemma statements_blank_right y b : forall seen,
  blank b -> statements seen (y ++ b) = statements seen y.
Proof.
  intros seen Hb. revert seen. induction y as [ | c y IH ]; intros seen.
  - cbn [app]. by rewrite statements_blank.
  - cbn [app statements]. by rewrite !IH.
Qed.

Lemma statements_strip s : statements false (strip s) = statements false s.
Proof.
  destruct (strip_split s) as (a & b & Hs & Ha & Hb).
  rewrite Hs at 2.
  rewrite statements_app by (by apply blank_no_semicolon).
  rewrite (existsb_blank a Ha). cbn [orb].
  by rewrite statements_blank_right.
Qed.

Lemma statements_semicolon x z : forall seen,
  statements seen (x ++ ";"%char :: z)
    = statements seen x + statements false z.
Proof.
  induction x as [ | c x IH ]; intros seen.
  - cbn [app statements]. change (eqb ";" ";") with true. cbn. reflexivity.
  - cbn [app statements]. destruct (eqb c ";"); rewrite IH; lia.
Qed.

Lemma statements_at_least x : forall seen,
  (if seen
      || existsb (fun c => negb (is_space c) && negb (eqb c ";")) x
   then 1 else 0) <= statements seen x.
Proof.
  induction x as [ | c x IH ]; intros seen.
  - cbn. by rewrite orb_false_r.
  - cbn [statements existsb]. destruct (eqb c ";") eqn:E.
    + rewrite andb_false_r. cbn [orb]. specialize (IH false). cbn [orb] in IH.
      destruct seen, (existsb _ x); cbn in *; lia.
    + rewrite andb_true_r. specialize (IH (seen || negb (is_space c))).
      by rewrite <- orb_assoc in IH.
Qed.

(** The single-statement test counts the segments between semicolons that
    have a character other than white space: a semicolon at the end, with
    or without white space after it, does not count; text on both sides of
    a semicolon is two statements; and without a semicolon the test asks
    only for a character that is not white space. *)
Theorem single_statement_semicolons :
  (forall s b, blank b ->
      _single_statement (s ++ ";"%char :: b) = _single_statement s) /\
  (forall x y,
      existsb (fun c => negb (is_space c) && negb (eqb c ";")) x = true ->
      existsb (fun c => negb (is_space c) && negb (eqb c ";")) y = true ->
      _single_statement (x ++ ";"%char :: y) = false) /\
  (forall s, ";"%char ∉ s ->
      _single_statement s = existsb (fun c => negb (is_space c)) s).
Proof.
  split; [ | split ].
  - intros s b Hb. rewrite !single_statement_statements, !statements_strip.
    rewrite statements_semicolon, (statements_blank false b) by done.
    f_equal. lia.
  - intros x y Hx Hy. rewrite single_statement_statements, statements_strip.
    rewrite statements_semicolon.
    pose proof (statements_at_least x false) as H1.
    pose proof (statements_at_least y false) as H2.
    rewrite Hx in H1. rewrite Hy in H2. cbn [orb] in *.
    apply Nat.eqb_neq. lia.
  - intros s Hs. rewrite single_statement_statements, statements_strip.
    rewrite <- (app_nil_r s) at 1. rewrite statements_app.
    + cbn [orb statements]. by destruct (existsb _ s).
    + apply Forall_forall. intros c Hc. destruct (eqb c ";") eqn:E; [ | done ].
      apply eqb_eq in E as ->. done.
Qed.

Lemma single_statement_semicolons_witness :
  blank " " /\
  _single_statement ("select 1 limit 1" ++ ";"%char :: " ") = true.
Proof.
  assert (Hb : blank " ") by (by repeat constructor).
  split; [ exact Hb | ].
  exact (proj1 single_statement_semicolons "select 1 limit 1" " " Hb).
Defined.

End StatementFacts.

(** ** All the clauses of a rewriting *)

Section ClauseInts.
Import Chars Str Re Scan Validator.

Implicit Types (prev q : option ascii) (rest s m d r a z f repl sql : str).
Implicit Types (MAX_ROWS : Z).

Lemma clause_ints_wordy q q' s :
  wordy q = wordy q' -> clause_ints q s = clause_ints q' s.
Proof.
  intros H. destruct s; cbn [clause_ints]; by rewrite (clause_here_wordy _ _ _ H).
Qed.

Lemma clause_ints_no_l a z : forall q,
  Forall (fun c => lower_char c <> "l"%char) a ->
  clause_ints q (a ++ z) = clause_ints (last_of q a) z.
Proof.
  intros q Ha. revert q. induction Ha as [ | c a Hc Ha IH ]; intros q;
    [ reflexivity | ].
  cbn [app clause_ints]. rewrite IH, last_of_cons.
  destruct (clause_here true q (c :: a ++ z)) eqn:E; [ | reflexivity ].
  by apply clause_here_at_l in E.
Qed.

Lemma fragment_tail_no_l f :
  fragment f ->
  exists c a, f = c :: a /\ Forall (fun x => lower_char x <> "l"%char) a.
Proof.
  intros [c0 c1 c2 c3 c4 t x H0 H1 H2 H3 H4 Ht Hx].
  exists c0, (c1 :: c2 :: c3 :: c4 :: t ++ [x]). split; [ done | ].
  repeat (constructor; [ congruence | ]).
  apply Forall_app. split.
  - eapply Forall_impl; [ exact Ht | apply tail_char_not_l ].
  - apply Forall_singleton. by apply tail_char_not_l, digit_tail_char.
Qed.

(** The clauses of a text that starts with a fragment: the one at its
    start, if it is one, and those after the fragment. *)
Lemma clause_ints_fragment prev f z :
  fragment f ->
  clause_ints prev (f ++ z)
    = match clause_here true prev (f ++ z) with
      | Some (_, d) => [int d]
      | None => []
      end ++ clause_ints (last_of prev f) z.
Proof.
  intros Hf. destruct (fragment_tail_no_l f Hf) as (c & a & -> & Ha).
  cbn [app clause_ints]. f_equal.
  by rewrite clause_ints_no_l, last_of_cons.
Qed.

Lemma clause_ints_rewritten n prev rest r :
  (0 <= n)%Z ->
  rewritten ("LIMIT " ++ of_int n) prev rest r ->
  clause_ints prev r = map (fun _ => n) (clause_ints prev rest).
Proof.
  intros Hn Hrw.
  induction Hrw as [ prev | prev c rest r Hc Hr IH | prev m d rest r Hc Hr IH ].
  - cbn [clause_ints]. by rewrite clause_here_nil.
  - cbn [clause_ints]. rewrite Hc, IH.
    by rewrite (clause_here_kept _ _ _ _ _ (replacement_fragment n) Hc Hr).
  - pose proof Hc as Hc'.
    apply clause_here_clause in Hc as (after & Happ & Hcl).
    apply app_inv_head in Happ as <-.
    rewrite (clause_ints_fragment prev m rest) by (by eapply clause_fragment).
    rewrite (clause_ints_fragment prev _ r) by apply replacement_fragment.
    rewrite Hc'. 
    assert (Hrepl : clause_here true prev (("LIMIT " ++ of_int n) ++ r)
                    = Some ("LIMIT " ++ of_int n, of_int n)).
    { apply clause_clause_here, replacement_clause; [ done | by destruct Hcl | ].
      rewrite (rewritten_head _ _ _ _ (clause_last _ _ _ _ _ Hcl prev) Hr).
      by destruct Hcl. }
    rewrite Hrepl, int_of_int by done. cbn [map app]. f_equal.
    rewrite <- IH. apply clause_ints_wordy.
    rewrite (fragment_last _ _ (replacement_fragment n)).
    by rewrite (clause_last _ _ _ _ _ Hcl).
Qed.

(** When the first clause of an accepted text exceeds a cap that is not
    negative, the result has as many [LIMIT <integer>] clauses as the
    trimmed text and the integer of each is the cap. *)
Theorem validate_sql_rewrite_caps_all MAX_ROWS sql r h :
  (0 <= MAX_ROWS)%Z ->
  validate_sql MAX_ROWS sql = Ok r ->
  re_search false LIMIT_INT (lower (strip sql)) = Some h ->
  (int (group1 h) > MAX_ROWS)%Z ->
  clause_ints None r
    = map (fun _ => MAX_ROWS) (clause_ints None (strip sql)).
Proof.
  intros Hn (_ & _ & _ & ->)%validate_sql_Ok. rewrite search_limit_int_top.
  destruct (first_clause None (strip sql)) as [ [m d] | ] eqn:Hf; [ | done ].
  intros [= <-]. change (group1 (lower m, Some d)) with d. intros Hgt.
  apply clause_ints_rewritten; [ done | ].
  by apply (capped_rewritten _ _ m d).
Qed.

Lemma validate_sql_rewrite_caps_all_witness :
  validate_sql 2000 "select 1 limit 99999 limit 7"
    = Ok ("select 1 LIMIT 2000 LIMIT 2000" : str) /\
  clause_ints None ("select 1 LIMIT 2000 LIMIT 2000" : str)
    = map (fun _ => 2000%Z)
        (clause_ints None (strip "select 1 limit 99999 limit 7")).
Proof.
  split; [ reflexivity | ].
  refine (validate_sql_rewrite_caps_all 2000 "select 1 limit 99999 limit 7" _
            (lower "limit 99999", Some ("99999" : str)) _ _ _ _);
    [ lia | reflexivity | reflexivity | vm_compute; reflexivity ].
Defined.

End ClauseInts.

(** ** Coerced values are JSON-safe *)

Section CoercionMore.
Import Jsonable.
Context {Decimal Float Date Opaque : Type}.
Variable float : Decimal -> Float.
Variable isoformat : Date -> str.

Lemma json_safe_fixed :
  forall x : Jsonable.value Decimal Float Date Opaque,
    json_safe x = true -> to_jsonable float isoformat x = x.
Proof.
  fix IH 1.
  intros [ | b | n | s | f | d | d | items | xs | xs | o ]; simpl; try done.
  - intros H. f_equal. induction items as [ | [k v] items IHitems ]; simpl in *.
    + reflexivity.
    + apply andb_true_iff in H as [Hv Hitems].
      by rewrite (IH v Hv), IHitems.
  - intros H. f_equal. induction xs as [ | v xs IHxs ]; simpl in *.
    + reflexivity.
    + apply andb_true_iff in H as [Hv Hxs].
      by rewrite (IH v Hv), IHxs.
Qed.

(** No [Decimal], date or tuple is left at any depth of a coerced value,
    and the values that coercion leaves as they are, are exactly the
    values without one. *)
Theorem to_jsonable_json_safe (x : Jsonable.value Decimal Float Date Opaque) :
  json_safe (to_jsonable float isoformat x) = true /\
  (to_jsonable float isoformat x = x <-> json_safe x = true).
Proof.
  split; [ apply coerce_json_safe | ].
  split.
  - intros H. rewrite <- H. apply coerce_json_safe.
  - apply json_safe_fixed.
Qed.

End CoercionMore.

Lemma to_jsonable_json_safe_witness :
  Jsonable.json_safe
    (Jsonable.VList [Jsonable.VInt 1; Jsonable.VStr "a"]
       : Jsonable.value unit unit unit unit) = true /\
  Jsonable.to_jsonable (fun _ : unit => tt) (fun _ : unit => ("2024-01-01" : str))
    (Jsonable.VList [Jsonable.VInt 1; Jsonable.VStr "a"]
       : Jsonable.value unit unit unit unit)
  = Jsonable.VList [Jsonable.VInt 1; Jsonable.VStr "a"].
Proof.
  split; [ reflexivity | ].
  apply (proj2 (proj2 (to_jsonable_json_safe (fun _ : unit => tt)
                         (fun _ : unit => ("2024-01-01" : str))
                         (Jsonable.VList [Jsonable.VInt 1; Jsonable.VStr "a"])))).
  reflexivity.
Defined.

(** ** The JSON candidate *)

Section BridgeMore.
Import Chars Str Re Scan Bridge.

Implicit Types (rest s m : str) (prev : option ascii).
Implicit Types (text : option str).

Lemma search_json_span_parts prev rest m g :
  search_from false JSON_SPAN prev rest = Some (m, g) ->
  exists pre mid post,
    rest = pre ++ m ++ post /\ m = open_brace :: mid ++ [close_brace].
Proof.
  revert prev. induction rest as [ | x rest IH ]; intros prev;
    rewrite search_json_span; [ done | ].
  cbn [span_here]. destruct (eqb x "{") eqn:E.
  - apply eqb_eq in E as ->.
    destruct (upto_last "}" rest) as [ m' | ] eqn:Hu; simpl.
    + intros [= <- <-]. apply upto_last_inv in Hu as (mid & post & -> & -> & _).
      exists [], mid, post. split; [ | done ].
      cbn [app]. by rewrite <- app_assoc.
    + intros (pre & mid & post & -> & ->)%IH.
      by exists ("{"%char :: pre), mid, post.
  - intros (pre & mid & post & -> & ->)%IH. by exists (x :: pre), mid, post.
Qed.

(** The candidate is the trimmed text, or a part of it from an opening
    brace through a closing brace. *)
Lemma extract_json_cases text :
  _extract_json text = strip (default [] text) \/
  exists pre mid post,
    strip (default [] text) = pre ++ _extract_json text ++ post /\
    _extract_json text = open_brace :: mid ++ [close_brace].
Proof.
  unfold _extract_json.
  destruct (startswith "{" _ && endswith "}" _); [ by left | ].
  unfold re_search.
  destruct (search_from false JSON_SPAN None _) as [ [m g] | ] eqn:E;
    [ | by left ].
  right. cbn [fst]. by apply search_json_span_parts in E.
Qed.

Lemma extract_json_of_trimmed text :
  _extract_json (Some (strip (default [] text))) = _extract_json text.
Proof.
  unfold _extract_json.
  change (default [] (Some (strip (default [] text))))
    with (strip (default [] text)).
  by rewrite strip_strip.
Qed.

Lemma braced_trimmed mid :
  strip (open_brace :: mid ++ [close_brace]) = open_brace :: mid ++ [close_brace].
Proof.
  apply strip_fix.
  - by intros c [= <-].
  - intros c. rewrite app_comm_cons, last_snoc. by intros [= <-].
Qed.

Lemma extract_json_trimmed text :
  strip (_extract_json text) = _extract_json text.
Proof.
  destruct (extract_json_cases text) as [ He | (pre & mid & post & _ & Hm) ].
  - rewrite He. apply strip_strip.
  - rewrite Hm. apply braced_trimmed.
Qed.

Lemma extract_json_part text :
  exists a b, default [] text = a ++ _extract_json text ++ b.
Proof.
  destruct (strip_split (default [] text)) as (a & b & Hs & _ & _).
  destruct (extract_json_cases text) as [ He | (pre & mid & post & Ht & _) ].
  - exists a, b. by rewrite He.
  - exists (a ++ pre), (post ++ b). rewrite Hs, Ht.
    by rewrite <- !app_assoc.
Qed.

(** The JSON candidate has no white space around it, it is a contiguous
    part of the text it is taken from, and taking the candidate of a
    candidate gives it back. *)
Theorem extract_json_trimmed_part text :
  strip (_extract_json text) = _extract_json text /\
  (exists a b, default [] text = a ++ _extract_json text ++ b) /\
  _extract_json (Some (_extract_json text)) = _extract_json text.
Proof.
  split; [ apply extract_json_trimmed | ].
  split; [ apply extract_json_part | ].
  destruct (extract_json_cases text) as [ He | (pre & mid & post & _ & Hm) ].
  - transitivity (_extract_json (Some (strip (default [] text))));
      [ by rewrite He | apply extract_json_of_trimmed ].
  - rewrite Hm. unfold _extract_json at 1.
    change (default [] (Some (open_brace :: mid ++ [close_brace])))
      with (open_brace :: mid ++ [close_brace]).
    rewrite braced_trimmed.
    assert (H1 : startswith "{" (open_brace :: mid ++ [close_brace]) = true)
      by (by apply (startswith_head "{")).
    assert (H2 : endswith "}" (open_brace :: mid ++ [close_brace]) = true).
    { apply (endswith_last "}"). by rewrite app_comm_cons, last_snoc. }
    by rewrite H1, H2.
Qed.

(** When the bridge returns a value, the endpoint answered with status 200
    and the value is what [json.loads] makes of a contiguous part of the
    [response] field that has no white space around it. *)
Theorem ollama_json_value (Json : Type) (json_loads : str -> option Json)
  (r : reply) (j : Json) :
  ollama_json json_loads r = inl j ->
  status_code r = 200%Z /\
  exists raw a b,
    default [] (response r) = a ++ raw ++ b /\
    strip raw = raw /\ json_loads raw = Some j.
Proof.
  unfold ollama_json. destruct (Z.eqb_spec (status_code r) 200) as [ Hst | ];
    cbn [negb]; [ | done ].
  destruct (json_loads _) as [ j' | ] eqn:Hl; [ | done ].
  intros [= ->]. split; [ done | ].
  destruct (extract_json_part (Some (default [] (response r))))
    as (a & b & Hab).
  exists (_extract_json (Some (default [] (response r)))), a, b.
  split; [ done | ]. split; [ apply extract_json_trimmed | done ].
Qed.

Lemma ollama_json_value_witness :
  status_code {| status_code := 200; text := [];
                 response := Some ("ok: {1} " : str) |} = 200%Z /\
  exists raw a b,
    ("ok: {1} " : str) = a ++ raw ++ b /\
    strip raw = raw /\
    (fun s : str => Some (length s)) raw = Some 3.
Proof.
  apply (ollama_json_value nat (fun s : str => Some (length s))
           {| status_code := 200; text := [];
              response := Some ("ok: {1} " : str) |} 3).
  reflexivity.
Defined.

End BridgeMore.

(** ** More on the preview summarizer *)

Section SummaryMore.
Import Jsonable Summary.
Context {Decimal Float Date Opaque : Type}.

Implicit Types (r first : gmap str (Jsonable.value Decimal Float Date Opaque)).
Implicit Types (rows more : list (gmap str (Jsonable.value Decimal Float Date Opaque))).
Implicit Types (c : str).

Lemma stats_eq (s1 s2 : stats) :
  preview_row_count s1 = preview_row_count s2 -> nulls s1 = nulls s2 ->
  s1 = s2.
Proof. destruct s1, s2. cbn. by intros -> ->. Qed.

Lemma summarize_rows_ext first first' rows rows' :
  dom first = dom first' ->
  length rows = length rows' ->
  (forall c, c ∈ dom first ->
     null_rows c (first :: rows) = null_rows c (first' :: rows')) ->
  summarize_rows (first :: rows) = summarize_rows (first' :: rows').
Proof.
  intros Hdom Hlen Hn. apply stats_eq.
  - cbn. by rewrite Hlen.
  - apply map_eq. intros k. rewrite !summarize_rows_lookup, <- Hdom.
    case_bool_decide; [ | done ]. by rewrite Hn.
Qed.

(** The summary reads a later row only at the columns of the first row,
    and there only whether [get] gives [None]: later rows that agree on
    that give the same summary. *)
Theorem summarize_rows_reads first rows rows' :
  Forall2 (fun r r' =>
    forall c, c ∈ dom first -> get_is_None r c = get_is_None r' c) rows rows' ->
  summarize_rows (first :: rows) = summarize_rows (first :: rows').
Proof.
  intros H. apply summarize_rows_ext; [ done | by eapply Forall2_length | ].
  intros c Hc. rewrite !null_rows_cons. f_equal.
  induction H as [ | r r' rows rows' Hr _ IH ]; [ done | ].
  by rewrite !null_rows_cons, (Hr c Hc), IH.
Qed.

(** The order of the rows after the first does not matter. *)
Theorem summarize_rows_permutation first rows rows' :
  rows ≡ₚ rows' ->
  summarize_rows (first :: rows) = summarize_rows (first :: rows').
Proof.
  intros H. apply summarize_rows_ext; [ done | by rewrite H | ].
  intros c _. rewrite !null_rows_cons. f_equal.
  unfold null_rows. by rewrite H.
Qed.

(** More rows at the end add their number to the row count and, column
    by column of the first row, their [None] values to the null counts. *)
Theorem summarize_rows_more first rows more :
  preview_row_count (summarize_rows (first :: rows ++ more))
    = preview_row_count (summarize_rows (first :: rows)) + length more /\
  forall c,
    nulls (summarize_rows (first :: rows ++ more)) !! c
      = (fun n => n + null_rows c more)
          <$> nulls (summarize_rows (first :: rows)) !! c.
Proof.
  split.
  - cbn. rewrite length_app. lia.
  - intros c. rewrite !summarize_rows_lookup.
    case_bool_decide; [ | done ]. cbn [fmap option_fmap option_map].
    by rewrite !null_rows_cons, null_rows_app, Nat.add_assoc.
Qed.

End SummaryMore.

Lemma summarize_rows_reads_witness :
  Summary.summarize_rows
    [ Summary.priced 1 (Jsonable.VInt 100);
      <[("seller" : str) := Jsonable.VNone]> (Summary.priced 2 (Jsonable.VInt 5)) ]
  = Summary.summarize_rows
      [ Summary.priced 1 (Jsonable.VInt 100); Summary.priced 7 (Jsonable.VInt 9) ].
Proof.
  apply summarize_rows_reads. repeat constructor. intros c _.
  unfold Summary.get_is_None, Summary.priced.
  destruct (decide (c = ("price" : str))) as [ -> | Hp ]; [ reflexivity | ].
  destruct (decide (c = ("id" : str))) as [ -> | Hi ]; [ reflexivity | ].
  destruct (decide (c = ("seller" : str))) as [ -> | Hs ]; [ reflexivity | ].
  by rewrite !lookup_insert_ne, lookup_empty by done.
Defined.

Lemma summarize_rows_permutation_witness :
  Summary.summarize_rows
    [ Summary.priced 1 (Jsonable.VInt 100);
      Summary.priced 2 Jsonable.VNone; Summary.priced 3 (Jsonable.VInt 5) ]
  = Summary.summarize_rows
      [ Summary.priced 1 (Jsonable.VInt 100);
        Summary.priced 3 (Jsonable.VInt 5); Summary.priced 2 Jsonable.VNone ].
Proof. apply summarize_rows_permutation. apply perm_swap. Defined.


(** ** The query and its preview *)

Section QueryFacts.
Import Chars Str Validator Jsonable Bridge Summary Query.
Context {Decimal Float Date Opaque : Type}.
Variable float : Decimal -> Float.
Variable isoformat : Date -> str.

Implicit Types (r first : gmap str (Jsonable.value Decimal Float Date Opaque)).
Implicit Types (rows : list (gmap str (Jsonable.value Decimal Float Date Opaque))).
Implicit Types (c : str).

Lemma get_is_None_coerced r c :
  get_is_None (to_jsonable float isoformat <$> r) c = get_is_None r c.
Proof.
  unfold get_is_None. rewrite lookup_fmap.
  destruct (r !! c) as [ v | ]; [ | done ]. by destruct v.
Qed.

Lemma null_rows_coerced c rows :
  null_rows c (rows_to_jsonable float isoformat rows) = null_rows c rows.
Proof.
  induction rows as [ | r rows IH ]; [ done | ].
  unfold rows_to_jsonable in *. cbn [map].
  by rewrite !null_rows_cons, get_is_None_coerced, IH.
Qed.

(** Coercing the rows does not change their summary: the endpoint
    summarizes the coerced rows and gets the counts of the fetched ones. *)
Theorem summarize_rows_coerced rows :
  summarize_rows (rows_to_jsonable float isoformat rows) = summarize_rows rows.
Proof.
  destruct rows as [ | first rows ]; [ done | ].
  change (rows_to_jsonable float isoformat (first :: rows))
    with ((to_jsonable float isoformat <$> first)
            :: rows_to_jsonable float isoformat rows).
  apply summarize_rows_ext.
  - apply dom_fmap_L.
  - unfold rows_to_jsonable. by rewrite length_map.
  - intros c _.
    by rewrite !null_rows_cons, get_is_None_coerced, null_rows_coerced.
Qed.

(** [to_jsonable] on a list of dicts gives a list of dicts again, as many
    and in the same order, and read as rows they are the coerced rows. *)
Theorem rows_to_jsonable_dicts
  (dicts : list (list (str * Jsonable.value Decimal Float Date Opaque))) :
  exists dicts',
    to_jsonable float isoformat (VList (map VDict dicts))
      = VList (map VDict dicts') /\
    map fst <$> dicts' = map fst <$> dicts /\
    (list_to_map <$> dicts'
       : list (gmap str (Jsonable.value Decimal Float Date Opaque)))
      = rows_to_jsonable float isoformat (list_to_map <$> dicts).
Proof.
  exists (map (map (fun '(k, v) => (k, to_jsonable float isoformat v))) dicts).
  split; [ | split ].
  - cbn [to_jsonable]. f_equal. rewrite !map_map. by apply map_ext.
  - induction dicts as [ | items dicts IH ]; [ done | ].
    cbn [map fmap list_fmap] in *. rewrite IH. f_equal.
    induction items as [ | [k v] items IHi ]; [ done | ].
    cbn [map fst]. by rewrite IHi.
  - unfold rows_to_jsonable.
    induction dicts as [ | items dicts IH ]; [ done | ].
    cbn [map fmap list_fmap] in *. rewrite IH. f_equal.
    induction items as [ | [k v] items IHi ]; cbn [map list_to_map foldr].
    + by rewrite fmap_empty.
    + cbn. rewrite fmap_insert. f_equal. exact IHi.
Qed.

(** Coercing the summary changes nothing: its values are integers and a
    dict of integers. *)
Theorem stats_value_coerced (s : stats) :
  to_jsonable float isoformat (stats_value s)
    = (stats_value s : Jsonable.value Decimal Float Date Opaque).
Proof.
  unfold stats_value. cbn [to_jsonable map]. do 5 f_equal.
  rewrite map_map. apply map_ext. by intros [c n].
Qed.

Lemma rows_to_jsonable_safe rows :
  Forall (map_Forall (fun _ v => json_safe v = true))
    (rows_to_jsonable float isoformat rows).
Proof.
  unfold rows_to_jsonable.
  induction rows as [ | r0 rows IH ]; cbn [map]; constructor; [ | done ].
  intros c v. rewrite lookup_fmap.
  destruct (r0 !! c) as [ v0 | ]; [ | done ]. intros [= <-].
  apply coerce_json_safe.
Qed.

Lemma rows_to_jsonable_dom rows :
  Forall2 (fun r r0 => dom r = dom r0)
    (rows_to_jsonable float isoformat rows) rows.
Proof.
  unfold rows_to_jsonable.
  induction rows as [ | r0 rows IH ]; cbn [map]; constructor; [ | done ].
  apply dom_fmap_L.
Qed.

Lemma run_query_inv
  (execute : str -> db_error + cursor (Decimal := Decimal) (Float := Float)
                                 (Date := Date) (Opaque := Opaque))
  (q : str) rows (cols : list str) :
  run_query float isoformat execute q = inr (rows, cols) ->
  exists cur,
    execute q = inr cur /\
    rows = rows_to_jsonable float isoformat (fetchmany 50 cur) /\
    cols = default [] (description cur).
Proof.
  unfold run_query. destruct (execute q) as [ e | cur ]; [ done | ].
  intros [= <- <-]. exists cur. split; [ done | ]. split; [ done | ].
  by destruct (description cur).
Qed.

Lemma length_preview (cur : cursor (Decimal := Decimal) (Float := Float)
                             (Date := Date) (Opaque := Opaque)) :
  length (rows_to_jsonable float isoformat (fetchmany 50 cur))
    = Nat.min 50 (length (result_rows cur)).
Proof. unfold rows_to_jsonable, fetchmany. by rewrite length_map, length_take. Qed.

(** What [run_query] returns when the database answers: at most 50 rows,
    as many as the result has up to that; every value in them is
    JSON-safe; each has the columns of the fetched row it comes from; and
    the columns are those of the description, none when there is none. *)
Theorem run_query_preview
  (execute : str -> db_error + cursor (Decimal := Decimal) (Float := Float)
                                 (Date := Date) (Opaque := Opaque))
  (q : str) rows (cols : list str) :
  run_query float isoformat execute q = inr (rows, cols) ->
  exists cur,
    execute q = inr cur /\
    length rows = Nat.min 50 (length (result_rows cur)) /\
    length rows <= 50 /\
    Forall (map_Forall (fun _ v => json_safe v = true)) rows /\
    Forall2 (fun r r0 => dom r = dom r0) rows (fetchmany 50 cur) /\
    cols = default [] (description cur).
Proof.
  intros (cur & He & -> & ->)%run_query_inv. exists cur.
  split; [ done | ]. rewrite length_preview.
  split; [ done | ]. split; [ lia | ]. split; [ | split; [ | done ] ].
  - apply rows_to_jsonable_safe.
  - apply rows_to_jsonable_dom.
Qed.

End QueryFacts.

Lemma run_query_preview_witness :
  exists cur,
    (fun _ : str => inr Api.demo_cursor) ("select 1 limit 7" : str)
      = (inr cur : Query.db_error + Query.cursor) /\
    length ([] : list (gmap str (Jsonable.value unit unit unit unit)))
      = Nat.min 50 (length (Query.result_rows cur)).
Proof.
  destruct (run_query_preview (fun _ : unit => tt) (fun _ : unit => [])
              (fun _ : str => inr Api.demo_cursor) "select 1 limit 7"
              [] [("n" : str)] eq_refl) as (cur & H1 & H2 & _).
  exists cur. split; [ exact H1 | exact H2 ].
Defined.

(** ** The question endpoint *)

Section AskFacts.
Import Chars Str Validator Jsonable Bridge Summary Query Scan Api.
Context {Decimal Float Date Opaque : Type}.
Variable float : Decimal -> Float.
Variable isoformat : Date -> str.
Variable nonzero : Float -> bool.
Variable repr : json Float -> str.
Variable MAX_ROWS : Z.
Variable json_loads : str -> option (json Float).
Variable sql_model : str -> option reply.
Variable json_dumps :
  payload (Decimal := Decimal) (Float := Float) (Date := Date)
    (Opaque := Opaque) -> option str.

Lemma validate_sql_fixed s r :
  validate_sql MAX_ROWS s = Ok r -> validate_sql MAX_ROWS r = Ok r.
Proof.
  intros (Hne & Hacc & Hno & ->)%validate_sql_Ok.
  destruct (capped_stable MAX_ROWS (strip s) (strip_strip s) Hacc)
    as (Hacc' & Hs' & Hcap).
  apply validate_sql_Ok. rewrite Hs'. repeat split.
  - by apply accepted_nonempty.
  - exact Hacc'.
  - by apply cap_raises_capped.
  - by rewrite Hcap.
Qed.




End AskFacts.



